(** * Library Management System: borrow/return state machine, waitlist,
      interaction graph and recommendation scorer

    A shallow embedding of [book.py], [user.py], [data_structures.py],
    [library.py], [recommendation.py] and [validation.py], and of the
    entries of the menu of [app.py] that change the library.

    Conventions of the embedding.
    - Python [int] is [Z]; [str] is [string], a string of bytes; [float]
      is the kernel's binary64 [float].  [lower] acts on the ASCII
      letters and [strip] on the ASCII blanks: they are [str.lower] and
      [str.strip] on text in ASCII, and the further properties that
      depend on what they do to a text are stated for text in ASCII
      ([ascii_text]).
    - A [dict] that the code reads and writes by key is a [gmap]; a [set]
      is a [gset]; a list is a [list].  Where the code iterates a set or a
      dict ([for neigh in self._adj[node]],
      [self.library.books.values()]) the order of iteration is a parameter
      of the model.
    - A method that mutates [self] is a function from the object's value
      before the call to its value after it.  [Book] and [User] objects
      are modelled by value: the objects registered in a [Library] are
      taken to be distinct objects, with sets and lists of their own, that
      change through the library's methods only.  The nodes of the linked
      queue keep their identity, since [_head], [_tail] and [next] share
      them.
    - A call that can raise returns a [result]; a [Library] method returns
      its [result] together with the library as the call leaves it.
    - The loop of [bfs], which the code does not bound, is given fuel;
      that the fuel suffices is part of what is proved.  So is the walk
      along the linked queue.
    - What [json.load] makes of a saved file is a record of the shape that
      [_snapshot] writes; reading and writing the file itself is not
      modelled.
    - The console is the list of the lines that are typed and the list of
      what is written; an entry of the menu is a function of what its
      prompts returned, and the pause [wait_key] is left out. *)

From Stdlib Require Import ZArith Floats.
From Stdlib Require OrderedTypeEx.
From stdpp Require Import gmap strings list relations sorting pretty.

Set Warnings "-inexact-float,-clear-no-such-hyp".
Open Scope Z_scope.

(** ** Exceptions and results *)

Inductive exn : Type :=
| ValueError
| KeyError
| IndexError
| AttributeError
| OverflowError.

Inductive result (A : Type) : Type :=
| Ok (a : A)
| Raise (e : exn).

Arguments Ok {A} a.
Arguments Raise {A} e.

(** ** book.py *)

Record Book : Type := mkBook {
  item_id : string;
  title : string;
  author : string;
  genre : string;
  total_copies : Z;
  _available_copies : Z;
  borrow_count : Z
}.

Definition set_total_copies (v : Z) (b : Book) : Book :=
  mkBook (item_id b) (title b) (author b) (genre b)
         v (_available_copies b) (borrow_count b).

Definition set_available_copies (v : Z) (b : Book) : Book :=
  mkBook (item_id b) (title b) (author b) (genre b)
         (total_copies b) v (borrow_count b).

Definition set_borrow_count (v : Z) (b : Book) : Book :=
  mkBook (item_id b) (title b) (author b) (genre b)
         (total_copies b) (_available_copies b) v.

Definition set_item_id (v : string) (b : Book) : Book :=
  mkBook v (title b) (author b) (genre b)
         (total_copies b) (_available_copies b) (borrow_count b).

Definition set_title (v : string) (b : Book) : Book :=
  mkBook (item_id b) v (author b) (genre b)
         (total_copies b) (_available_copies b) (borrow_count b).

Definition set_author (v : string) (b : Book) : Book :=
  mkBook (item_id b) (title b) v (genre b)
         (total_copies b) (_available_copies b) (borrow_count b).

Definition set_genre (v : string) (b : Book) : Book :=
  mkBook (item_id b) (title b) (author b) v
         (total_copies b) (_available_copies b) (borrow_count b).

(** Python's truth value of a string: [not s] holds for the empty string. *)
Definition str_is_empty (s : string) : bool :=
  match s with EmptyString => true | String _ _ => false end.

(** [Book(item_id, title, author, genre, total_copies, _available_copies,
    borrow_count)]: the dataclass constructor followed by
    [Book.__post_init__] (which first runs [LibraryItem.__post_init__]). *)
Definition Book_init (item_id title author genre : string)
    (total_copies _available_copies borrow_count : Z) : result Book :=
  if str_is_empty item_id || str_is_empty title || str_is_empty author
  then Raise ValueError
  else if total_copies <? 0 then Raise ValueError
  else
    let avail :=
      if (_available_copies <? 0) || (total_copies <? _available_copies)
      then total_copies else _available_copies in
    if str_is_empty genre then Raise ValueError
    else Ok (mkBook item_id title author genre total_copies avail borrow_count).

(** The property [Book.available_copies]. *)
Definition available_copies (b : Book) : Z := _available_copies b.

Definition can_borrow (b : Book) : bool := 0 <? _available_copies b.

Definition borrow_one (b : Book) : result Book :=
  if _available_copies b <=? 0 then Raise ValueError
  else Ok (set_borrow_count (borrow_count b + 1)
             (set_available_copies (_available_copies b - 1) b)).

Definition return_one (b : Book) : result Book :=
  if total_copies b <=? _available_copies b then Raise ValueError
  else Ok (set_available_copies (_available_copies b + 1) b).

(** The invariant of the data model. *)
Definition copies_ok (b : Book) : Prop :=
  0 <= _available_copies b <= total_copies b.

(** ** user.py *)

Record User : Type := mkUser {
  user_id : string;
  name : string;
  interests : gset string;
  borrowed_books : gset string;
  history : list string
}.

Definition User_borrow (book_id : string) (u : User) : User :=
  mkUser (user_id u) (name u) (interests u)
         ({[book_id]} ∪ borrowed_books u) (history u ++ [book_id]).

Definition User_return_book (book_id : string) (u : User) : User :=
  mkUser (user_id u) (name u) (interests u)
         (borrowed_books u ∖ {[book_id]}) (history u).

(** ** data_structures.py: LinkedListQueue *)

(** A [_Node]: its value and the node its [next] refers to.  Nodes are
    objects with identity: a reference to a node is its index in the list
    of the nodes created so far. *)
Record Node (T : Type) : Type := mkNode {
  node_value : T;
  node_next : option nat
}.

Arguments mkNode {T} node_value node_next.
Arguments node_value {T} _.
Arguments node_next {T} _.

Record LinkedListQueue (T : Type) : Type := mkQueue {
  q_nodes : list (Node T);
  _head : option nat;
  _tail : option nat;
  _size : Z
}.

Arguments mkQueue {T} q_nodes _head _tail _size.
Arguments q_nodes {T} _.
Arguments _head {T} _.
Arguments _tail {T} _.
Arguments _size {T} _.

(** [LinkedListQueue()] *)
Definition LinkedListQueue_init {T : Type} : LinkedListQueue T :=
  mkQueue [] None None 0.

(** [self._tail.next = node] *)
Definition set_next {T : Type} (node : nat) (n : Node T) : Node T :=
  mkNode (node_value n) (Some node).

Definition enqueue {T : Type} (value : T) (q : LinkedListQueue T)
  : LinkedListQueue T :=
  let node := length (q_nodes q) in
  let nodes := q_nodes q ++ [mkNode value None] in
  match _tail q with
  | None => mkQueue nodes (Some node) (Some node) (_size q + 1)
  | Some tail =>
      mkQueue (alter (set_next node) tail nodes) (_head q) (Some node)
        (_size q + 1)
  end.

(** In [dequeue] and [peek] the case of a reference without its node is
    not one of Python: it is given the answer of the empty queue. *)
Definition dequeue {T : Type} (q : LinkedListQueue T)
  : result T * LinkedListQueue T :=
  match _head q with
  | None => (Raise IndexError, q)
  | Some head =>
      match q_nodes q !! head with
      | None => (Raise IndexError, q)
      | Some node =>
          (Ok (node_value node),
           mkQueue (q_nodes q) (node_next node)
             (match node_next node with
              | None => None
              | Some _ => _tail q
              end)
             (_size q - 1))
      end
  end.

Definition peek {T : Type} (q : LinkedListQueue T) : result T :=
  match _head q with
  | None => Raise IndexError
  | Some head =>
      match q_nodes q !! head with
      | None => Raise IndexError
      | Some node => Ok (node_value node)
      end
  end.

(** [__len__] and [__bool__] *)
Definition queue_len {T : Type} (q : LinkedListQueue T) : Z := _size q.

Definition queue_bool {T : Type} (q : LinkedListQueue T) : bool :=
  0 <? _size q.

(** ** data_structures.py: Graph *)

Abbreviation Graph := (gmap string (gset string)).

Definition empty_graph : Graph := ∅.

(** [self._adj.setdefault(node, set())] *)
Definition add_node (node : string) (g : Graph) : Graph :=
  match g !! node with
  | Some _ => g
  | None => <[node := ∅]> g
  end.

(** [self._adj[a].add(b)] finds its key: [add_node] has put it. *)
Definition add_edge (a b : string) (g : Graph) : Graph :=
  if decide (a = b) then g
  else
    let g1 := add_node a g in
    let g2 := add_node b g1 in
    let g3 := alter (λ s, {[b]} ∪ s) a g2 in
    alter (λ s, {[a]} ∪ s) b g3.

Definition neighbors (node : string) (g : Graph) : gset string :=
  default ∅ (g !! node).

Definition graph_contains (node : string) (g : Graph) : bool :=
  bool_decide (is_Some (g !! node)).

(** ** library.py *)

Record Library : Type := mkLibrary {
  books : gmap string Book;
  users : gmap string User;
  borrow_requests : LinkedListQueue (string * string);
  user_book_graph : Graph
}.

(** [Library()] *)
Definition Library_init : Library :=
  mkLibrary ∅ ∅ LinkedListQueue_init empty_graph.

Definition with_books (bs : gmap string Book) (L : Library) : Library :=
  mkLibrary bs (users L) (borrow_requests L) (user_book_graph L).

Definition with_users (us : gmap string User) (L : Library) : Library :=
  mkLibrary (books L) us (borrow_requests L) (user_book_graph L).

Definition with_borrow_requests (q : LinkedListQueue (string * string))
    (L : Library) : Library :=
  mkLibrary (books L) (users L) q (user_book_graph L).

Definition with_graph (g : Graph) (L : Library) : Library :=
  mkLibrary (books L) (users L) (borrow_requests L) g.

(** The node names [f"user:{user_id}"] and [f"book:{book_id}"]. *)
Definition user_node (user_id : string) : string := "user:" +:+ user_id.
Definition book_node (book_id : string) : string := "book:" +:+ book_id.

Definition add_book (book : Book) (L : Library) : Library :=
  match books L !! item_id book with
  | Some existing =>
      let existing1 :=
        set_total_copies (total_copies existing + total_copies book) existing in
      let existing2 :=
        set_available_copies
          (_available_copies existing1 + _available_copies book) existing1 in
      with_books (<[item_id book := existing2]> (books L)) L
  | None =>
      with_graph (add_node (book_node (item_id book)) (user_book_graph L))
        (with_books (<[item_id book := book]> (books L)) L)
  end.

(** [self.books.pop(book_id, None) is not None] *)
Definition remove_book (book_id : string) (L : Library) : bool * Library :=
  match books L !! book_id with
  | Some _ => (true, with_books (delete book_id (books L)) L)
  | None => (false, L)
  end.

(** One keyword argument of [update_book], at the type the dataclass
    annotates for the attribute it names.  [kw_available_copies] is the
    key ["available_copies"], the read-only property; [kw_other] is any
    key for which [hasattr(book, key)] is false.  Keys that name a method
    or another attribute of the class, and values of another type than
    the annotated one, are outside the model. *)
Inductive kwarg : Type :=
| kw_item_id (value : string)
| kw_title (value : string)
| kw_author (value : string)
| kw_genre (value : string)
| kw_total_copies (value : Z)
| kw__available_copies (value : Z)
| kw_borrow_count (value : Z)
| kw_available_copies (value : Z)
| kw_other.

Definition hasattr (kw : kwarg) : bool :=
  match kw with
  | kw_other => false
  | _ => true
  end.

(** [setattr(book, key, value)]: a dataclass field is overwritten; the
    property [available_copies] has no setter, so assigning to it raises
    [AttributeError]. *)
Definition setattr (book : Book) (kw : kwarg) : result Book :=
  match kw with
  | kw_item_id v => Ok (set_item_id v book)
  | kw_title v => Ok (set_title v book)
  | kw_author v => Ok (set_author v book)
  | kw_genre v => Ok (set_genre v book)
  | kw_total_copies v => Ok (set_total_copies v book)
  | kw__available_copies v => Ok (set_available_copies v book)
  | kw_borrow_count v => Ok (set_borrow_count v book)
  | kw_available_copies _ => Raise AttributeError
  | kw_other => Ok book
  end.

(** The loop [for key, value in updates.items()] of [update_book]: the
    book as the loop leaves it, and whether it ran to its end. *)
Fixpoint apply_updates (updates : list kwarg) (book : Book)
  : result unit * Book :=
  match updates with
  | [] => (Ok tt, book)
  | kw :: rest =>
      if hasattr kw then
        match setattr book kw with
        | Ok book' => apply_updates rest book'
        | Raise e => (Raise e, book)
        end
      else apply_updates rest book
  end.

Definition update_book (book_id : string) (updates : list kwarg) (L : Library)
  : result bool * Library :=
  match books L !! book_id with
  | None => (Ok false, L)
  | Some book =>
      let '(r, book') := apply_updates updates book in
      let L' := with_books (<[book_id := book']> (books L)) L in
      match r with
      | Ok _ => (Ok true, L')
      | Raise e => (Raise e, L')
      end
  end.

Definition add_user (user : User) (L : Library) : Library :=
  match users L !! user_id user with
  | Some _ => L
  | None =>
      with_graph (add_node (user_node (user_id user)) (user_book_graph L))
        (with_users (<[user_id user := user]> (users L)) L)
  end.

Definition enqueue_borrow_request (user_id book_id : string) (L : Library)
  : Library :=
  with_borrow_requests (enqueue (user_id, book_id) (borrow_requests L)) L.

Definition borrow_book (user_id book_id : string) (L : Library)
  : result bool * Library :=
  match users L !! user_id, books L !! book_id with
  | Some user, Some book =>
      if negb (can_borrow book) then (Ok false, L)
      else
        match borrow_one book with
        | Raise e => (Raise e, L)
        | Ok book' =>
            (Ok true,
             mkLibrary
               (<[book_id := book']> (books L))
               (<[user_id := User_borrow book_id user]> (users L))
               (borrow_requests L)
               (add_edge (user_node user_id) (book_node book_id)
                  (user_book_graph L)))
        end
  | _, _ => (Ok false, L)
  end.

Definition process_next_borrow (L : Library) : result bool * Library :=
  if negb (queue_bool (borrow_requests L)) then (Ok false, L)
  else
    match dequeue (borrow_requests L) with
    | (Raise e, q) => (Raise e, with_borrow_requests q L)
    | (Ok (user_id, book_id), q) =>
        borrow_book user_id book_id (with_borrow_requests q L)
    end.

Definition return_book (user_id book_id : string) (L : Library)
  : result bool * Library :=
  match users L !! user_id, books L !! book_id with
  | Some user, Some book =>
      if negb (bool_decide (book_id ∈ borrowed_books user)) then (Ok false, L)
      else
        match return_one book with
        | Raise e => (Raise e, L)
        | Ok book' =>
            (Ok true,
             mkLibrary
               (<[book_id := book']> (books L))
               (<[user_id := User_return_book book_id user]> (users L))
               (borrow_requests L)
               (user_book_graph L))
        end
  | _, _ => (Ok false, L)
  end.

(** ** data_structures.py: Graph.bfs *)

(** The body of [for neigh in self._adj[node]]: an unvisited neighbour is
    marked and appended to the work list one level deeper. *)
Definition visit (depth : Z) (st : gset string * list (string * Z))
    (neigh : string) : gset string * list (string * Z) :=
  if decide (neigh ∈ st.1) then st
  else ({[neigh]} ∪ st.1, st.2 ++ [(neigh, depth + 1)]).

Section Traversal.

(** The order in which Python iterates a set. *)
Variable set_order : gset string → list string.

(** The loop [while i < len(queue)].  [queue] only grows and [i] walks
    through it; every turn of the loop uses one unit of [fuel], and [None]
    is the answer of a loop that was given too little. *)
Fixpoint bfs_loop (fuel : nat) (g : Graph) (max_depth : Z)
    (visited : gset string) (queue order : list (string * Z)) (i : nat)
  : option (result (list (string * Z))) :=
  match fuel with
  | O => None
  | S fuel' =>
      match queue !! i with
      | None => Some (Ok order)
      | Some (node, depth) =>
          let order' := order ++ [(node, depth)] in
          if max_depth <=? depth
          then bfs_loop fuel' g max_depth visited queue order' (S i)
          else
            match g !! node with
            | None => Some (Raise KeyError)
            | Some adj =>
                let st :=
                  foldl (visit depth) (visited, queue) (set_order adj) in
                bfs_loop fuel' g max_depth st.1 st.2 order' (S i)
            end
      end
  end.

(** Every name that occurs in the adjacency structure, as a key or as a
    neighbour. *)
Definition graph_names (g : Graph) : gset string :=
  dom g ∪ ⋃ (map_to_list g).*2.

(** One turn of the loop per name of the graph, and the turn that leaves
    it. *)
Definition bfs_fuel (g : Graph) : nat := S (size (graph_names g)).

Definition bfs (start : string) (max_depth : Z) (g : Graph)
  : option (result (list (string * Z))) :=
  match g !! start with
  | None => Some (Ok [])
  | Some _ => bfs_loop (bfs_fuel g) g max_depth {[start]} [(start, 0)] [] 0
  end.

End Traversal.

(** ** recommendation.py *)

(** [str.lower()], on the ASCII letters. *)
Definition lower_ascii (c : Ascii.ascii) : Ascii.ascii :=
  let n := Ascii.nat_of_ascii c in
  if ((65 <=? n)%nat && (n <=? 90)%nat)%bool
  then Ascii.ascii_of_nat (n + 32) else c.

Fixpoint lower (s : string) : string :=
  match s with
  | EmptyString => EmptyString
  | String c rest => String (lower_ascii c) (lower rest)
  end.

(** [node.split(":", 1)[1]] for a [node] that holds a colon: the text
    after the first one. *)
Definition colon : Ascii.ascii := Ascii.ascii_of_nat 58.

Fixpoint after_colon (node : string) : string :=
  match node with
  | EmptyString => EmptyString
  | String c rest => if Ascii.eqb c colon then rest else after_colon rest
  end.

(** The conversion of an [int] operand of a float operation: rounding to
    the nearest binary64 value, [OverflowError] when there is none. *)
Definition float_of_int (z : Z) : result float :=
  let f := SF2Prim (binary_normalize prec emax z 0 false) in
  if PrimFloat.is_infinity f then Raise OverflowError else Ok f.

(** [min(x, y)] and [max(x, y)] keep their first argument unless the second
    one is strictly smaller (larger). *)
Definition float_min (x y : float) : float :=
  if PrimFloat.ltb y x then y else x.

Definition float_max (x y : float) : float :=
  if PrimFloat.ltb x y then y else x.

(** [candidate_scores]: a dict that is iterated, so an association list in
    insertion order. *)
Fixpoint scores_get (key : string) (d : list (string * float)) : option float :=
  match d with
  | [] => None
  | (k, v) :: rest => if String.eqb k key then Some v else scores_get key rest
  end.

Fixpoint scores_set (key : string) (v : float) (d : list (string * float))
  : list (string * float) :=
  match d with
  | [] => [(key, v)]
  | (k, w) :: rest =>
      if String.eqb k key then (k, v) :: rest
      else (k, w) :: scores_set key v rest
  end.

(** [min(book.borrow_count / 10.0, 1.0)] *)
Definition popularity (book : Book) : result float :=
  match float_of_int (borrow_count book) with
  | Raise e => Raise e
  | Ok c => Ok (float_min (c / 10) 1)%float
  end.

(** The body of the loop [for node, depth in traversal]. *)
Definition score_node (L : Library) (uid : string) (user : User)
    (acc : result (list (string * float))) (entry : string * Z)
  : result (list (string * float)) :=
  match acc with
  | Raise e => Raise e
  | Ok candidate_scores =>
      let '(node, depth) := entry in
      if (String.prefix "book:" node
          && negb (String.eqb node (book_node uid)))%bool
      then
        let book_id := after_colon node in
        if bool_decide (book_id ∈ borrowed_books user) then Ok candidate_scores
        else
          match books L !! book_id with
          | None => Ok candidate_scores
          | Some book =>
              match float_of_int (1 + depth), popularity book with
              | Raise e, _ => Raise e
              | _, Raise e => Raise e
              | Ok d, Ok p =>
                  let score := (1 / d)%float in
                  let score :=
                    if bool_decide (lower (genre book) ∈ interests user)
                    then (score + 0.5)%float else score in
                  let score := (score + p)%float in
                  Ok (scores_set book_id
                        (float_max (default 0%float
                                      (scores_get book_id candidate_scores))
                                   score)
                        candidate_scores)
              end
          end
      else Ok candidate_scores
  end.

(** The body of the fallback loop [for b in self.library.books.values()]. *)
Definition score_fallback (user : User)
    (acc : result (list (string * float))) (b : Book)
  : result (list (string * float)) :=
  match acc with
  | Raise e => Raise e
  | Ok candidate_scores =>
      if bool_decide (item_id b ∈ borrowed_books user) then Ok candidate_scores
      else
        match popularity b with
        | Raise e => Raise e
        | Ok p =>
            let score := 0%float in
            let score :=
              if bool_decide (lower (genre b) ∈ interests user)
              then (score + 0.7)%float else score in
            let score := (score + p)%float in
            if PrimFloat.ltb 0 score
            then Ok (scores_set (item_id b) score candidate_scores)
            else Ok candidate_scores
        end
  end.

(** The generator [(self.library.books[bid], sc) for bid, sc in ...]. *)
Fixpoint lookup_books (L : Library) (d : list (string * float))
  : result (list (Book * float)) :=
  match d with
  | [] => Ok []
  | (bid, sc) :: rest =>
      match books L !! bid with
      | None => Raise KeyError
      | Some b =>
          match lookup_books L rest with
          | Raise e => Raise e
          | Ok l => Ok ((b, sc) :: l)
          end
      end
  end.

(** The sort key [(-t[1], -t[0].borrow_count, t[0].title.lower())] and the
    order of Python's tuples on it. *)
Definition rank_key (t : Book * float) : float * Z * string :=
  (PrimFloat.opp t.2, - borrow_count t.1, lower (title t.1)).

Definition key_lt (a b : float * Z * string) : bool :=
  let '(a1, a2, a3) := a in
  let '(b1, b2, b3) := b in
  if negb (PrimFloat.eqb a1 b1) then PrimFloat.ltb a1 b1
  else if negb (a2 =? b2) then a2 <? b2
  else String.ltb a3 b3.

(** [sorted(xs, key=key)]: the stable sort, here by insertion from the
    right. *)
Fixpoint insert_by {A K : Type} (lt : K → K → bool) (key : A → K)
    (x : A) (l : list A) : list A :=
  match l with
  | [] => [x]
  | y :: l' =>
      if lt (key y) (key x) then y :: insert_by lt key x l'
      else x :: y :: l'
  end.

Definition sorted_by {A K : Type} (lt : K → K → bool) (key : A → K)
    (l : list A) : list A :=
  foldr (insert_by lt key) [] l.

(** The slice [xs[:k]]: a negative [k] counts from the end. *)
Definition slice_to {A : Type} (k : Z) (xs : list A) : list A :=
  if 0 <=? k then take (Z.to_nat k) xs
  else take (Z.to_nat (Z.of_nat (length xs) + k)) xs.

Section Recommendation.

(** The orders in which Python iterates a set and the values of the
    [books] dict. *)
Variable set_order : gset string → list string.
Variable books_order : gmap string Book → list Book.

(** The local variable [ranked] of [recommend_for_user], for a known
    user. *)
Definition ranked_for_user (L : Library) (uid : string) (user : User)
  : option (result (list (Book * float))) :=
  match bfs set_order (user_node uid) 3 (user_book_graph L) with
  | None => None
  | Some (Raise e) => Some (Raise e)
  | Some (Ok traversal) =>
      let candidate_scores := foldl (score_node L uid user) (Ok []) traversal in
      let candidate_scores :=
        match candidate_scores with
        | Ok [] => foldl (score_fallback user) (Ok []) (books_order (books L))
        | other => other
        end in
      match candidate_scores with
      | Raise e => Some (Raise e)
      | Ok scores =>
          match lookup_books L scores with
          | Raise e => Some (Raise e)
          | Ok pairs => Some (Ok (sorted_by key_lt rank_key pairs))
          end
      end
  end.

Definition recommend_for_user (L : Library) (uid : string) (k : Z)
  : option (result (list (Book * float))) :=
  match users L !! uid with
  | None => Some (Ok [])
  | Some user =>
      match ranked_for_user L uid user with
      | None => None
      | Some (Raise e) => Some (Raise e)
      | Some (Ok ranked) => Some (Ok (slice_to k ranked))
      end
  end.

End Recommendation.

(** ** library.py: the snapshot of the queue *)

(** The loop [while node is not None] of [_borrow_requests_as_list], with
    one unit of [fuel] for each turn; [None] is the answer of a walk that
    was given too little (or met a reference without its node, which no
    state of Python has). *)
Fixpoint walk_chain {T : Type} (fuel : nat) (nodes : list (Node T))
    (node : option nat) (items : list T) : option (list T) :=
  match node with
  | None => Some items
  | Some a =>
      match fuel with
      | O => None
      | S fuel' =>
          match nodes !! a with
          | None => None
          | Some n =>
              walk_chain fuel' nodes (node_next n) (items ++ [node_value n])
          end
      end
  end.

(** One turn for each node that was ever created. *)
Definition _borrow_requests_as_list (L : Library)
  : option (list (string * string)) :=
  let q := borrow_requests L in
  walk_chain (length (q_nodes q)) (q_nodes q) (_head q) [].

(** ** library.py: searching and listing *)

(** [a in b] for two [str]: [a] occurs in [b]. *)
Fixpoint str_contains (a b : string) : bool :=
  (String.prefix a b
   || match b with
      | EmptyString => false
      | String _ rest => str_contains a rest
      end)%bool.

(** The local function [match] of [search_books]; [None] is a criterion
    that was not given. *)
Definition search_match (by_title by_author by_genre : option string)
    (b : Book) : bool :=
  let ok := true in
  let ok :=
    match by_title with
    | Some t => (ok && str_contains (lower t) (lower (title b)))%bool
    | None => ok
    end in
  let ok :=
    match by_author with
    | Some a => (ok && str_contains (lower a) (lower (author b)))%bool
    | None => ok
    end in
  let ok :=
    match by_genre with
    | Some g => (ok && String.eqb (lower g) (lower (genre b)))%bool
    | None => ok
    end in
  ok.

(** The sort key [(b.title.lower(), b.author.lower())] of
    [available_books] and the order of Python's tuples on it. *)
Definition title_author_key (b : Book) : string * string :=
  (lower (title b), lower (author b)).

Definition title_author_lt (a b : string * string) : bool :=
  if negb (String.eqb a.1 b.1) then String.ltb a.1 b.1
  else String.ltb a.2 b.2.

Section Queries.

(** The order in which Python iterates the values of the [books] dict. *)
Variable books_order : gmap string Book → list Book.

Definition search_books (by_title by_author by_genre : option string)
    (L : Library) : list Book :=
  filter (λ b, search_match by_title by_author by_genre b = true)
    (books_order (books L)).

(** [heapq.nlargest(k, xs, key=key)] is
    [sorted(xs, key=key, reverse=True)[:k]]: the largest first, equal
    ones in the order of [xs]. *)
Definition top_k_books (k : Z) (L : Library) : list Book :=
  if k <=? 0 then []
  else
    take (Z.to_nat k)
      (sorted_by (λ a b : Z, b <? a) borrow_count (books_order (books L))).

Definition available_books (L : Library) : list Book :=
  sorted_by title_author_lt title_author_key
    (filter (λ b, 0 < available_copies b) (books_order (books L))).

End Queries.

(** ** user.py: the constructor *)

(** The characters that [str.strip()] removes, among the ASCII ones. *)
Definition is_space (c : Ascii.ascii) : bool :=
  let n := Ascii.nat_of_ascii c in
  (((9 <=? n)%nat && (n <=? 13)%nat)
   || ((28 <=? n)%nat && (n <=? 32)%nat))%bool.

Fixpoint lstrip (s : string) : string :=
  match s with
  | EmptyString => EmptyString
  | String c rest => if is_space c then lstrip rest else s
  end.

Fixpoint rstrip (s : string) : string :=
  match s with
  | EmptyString => EmptyString
  | String c rest =>
      match rstrip rest with
      | EmptyString => if is_space c then EmptyString else String c EmptyString
      | kept => String c kept
      end
  end.

Definition strip (s : string) : string := rstrip (lstrip s).

(** [{s.strip().lower() for s in self.interests if s.strip()}] *)
Definition normalized (interests : gset string) : gset string :=
  set_map (D := gset string) (λ s, lower (strip s))
    (filter (λ s, strip s ≠ EmptyString) interests).

(** [User(user_id, name, interests, borrowed_books, history)]: the
    dataclass constructor followed by [__post_init__]. *)
Definition User_init (user_id name : string)
    (interests borrowed_books : gset string) (history : list string)
  : result User :=
  if (str_is_empty user_id || str_is_empty name)%bool then Raise ValueError
  else Ok (mkUser user_id name (normalized interests) borrowed_books history).

Definition set_borrowed_books (v : gset string) (u : User) : User :=
  mkUser (user_id u) (name u) (interests u) v (history u).

Definition set_history (v : list string) (u : User) : User :=
  mkUser (user_id u) (name u) (interests u) (borrowed_books u) v.

(** ** Saving and loading *)

(** The dictionaries of [Book.to_dict] and [User.to_dict], whose keys are
    fixed, and the one of [Library._snapshot].  A dict that is iterated is
    the list of its items, in the order of iteration. *)
Record BookDict : Type := mkBookDict {
  bd_id : string;
  bd_title : string;
  bd_author : string;
  bd_genre : string;
  bd_total_copies : Z;
  bd_available_copies : Z;
  bd_borrow_count : Z
}.

Record UserDict : Type := mkUserDict {
  ud_id : string;
  ud_name : string;
  ud_interests : list string;
  ud_borrowed_books : list string;
  ud_history : list string
}.

Record Snapshot : Type := mkSnapshot {
  snap_version : Z;
  snap_books : list (string * BookDict);
  snap_users : list (string * UserDict);
  snap_borrow_requests : list (string * string)
}.

(** [Book.to_dict], with the part of [LibraryItem.to_dict]. *)
Definition Book_to_dict (b : Book) : BookDict :=
  mkBookDict (item_id b) (title b) (author b) (genre b)
    (total_copies b) (available_copies b) (borrow_count b).

(** The body of the first [try] of [load_from_file], for a dictionary as
    [Book.to_dict] writes it ([str] and [int] then change nothing). *)
Definition book_of_dict (bid : string) (bdict : BookDict) : result Book :=
  match Book_init bid (bd_title bdict) (bd_author bdict) (bd_genre bdict)
          (bd_total_copies bdict) (bd_available_copies bdict) 0 with
  | Raise e => Raise e
  | Ok book => Ok (set_borrow_count (bd_borrow_count bdict) book)
  end.

Definition load_book (L : Library) (entry : string * BookDict) : Library :=
  match book_of_dict entry.1 entry.2 with
  | Raise _ => L
  | Ok book => add_book book L
  end.

(** The body of the second [try]. *)
Definition user_of_dict (uid : string) (udict : UserDict) : result User :=
  match User_init uid (ud_name udict) (list_to_set (ud_interests udict))
          ∅ [] with
  | Raise e => Raise e
  | Ok user =>
      Ok (set_history (ud_history udict)
            (set_borrowed_books (list_to_set (ud_borrowed_books udict)) user))
  end.

Definition load_user (L : Library) (entry : string * UserDict) : Library :=
  match user_of_dict entry.1 entry.2 with
  | Raise _ => L
  | Ok user => add_user user L
  end.

(** The bodies of the two loops that rebuild the graph. *)
Definition load_edge (uid : string) (L : Library) (bid : string) : Library :=
  if bool_decide (is_Some (books L !! bid))
  then with_graph (add_edge (user_node uid) (book_node bid)
                     (user_book_graph L)) L
  else L.

Definition load_edges (L : Library) (entry : string * User) : Library :=
  foldl (load_edge entry.1) L (history entry.2).

Section Persistence.

(** The orders in which Python iterates a set and the items of the
    [books] and [users] dicts. *)
Variable set_order : gset string → list string.
Variable book_items : gmap string Book → list (string * Book).
Variable user_items : gmap string User → list (string * User).

(** [sorted(s)] for a set of [str]. *)
Definition sorted_strings (s : gset string) : list string :=
  sorted_by String.ltb (λ x, x) (set_order s).

Definition User_to_dict (u : User) : UserDict :=
  mkUserDict (user_id u) (name u) (sorted_strings (interests u))
    (sorted_strings (borrowed_books u)) (history u).

(** [None] is the answer of a walk along the queue that does not end. *)
Definition _snapshot (L : Library) : option Snapshot :=
  match _borrow_requests_as_list L with
  | None => None
  | Some requests =>
      Some (mkSnapshot 1
              (prod_map id Book_to_dict <$> book_items (books L))
              (prod_map id User_to_dict <$> user_items (users L))
              requests)
  end.

(** [load_from_file], from what [json.load] made of the file: [None] for
    a file that is missing or cannot be read, else data of the shape that
    [_snapshot] writes. *)
Definition load_from_file (file : option Snapshot) (L : Library)
  : bool * Library :=
  match file with
  | None => (false, L)
  | Some data =>
      let L := Library_init in
      let L := foldl load_book L (snap_books data) in
      let L := foldl load_user L (snap_users data) in
      let L := foldl load_edges L (user_items (users L)) in
      let L :=
        foldl (λ L r, enqueue_borrow_request r.1 r.2 L) L
          (snap_borrow_requests data) in
      (true, L)
  end.

End Persistence.

(** ** validation.py *)

(** The console.  [input] takes the lines that are typed, one at each
    call; what is written is the prompt of an [input] call or the text of
    a [print] call.  A function that reads returns what it wrote, its
    result ([None] when the lines ended before it could return, where
    [input] raises [EOFError]) and the lines that are left. *)
Inductive output : Type :=
| out_input (prompt : string)
| out_print (text : string).

Definition console (A : Type) : Type :=
  (list output * option A) * list string.

(** One more turn of a prompt loop: the prompt and the complaint of this
    turn come before what the later turns write. *)
Definition again {A : Type} (prompt text : string) (later : console A)
  : console A :=
  ((out_input prompt :: out_print text :: later.1.1, later.1.2), later.2).

Fixpoint prompt_non_empty (prompt : string) (inputs : list string)
  : console string :=
  match inputs with
  | [] => (([out_input prompt], None), [])
  | line :: rest =>
      let value := strip line in
      if negb (str_is_empty value)
      then (([out_input prompt], Some value), rest)
      else again prompt "Input cannot be empty."
             (prompt_non_empty prompt rest)
  end.

(** ['/'.join(choices)] *)
Fixpoint join (sep : string) (l : list string) : string :=
  match l with
  | [] => EmptyString
  | [x] => x
  | x :: rest => x +:+ sep +:+ join sep rest
  end.

(** The loop of [prompt_choice]: [text] is the prompt and [normalized]
    the dict, both made before the loop. *)
Fixpoint prompt_choice_loop (text : string)
    (normalized : gmap string string) (inputs : list string)
  : console string :=
  match inputs with
  | [] => (([out_input text], None), [])
  | line :: rest =>
      let value := lower (strip line) in
      match normalized !! value with
      | Some choice => (([out_input text], Some choice), rest)
      | None =>
          again text "Invalid choice. Try again."
            (prompt_choice_loop text normalized rest)
      end
  end.

(** [{c.lower(): c for c in choices}] *)
Definition choices_dict (choices : list string) : gmap string string :=
  foldl (λ d c, <[lower c := c]> d) ∅ choices.

Definition prompt_choice (prompt : string) (choices : list string)
    (inputs : list string) : console string :=
  prompt_choice_loop (prompt +:+ " (" +:+ join "/" choices +:+ "): ")
    (choices_dict choices) inputs.

Section PromptInt.

(** [int(raw)] for a [str]: [None] when it raises [ValueError]. *)
Variable int_of_str : string → option Z.

Fixpoint prompt_int (prompt : string) (min_value max_value : option Z)
    (inputs : list string) : console Z :=
  match inputs with
  | [] => (([out_input prompt], None), [])
  | line :: rest =>
      let raw := strip line in
      let later := prompt_int prompt min_value max_value rest in
      if str_is_empty raw then again prompt "Please enter a number." later
      else
        match int_of_str raw with
        | None => again prompt "Invalid number. Try again." later
        | Some value =>
            let checked_max :=
              match max_value with
              | Some M =>
                  if M <? value
                  then again prompt
                         ("Value must be <= " +:+ pretty M +:+ ".") later
                  else (([out_input prompt], Some value), rest)
              | None => (([out_input prompt], Some value), rest)
              end in
            match min_value with
            | Some m =>
                if value <? m
                then again prompt
                       ("Value must be >= " +:+ pretty m +:+ ".") later
                else checked_max
            | None => checked_max
            end
        end
  end.

End PromptInt.

(** ** app.py: the borrow and return entries of the menu *)

(** What [success], [info] and [error] of ui.py are asked to print. *)
Inductive message : Type :=
| ui_success (text : string)
| ui_info (text : string)
| ui_error (text : string).

(** [Application._borrow_book], from the two identifiers that the prompts
    read: the messages in the order in which they are printed, whether the
    call returns or raises, and the library it leaves. *)
Definition _borrow_book (user_id book_id : string) (L : Library)
  : (list message * result unit) * Library :=
  if negb (bool_decide (is_Some (users L !! user_id))) then
    (([ui_error "User not found."], Ok tt), L)
  else if negb (bool_decide (is_Some (books L !! book_id))) then
    (([ui_error "Book not found."], Ok tt), L)
  else
    match borrow_book user_id book_id L with
    | (Raise e, L1) => (([], Raise e), L1)
    | (Ok true, L1) => (([ui_success "Borrowed."], Ok tt), L1)
    | (Ok false, L1) =>
        (([ui_info "Book not available. Added to borrow queue."], Ok tt),
         enqueue_borrow_request user_id book_id L1)
    end.

(** [Application._return_book] *)
Definition _return_book (user_id book_id : string) (L : Library)
  : (list message * result unit) * Library :=
  match return_book user_id book_id L with
  | (Raise e, L1) => (([], Raise e), L1)
  | (Ok true, L1) =>
      match process_next_borrow L1 with
      | (Raise e, L2) => (([ui_success "Returned."], Raise e), L2)
      | (Ok true, L2) =>
          (([ui_success "Returned.";
             ui_info "A queued request has been processed."], Ok tt), L2)
      | (Ok false, L2) => (([ui_success "Returned."], Ok tt), L2)
      end
  | (Ok false, L1) => (([ui_error "Return failed."], Ok tt), L1)
  end.

(** ** app.py: the entries of the menu that edit the catalog and the users *)

(** [s.split(',')] *)
Fixpoint split_on (sep : Ascii.ascii) (s : string) : list string :=
  match s with
  | EmptyString => [EmptyString]
  | String c rest =>
      if Ascii.eqb c sep then EmptyString :: split_on sep rest
      else
        match split_on sep rest with
        | [] => [String c EmptyString]
        | piece :: pieces => String c piece :: pieces
        end
  end.

Definition comma : Ascii.ascii := Ascii.ascii_of_nat 44.

(** What the entries write besides the messages of ui.py:
    [error(f"{text}{e}")] for an exception [e], whose own text is left
    out, and [print(text)]. *)
Inductive notice : Type :=
| say (m : message)
| say_failed (text : string) (e : exn)
| say_print (text : string).

(** [Application._add_book], from what its six prompts returned. *)
Definition _add_book (book_id title author genre : string)
    (copies available : Z) (L : Library) : list notice * Library :=
  match Book_init book_id title author (lower genre) copies available 0 with
  | Ok book => ([say (ui_success "Book added.")], add_book book L)
  | Raise e => ([say_failed "Failed to add book: " e], L)
  end.

(** [Application._remove_book] *)
Definition _remove_book (book_id : string) (L : Library)
  : list notice * Library :=
  let removed := remove_book book_id L in
  ([say (if removed.1 then ui_success "Removed."
         else ui_error "Book not found.")], removed.2).

(** [Application._update_book], from the id that its prompt returned and
    the three lines that are typed after it (they are not read when the
    book is unknown). *)
Definition _update_book (book_id title_line author_line genre_line : string)
    (L : Library) : (list notice * result unit) * Library :=
  if negb (bool_decide (is_Some (books L !! book_id))) then
    (([say (ui_error "Book not found.")], Ok tt), L)
  else
    let new_title := strip title_line in
    let new_author := strip author_line in
    let new_genre := lower (strip genre_line) in
    let updates :=
      (if str_is_empty new_title then [] else [kw_title new_title])
      ++ (if str_is_empty new_author then [] else [kw_author new_author])
      ++ (if str_is_empty new_genre then [] else [kw_genre new_genre]) in
    let first := say_print "Leave a field blank to skip updating it." in
    match update_book book_id updates L with
    | (Raise e, L1) => (([first], Raise e), L1)
    | (Ok true, L1) => (([first; say (ui_success "Updated.")], Ok tt), L1)
    | (Ok false, L1) => (([first; say (ui_error "Update failed.")], Ok tt), L1)
    end.

(** [Application._add_user], from what its two prompts returned and the
    line of interests that is typed after them. *)
Definition _add_user (user_id name interests_line : string) (L : Library)
  : list notice * Library :=
  let interests_raw := strip interests_line in
  let given := normalized (list_to_set (split_on comma interests_raw)) in
  match User_init user_id name given ∅ [] with
  | Ok user => ([say (ui_success "User added.")], add_user user L)
  | Raise e => ([say_failed "Failed to add user: " e], L)
  end.

(** * Vocabulary of the specification *)

(** ** Sequences of calls *)

(** The public operations of [Library] that change its state. *)
Inductive op : Type :=
| OpAddBook (book : Book)
| OpRemoveBook (book_id : string)
| OpUpdateBook (book_id : string) (updates : list kwarg)
| OpAddUser (user : User)
| OpBorrow (user_id book_id : string)
| OpReturn (user_id book_id : string)
| OpEnqueue (user_id book_id : string)
| OpProcessNext.

(** The library as a call leaves it, whether the call returns or raises. *)
Definition apply_op (o : op) (L : Library) : Library :=
  match o with
  | OpAddBook book => add_book book L
  | OpRemoveBook book_id => (remove_book book_id L).2
  | OpUpdateBook book_id updates => (update_book book_id updates L).2
  | OpAddUser user => add_user user L
  | OpBorrow user_id book_id => (borrow_book user_id book_id L).2
  | OpReturn user_id book_id => (return_book user_id book_id L).2
  | OpEnqueue user_id book_id => enqueue_borrow_request user_id book_id L
  | OpProcessNext => (process_next_borrow L).2
  end.

Definition run_ops (ops : list op) (L : Library) : Library :=
  foldl (λ L o, apply_op o L) L ops.

Definition is_borrow_or_return (o : op) : bool :=
  match o with
  | OpBorrow _ _ | OpReturn _ _ => true
  | _ => false
  end.

(** ** update_book *)




(** The keys of the two copy counters. *)
Definition assigns_copies (kw : kwarg) : bool :=
  match kw with
  | kw_total_copies _ | kw__available_copies _ => true
  | _ => false
  end.

(** ** Borrowed sets and copy counters *)

(** The number of users that have [book_id] in their borrowed set. *)
Definition holders (book_id : string) (us : gmap string User) : nat :=
  size (filter (λ kv, book_id ∈ borrowed_books kv.2) us).

Definition held_by_someone (book_id : string) (L : Library) : Prop :=
  ∃ uid user, users L !! uid = Some user ∧ book_id ∈ borrowed_books user.

(** Calls that keep the borrowed sets and the copy counters in step: a
    registered book satisfies the invariant of [Book], as every constructed
    [Book] does; a registered user has borrowed nothing yet, as a [User]
    constructed with the default has; [update_book] does not assign the copy
    counters; and [remove_book] does not remove a book that is in some
    user's borrowed set. *)
Definition consistent_op (L : Library) (o : op) : Prop :=
  match o with
  | OpAddBook book => copies_ok book
  | OpRemoveBook book_id => ¬ held_by_someone book_id L
  | OpUpdateBook _ updates =>
      forallb (λ kw, negb (assigns_copies kw)) updates = true
  | OpAddUser user => borrowed_books user = ∅
  | _ => True
  end.

Inductive consistently_reachable : Library → Prop :=
| reach_init : consistently_reachable Library_init
| reach_step (L : Library) (o : op) :
    consistently_reachable L → consistent_op L o →
    consistently_reachable (apply_op o L).

(** Every user's borrowed books are registered, and no book has more
    holders than copies that are out. *)
Record lending_inv (L : Library) : Prop := mk_lending_inv {
  inv_known : ∀ uid user bid,
    users L !! uid = Some user → bid ∈ borrowed_books user →
    is_Some (books L !! bid);
  inv_lent : ∀ bid book,
    books L !! bid = Some book →
    Z.of_nat (holders bid (users L))
    <= total_copies book - _available_copies book
}.

(** ** The waitlist *)

(** The chain of nodes from [head] holds [items], oldest first, and ends
    at the node [tail]. *)
Inductive chain {T : Type} (nodes : list (Node T))
  : option nat → list T → option nat → Prop :=
| chain_empty : chain nodes None [] None
| chain_last (a : nat) (v : T) :
    nodes !! a = Some (mkNode v None) →
    chain nodes (Some a) [v] (Some a)
| chain_cons (a : nat) (v : T) (b : nat) (items : list T) (tail : option nat) :
    nodes !! a = Some (mkNode v (Some b)) →
    chain nodes (Some b) items tail →
    chain nodes (Some a) (v :: items) tail.

(** The queue holds [items]: they are the chain from [_head] to [_tail],
    and [_size] counts them. *)
Definition queue_repr {T : Type} (q : LinkedListQueue T) (items : list T)
  : Prop :=
  chain (q_nodes q) (_head q) items (_tail q)
  ∧ _size q = Z.of_nat (length items).

(** A sequence of [enqueue_borrow_request] calls. *)
Definition enqueue_all (requests : list (string * string)) (L : Library)
  : Library :=
  foldl (λ L r, enqueue_borrow_request r.1 r.2 L) L requests.

(** [n] calls of [process_next_borrow] in a row.  The log has, for each
    call, the request that was the oldest of the queue when the call was
    made (if there was one) and what the call returned. *)
Fixpoint process_calls (n : nat) (L : Library)
  : list (option (string * string) * result bool) * Library :=
  match n with
  | O => ([], L)
  | S n' =>
      let front :=
        match peek (borrow_requests L) with
        | Ok request => Some request
        | Raise _ => None
        end in
      let call := process_next_borrow L in
      let later := process_calls n' call.2 in
      ((front, call.1) :: later.1, later.2)
  end.

(** One [borrow_book] call for each request of a list, in the order of the
    list. *)
Fixpoint borrow_each (requests : list (string * string)) (L : Library)
  : list (result bool) * Library :=
  match requests with
  | [] => ([], L)
  | r :: rest =>
      let call := borrow_book r.1 r.2 L in
      let later := borrow_each rest call.2 in
      (call.1 :: later.1, later.2)
  end.

(** ** Paths and traversals *)

(** [m] is a neighbour of [n]. *)
Definition edge (g : Graph) (n m : string) : Prop := m ∈ neighbors n g.

(** There is a path of [k] hops from [start] to [n]. *)
Definition hops (g : Graph) (start n : string) (k : nat) : Prop :=
  nsteps (edge g) k start n.

(** [d] is the least number of hops from [start] to [n]. *)
Definition distance (g : Graph) (start n : string) (d : Z) : Prop :=
  ∃ k, d = Z.of_nat k ∧ hops g start n k
       ∧ ∀ k', hops g start n k' → (k <= k')%nat.

(** Every neighbour is a node: what [add_node] and [add_edge] maintain. *)
Definition graph_closed (g : Graph) : Prop :=
  ∀ n adj m, g !! n = Some adj → m ∈ adj → is_Some (g !! m).

(** The depths of a traversal do not decrease along it. *)
Definition depths_sorted (order : list (string * Z)) : Prop :=
  ∀ j1 j2 e1 e2,
    (j1 <= j2)%nat → order !! j1 = Some e1 → order !! j2 = Some e2 →
    e1.2 <= e2.2.

(** The state of the loop of [bfs] before a turn: [order] is the part of
    the work list that was taken, the nodes of the work list are the
    visited ones, each with a path of its depth, the depths do not
    decrease and lie at most one level below the node that is next, and
    the neighbours of the nodes that were expanded are all in the work
    list. *)
Record bfs_inv (g : Graph) (start : string) (max_depth : Z)
    (visited : gset string) (queue order : list (string * Z)) (i : nat)
  : Prop := mk_bfs_inv {
  inv_order : order = take i queue;
  inv_index : (i <= length queue)%nat;
  inv_visited : visited = list_to_set queue.*1;
  inv_nodup : NoDup queue.*1;
  inv_start : queue !! 0%nat = Some (start, 0);
  inv_path : ∀ n d, (n, d) ∈ queue →
    0 <= d <= max_depth ∧ hops g start n (Z.to_nat d) ∧ is_Some (g !! n);
  inv_sorted : depths_sorted queue;
  inv_frontier : ∀ e e', queue !! i = Some e → e' ∈ queue → e'.2 <= e.2 + 1;
  inv_expanded : ∀ j n d m,
    (j < i)%nat → queue !! j = Some (n, d) → d < max_depth → edge g n m →
    ∃ d', (m, d') ∈ queue ∧ d' <= d + 1
}.

(** ** Libraries and graphs of the examples *)

(** The fixture of [tests/test_core.py]. *)
Definition test_b1 : Book := mkBook "b1" "A" "Auth" "tech" 1 1 0.
Definition test_b2 : Book := mkBook "b2" "B" "Auth" "fiction" 1 1 0.
Definition test_u1 : User := mkUser "u1" "User1" {["tech"]} ∅ [].
Definition test_u2 : User := mkUser "u2" "User2" {["fiction"]} ∅ [].

Definition test_lib : Library :=
  add_user test_u2
    (add_user test_u1 (add_book test_b2 (add_book test_b1 Library_init))).

(** A library whose book [b1] was registered with two copies and then had
    its [total_copies] lowered to one by [update_book]. *)
Definition two_copies : Book := mkBook "b1" "A" "Auth" "tech" 2 2 0.

Definition lowered_total_lib : Library :=
  run_ops [OpAddBook two_copies; OpAddUser test_u1;
           OpUpdateBook "b1" [kw_total_copies 1]] Library_init.

(** The same with three copies, before and after the total is lowered. *)
Definition three_copies : Book := mkBook "b1" "A" "Auth" "tech" 3 3 0.

Definition three_copies_lib : Library :=
  run_ops [OpAddBook three_copies; OpAddUser test_u1] Library_init.

Definition three_then_one_lib : Library :=
  run_ops [OpAddBook three_copies; OpAddUser test_u1;
           OpUpdateBook "b1" [kw_total_copies 1]] Library_init.

(** A library in which [u1] holds the only copy of [b1]. *)
Definition borrowed_lib : Library :=
  apply_op (OpBorrow "u1" "b1")
    (apply_op (OpAddUser test_u1) (apply_op (OpAddBook test_b1) Library_init)).

(** A user constructed with a borrowed set that is not empty. *)
Definition test_u3 : User := mkUser "u3" "User3" ∅ {["b1"]} [].

(** A graph built as [Library] builds it: [u1] borrowed [b1], [u2]
    borrowed [b1] and [b2], [u3] borrowed [b2], nobody borrowed [b3]. *)
Definition example_graph : Graph :=
  add_edge "user:u1" "book:b1"
    (add_edge "user:u2" "book:b1"
       (add_edge "user:u2" "book:b2"
          (add_edge "user:u3" "book:b2" (add_node "book:b3" empty_graph)))).

(** An order of iteration of the values of [books]: the one of
    [map_to_list]. *)
Definition values_order (bs : gmap string Book) : list Book :=
  (map_to_list bs).*2.

(** A library with two candidates for [u1]: [b1] matches the interest
    [tech], [b2] was borrowed three times. *)
Definition popular_b2 : Book := mkBook "b2" "B" "Auth" "fiction" 1 1 3.

Definition reco_lib : Library :=
  run_ops [OpAddBook test_b1; OpAddBook popular_b2; OpAddUser test_u1]
    Library_init.

(** ** Vocabulary of the further properties *)

(** *** Text in ASCII *)

(** [lower] and [strip] are [str.lower] and [str.strip] on text in ASCII
    (every byte below 128); what is stated of a function that applies
    them is stated for such text. *)
Fixpoint is_ascii (s : string) : bool :=
  match s with
  | EmptyString => true
  | String c rest => (Ascii.nat_of_ascii c <? 128)%nat && is_ascii rest
  end.

Definition ascii_text (s : string) : Prop := is_ascii s = true.

(** The titles, authors and genres of the catalog are in ASCII. *)
Definition ascii_catalog (L : Library) : Prop :=
  map_Forall
    (λ _ b, ascii_text (title b) ∧ ascii_text (author b)
            ∧ ascii_text (genre b))
    (books L).

(** A criterion of [search_books] that is given is in ASCII. *)
Definition ascii_criterion (c : option string) : Prop :=
  ∀ t, c = Some t → ascii_text t.

(** Every text of a set is in ASCII. *)
Definition ascii_texts (s : gset string) : Prop :=
  ∀ x, x ∈ s → ascii_text x.

(** The interests of the users of a file are in ASCII. *)
Definition ascii_interests (data : Snapshot) : Prop :=
  Forall (λ entry, Forall ascii_text (ud_interests entry.2))
    (snap_users data).

(** *** Invariants of the catalog *)

(** Every registered book satisfies the invariant of [Book]. *)
Definition all_copies_ok (L : Library) : Prop :=
  ∀ bid book, books L !! bid = Some book → copies_ok book.

(** Every registered user has each borrowed book in the history. *)
Definition borrowed_in_history (u : User) : Prop :=
  ∀ bid, bid ∈ borrowed_books u → bid ∈ history u.

Definition all_borrowed_in_history (L : Library) : Prop :=
  ∀ uid user, users L !! uid = Some user → borrowed_in_history user.

(** Calls that cannot break the invariant of [Book]: [add_book] of a book
    that satisfies it, and [update_book] that leaves the two copy counters
    alone; every other call. *)
Definition keeps_copies (o : op) : Prop :=
  match o with
  | OpAddBook book => copies_ok book
  | OpUpdateBook _ updates =>
      forallb (λ kw, negb (assigns_copies kw)) updates = true
  | _ => True
  end.

(** Calls that register only users whose borrowed books are in their
    history. *)
Definition registers_consistent_users (o : op) : Prop :=
  match o with
  | OpAddUser user => borrowed_in_history user
  | _ => True
  end.

(** What a call may do to a registered user: the borrowed set may change
    and the history may grow at its end. *)
Definition user_grows (u u' : User) : Prop :=
  user_id u' = user_id u ∧ name u' = name u ∧ interests u' = interests u
  ∧ history u `prefix_of` history u'.


(** The sum of a list of counts. *)
Definition sum_Z (l : list Z) : Z := foldr Z.add 0 l.

(** *** Calls of the queue and of the graph *)

(** The methods of [LinkedListQueue] and what they answer. *)
Inductive queue_call (T : Type) : Type :=
| CallEnqueue (value : T)
| CallDequeue
| CallPeek
| CallLen
| CallBool.

Arguments CallEnqueue {T} value.
Arguments CallDequeue {T}.
Arguments CallPeek {T}.
Arguments CallLen {T}.
Arguments CallBool {T}.

Inductive queue_answer (T : Type) : Type :=
| AnswerNone
| AnswerValue (r : result T)
| AnswerInt (n : Z)
| AnswerBool (b : bool).

Arguments AnswerNone {T}.
Arguments AnswerValue {T} r.
Arguments AnswerInt {T} n.
Arguments AnswerBool {T} b.

Definition queue_step {T : Type} (c : queue_call T) (q : LinkedListQueue T)
  : queue_answer T * LinkedListQueue T :=
  match c with
  | CallEnqueue value => (AnswerNone, enqueue value q)
  | CallDequeue => (AnswerValue (dequeue q).1, (dequeue q).2)
  | CallPeek => (AnswerValue (peek q), q)
  | CallLen => (AnswerInt (queue_len q), q)
  | CallBool => (AnswerBool (queue_bool q), q)
  end.

Fixpoint queue_run {T : Type} (calls : list (queue_call T))
    (q : LinkedListQueue T) : list (queue_answer T) * LinkedListQueue T :=
  match calls with
  | [] => ([], q)
  | c :: rest =>
      let step := queue_step c q in
      let later := queue_run rest step.2 in
      (step.1 :: later.1, later.2)
  end.

(** The reference for the queue: the list of its values, oldest first. *)
Definition fifo_step {T : Type} (c : queue_call T) (items : list T)
  : queue_answer T * list T :=
  match c with
  | CallEnqueue value => (AnswerNone, items ++ [value])
  | CallDequeue =>
      match items with
      | [] => (AnswerValue (Raise IndexError), [])
      | value :: rest => (AnswerValue (Ok value), rest)
      end
  | CallPeek =>
      match items with
      | [] => (AnswerValue (Raise IndexError), [])
      | value :: _ => (AnswerValue (Ok value), items)
      end
  | CallLen => (AnswerInt (Z.of_nat (length items)), items)
  | CallBool =>
      (AnswerBool (match items with [] => false | _ :: _ => true end), items)
  end.

Fixpoint fifo_run {T : Type} (calls : list (queue_call T)) (items : list T)
  : list (queue_answer T) * list T :=
  match calls with
  | [] => ([], items)
  | c :: rest =>
      let step := fifo_step c items in
      let later := fifo_run rest step.2 in
      (step.1 :: later.1, later.2)
  end.

(** The references [next] lead from a node to a node created later. *)
Definition addresses_increase {T : Type} (nodes : list (Node T)) : Prop :=
  ∀ a n b, nodes !! a = Some n → node_next n = Some b → (a < b)%nat.

(** The methods of [Graph] that change it. *)
Inductive graph_call : Type :=
| CallAddNode (node : string)
| CallAddEdge (a b : string).

Definition graph_step (g : Graph) (c : graph_call) : Graph :=
  match c with
  | CallAddNode node => add_node node g
  | CallAddEdge a b => add_edge a b g
  end.

Definition graph_run (calls : list graph_call) (g : Graph) : Graph :=
  foldl graph_step g calls.

(** Users that are registered with an empty history. *)
Definition registers_new_users (o : op) : Prop :=
  match o with
  | OpAddUser user => history user = []
  | _ => True
  end.

(** The edges between users and books are the borrows on record. *)
Definition edges_are_history (L : Library) : Prop :=
  ∀ uid bid,
    (book_node bid ∈ neighbors (user_node uid) (user_book_graph L) ↔
       ∃ user, users L !! uid = Some user ∧ bid ∈ history user)
    ∧ (user_node uid ∈ neighbors (book_node bid) (user_book_graph L) ↔
       ∃ user, users L !! uid = Some user ∧ bid ∈ history user).

(** *** The waitlist at the menu *)

(** A library in which [u1] holds the only copy of [b1] and [u2] waits
    for it, and one in which the oldest request is for a book that is not
    in the catalog. *)
Definition waiting_lib : Library :=
  run_ops [OpAddBook test_b1; OpAddUser test_u1; OpAddUser test_u2;
           OpBorrow "u1" "b1"; OpEnqueue "u2" "b1"] Library_init.

Definition waiting_for_unknown_lib : Library :=
  run_ops [OpAddBook test_b1; OpAddUser test_u1; OpAddUser test_u2;
           OpBorrow "u1" "b1"; OpEnqueue "u2" "b9"; OpEnqueue "u2" "b1"]
    Library_init.

(** *** Sorted lists and substrings *)

(** [a] occurs in [b]. *)
Definition occurs_in (a b : string) : Prop :=
  ∃ before after, b = before +:+ a +:+ after.

(** *** Saving and loading *)

(** What a saved book and a saved user come back as, if they do. *)
Definition restored_book (bid : string) (b : Book) : option Book :=
  if decide (bid ≠ "" ∧ title b ≠ "" ∧ author b ≠ "" ∧ genre b ≠ ""
             ∧ 0 <= total_copies b)
  then Some (mkBook bid (title b) (author b) (genre b) (total_copies b)
               (if decide (0 <= _available_copies b <= total_copies b)
                then _available_copies b else total_copies b)
               (borrow_count b))
  else None.

Definition restored_user (uid : string) (u : User) : option User :=
  if decide (uid ≠ "" ∧ name u ≠ "")
  then Some (mkUser uid (name u) (normalized (interests u))
               (borrowed_books u) (history u))
  else None.

(** Books and users that are registered under their own identifier, with
    the fields that the constructors ask for. *)
Definition well_formed (L : Library) : Prop :=
  (∀ bid b, books L !! bid = Some b →
     item_id b = bid ∧ bid ≠ "" ∧ title b ≠ "" ∧ author b ≠ ""
     ∧ genre b ≠ "" ∧ copies_ok b)
  ∧ (∀ uid u, users L !! uid = Some u →
       user_id u = uid ∧ uid ≠ "" ∧ name u ≠ ""
       ∧ normalized (interests u) = interests u).

(** A file with a book, a book without a title, and a user whose history
    names the first book and one that is not in the file. *)
Definition example_file : Snapshot :=
  mkSnapshot 1
    [("b1", mkBookDict "b1" "A" "Auth" "tech" 1 5 2);
     ("b2", mkBookDict "b2" "" "Auth" "tech" 1 1 0)]
    [("u1", mkUserDict "u1" "User1" [" Tech "] ["b1"] ["b1"; "b9"])]
    [("u1", "b1")].

(** *** Prompts *)

(** The line is blank: nothing is left of it once stripped. *)
Definition blank (line : string) : Prop := strip line = "".

(** What [prompt_int] makes of a line: the integer that the line spells,
    if it spells one that is within the bounds that were given. *)
Definition within (min_value max_value : option Z) (value : Z) : bool :=
  match min_value with Some m => m <=? value | None => true end
  && match max_value with Some M => value <=? M | None => true end.

Definition accepted_int (int_of_str : string → option Z)
    (min_value max_value : option Z) (line : string) : option Z :=
  if str_is_empty (strip line) then None
  else
    match int_of_str (strip line) with
    | None => None
    | Some value => if within min_value max_value value then Some value
                    else None
    end.

(** The choice that a line names: the last of the choices that is the
    line, stripped, up to the case of letters. *)
Definition names_choice (choices : list string) (line choice : string)
  : Prop :=
  ∃ before after,
    choices = before ++ choice :: after
    ∧ lower choice = lower (strip line)
    ∧ Forall (λ c, lower c ≠ lower (strip line)) after.

Definition names_no_choice (choices : list string) (line : string) : Prop :=
  Forall (λ c, lower c ≠ lower (strip line)) choices.

(** What a prompt loop writes when it turns [n] times before the turn
    that returns: the prompt and a complaint at each turn, then the
    prompt. *)
Definition turns (n : nat) (prompt complaint : string) : list output :=
  concat (replicate n [out_input prompt; out_print complaint])
  ++ [out_input prompt].

(** *** The menu *)

(** The entries of the menu that change the library, each with what its
    prompts returned and the lines typed after them. *)
Inductive menu_action : Type :=
| MenuAddBook (book_id title author genre : string) (copies available : Z)
| MenuRemoveBook (book_id : string)
| MenuUpdateBook (book_id title_line author_line genre_line : string)
| MenuAddUser (user_id name interests_line : string)
| MenuBorrowBook (user_id book_id : string)
| MenuReturnBook (user_id book_id : string).

(** The library as an entry leaves it (also when it raises). *)
Definition menu_step (a : menu_action) (L : Library) : Library :=
  match a with
  | MenuAddBook book_id title author genre copies available =>
      (_add_book book_id title author genre copies available L).2
  | MenuRemoveBook book_id => (_remove_book book_id L).2
  | MenuUpdateBook book_id title_line author_line genre_line =>
      (_update_book book_id title_line author_line genre_line L).2
  | MenuAddUser user_id name interests_line =>
      (_add_user user_id name interests_line L).2
  | MenuBorrowBook user_id book_id => (_borrow_book user_id book_id L).2
  | MenuReturnBook user_id book_id => (_return_book user_id book_id L).2
  end.

Definition menu_run (actions : list menu_action) (L : Library) : Library :=
  foldl (λ L a, menu_step a L) L actions.

(** What the prompts of an entry guarantee: texts that are not empty, a
    total that is not negative and an available count from [0] to the
    total; and, of what is typed, that the texts which the entry strips
    or puts in lower case are in ASCII. *)
Definition prompted (a : menu_action) : Prop :=
  match a with
  | MenuAddBook book_id title author genre copies available =>
      book_id ≠ "" ∧ title ≠ "" ∧ author ≠ "" ∧ genre ≠ ""
      ∧ 0 <= copies ∧ 0 <= available <= copies
      ∧ ascii_text genre
  | MenuUpdateBook _ title_line author_line genre_line =>
      ascii_text title_line ∧ ascii_text author_line
      ∧ ascii_text genre_line
  | MenuAddUser user_id name interests_line =>
      user_id ≠ "" ∧ name ≠ "" ∧ ascii_text interests_line
  | _ => True
  end.

(** Calls of the library that keep it well formed. *)
Definition tidy_kwarg (kw : kwarg) : Prop :=
  match kw with
  | kw_title v | kw_author v | kw_genre v => v ≠ ""
  | _ => False
  end.

Definition tidy (o : op) : Prop :=
  match o with
  | OpAddBook book =>
      item_id book ≠ "" ∧ title book ≠ "" ∧ author book ≠ ""
      ∧ genre book ≠ "" ∧ copies_ok book
  | OpUpdateBook _ updates => Forall tidy_kwarg updates
  | OpAddUser user =>
      user_id user ≠ "" ∧ name user ≠ ""
      ∧ normalized (interests user) = interests user
      ∧ borrowed_books user = ∅ ∧ history user = []
  | _ => True
  end.

(** The new value of a field that the update entry reads: the old one
    for a line that is blank. *)
Definition updated_field (old typed : string) : string :=
  if str_is_empty typed then old else typed.

(** * Theorems *)

(** The paths through [borrow_book] and [return_book]: a goal that holds
    trivially on the paths that change nothing is left with the path that
    updates the library. *)
Ltac borrow_book_paths :=
  lazymatch goal with
  | |- context [borrow_book ?uid ?bid ?L] =>
      unfold borrow_book; simpl;
      destruct (users _ !! uid); [|done];
      destruct (books _ !! bid) as [?book|]; [|done];
      destruct (negb (can_borrow _)); [done|];
      destruct (borrow_one _); [|done]; simpl
  end.

Ltac return_book_paths :=
  lazymatch goal with
  | |- context [return_book ?uid ?bid ?L] =>
      unfold return_book; simpl;
      destruct (users _ !! uid); [|done];
      destruct (books _ !! bid) as [?book|]; [|done];
      destruct (negb (bool_decide _)); [done|];
      destruct (return_one _); [|done]; simpl
  end.

(** ** Books *)

Lemma Book_init_copies_ok i t a g total avail count b :
  Book_init i t a g total avail count = Ok b → copies_ok b.
Proof.
  unfold Book_init, copies_ok.
  destruct (_ || _ || _); [done|].
  destruct (Z.ltb_spec total 0); [done|].
  destruct (str_is_empty g); [done|].
  intros [= <-]; simpl.
  destruct (Z.ltb_spec avail 0); simpl; [lia|].
  destruct (Z.ltb_spec total avail); lia.
Qed.

Lemma borrow_one_ok b :
  can_borrow b = true →
  borrow_one b =
    Ok (mkBook (item_id b) (title b) (author b) (genre b) (total_copies b)
          (_available_copies b - 1) (borrow_count b + 1)).
Proof.
  unfold can_borrow, borrow_one. intros H%Z.ltb_lt.
  destruct (Z.leb_spec (_available_copies b) 0); [lia|done].
Qed.

Lemma return_one_ok b :
  _available_copies b < total_copies b →
  return_one b =
    Ok (mkBook (item_id b) (title b) (author b) (genre b) (total_copies b)
          (_available_copies b + 1) (borrow_count b)).
Proof.
  unfold return_one. intros H.
  destruct (Z.leb_spec (total_copies b) (_available_copies b)); [lia|done].
Qed.

Lemma return_one_raises b :
  total_copies b <= _available_copies b → return_one b = Raise ValueError.
Proof.
  unfold return_one. intros H.
  destruct (Z.leb_spec (total_copies b) (_available_copies b)); [done|lia].
Qed.

(** ** The interaction graph *)

Lemma user_node_ne_book_node uid bid : user_node uid ≠ book_node bid.
Proof. unfold user_node, book_node. simpl. discriminate. Qed.

Lemma add_node_lookup node g :
  add_node node g !! node = Some (neighbors node g).
Proof.
  unfold add_node, neighbors.
  destruct (g !! node) eqn:E; simpl; [done|]. by rewrite lookup_insert_eq.
Qed.

Lemma add_node_lookup_ne node n g :
  node ≠ n → add_node node g !! n = g !! n.
Proof.
  intros Hne. unfold add_node.
  destruct (g !! node); [done|]. by rewrite lookup_insert_ne.
Qed.

Lemma add_edge_lookup_l a b g :
  a ≠ b → add_edge a b g !! a = Some ({[b]} ∪ neighbors a g).
Proof.
  intros Hne. unfold add_edge. rewrite decide_False by done. simpl.
  rewrite lookup_alter_ne by done. rewrite lookup_alter_eq.
  rewrite add_node_lookup_ne by done. by rewrite add_node_lookup.
Qed.

Lemma add_edge_lookup_r a b g :
  a ≠ b → add_edge a b g !! b = Some ({[a]} ∪ neighbors b g).
Proof.
  intros Hne. unfold add_edge. rewrite decide_False by done. simpl.
  rewrite lookup_alter_eq. rewrite lookup_alter_ne by done.
  rewrite add_node_lookup. unfold neighbors at 1.
  by rewrite add_node_lookup_ne by done.
Qed.

Lemma add_edge_lookup_ne a b n g :
  n ≠ a → n ≠ b → add_edge a b g !! n = g !! n.
Proof.
  intros Ha Hb. unfold add_edge. case_decide; [done|]. simpl.
  rewrite !lookup_alter_ne by done.
  by rewrite !add_node_lookup_ne by done.
Qed.

(** ** Borrowing *)

Lemma borrow_book_true_iff uid bid L :
  (borrow_book uid bid L).1 = Ok true ↔
  ∃ user book, users L !! uid = Some user ∧ books L !! bid = Some book
               ∧ 0 < _available_copies book.
Proof.
  unfold borrow_book.
  destruct (users L !! uid) as [user|] eqn:Hu;
    [|split; [done|by intros (?&?&?&?)]].
  destruct (books L !! bid) as [book|] eqn:Hb;
    [|split; [done|by intros (?&?&?&?&?)]].
  destruct (can_borrow book) eqn:Hc; simpl.
  - rewrite borrow_one_ok by done. simpl. split; [|done].
    intros _. exists user, book. apply Z.ltb_lt in Hc. done.
  - split; [done|]. intros (?&?&[= <-]&[= <-]&Hlt).
    apply Z.ltb_ge in Hc. lia.
Qed.

Lemma borrow_book_returns uid bid L :
  ∃ ok, (borrow_book uid bid L).1 = Ok ok.
Proof.
  unfold borrow_book.
  destruct (users L !! uid); [|by eexists].
  destruct (books L !! bid) as [book|]; [|by eexists].
  destruct (can_borrow book) eqn:Hc; simpl; [|by eexists].
  rewrite borrow_one_ok by done. by eexists.
Qed.

Lemma borrow_book_false_unchanged uid bid L :
  (borrow_book uid bid L).1 = Ok false → (borrow_book uid bid L).2 = L.
Proof.
  unfold borrow_book.
  destruct (users L !! uid); [|done].
  destruct (books L !! bid) as [book|]; [|done].
  destruct (can_borrow book) eqn:Hc; simpl; [|done].
  by rewrite borrow_one_ok by done.
Qed.

Lemma borrow_book_success uid bid L user book :
  users L !! uid = Some user → books L !! bid = Some book →
  0 < _available_copies book →
  borrow_book uid bid L =
    (Ok true,
     mkLibrary
       (<[bid := mkBook (item_id book) (title book) (author book) (genre book)
                   (total_copies book) (_available_copies book - 1)
                   (borrow_count book + 1)]> (books L))
       (<[uid := mkUser (user_id user) (name user) (interests user)
                   ({[bid]} ∪ borrowed_books user) (history user ++ [bid])]>
          (users L))
       (borrow_requests L)
       (add_edge (user_node uid) (book_node bid) (user_book_graph L))).
Proof.
  intros Hu Hb Hlt. unfold borrow_book. rewrite Hu, Hb.
  assert (can_borrow book = true) as Hc by by apply Z.ltb_lt.
  rewrite Hc. simpl. by rewrite borrow_one_ok by done.
Qed.

(** C1.  [borrow_book] returns [False] and leaves the whole library as it
    was when the user or the book is unknown or the book has no available
    copy.  It never raises.  When it returns [True], the user and the book
    were known; the book has one available copy less and one borrow more,
    and no other book changed; the user has the book in the borrowed set
    and at the end of the history, and no other user changed; the queue is
    unchanged; and the graph has the edge between [user:user_id] and
    [book:book_id], every other node keeping its neighbours. *)
Theorem borrow_book_spec (uid bid : string) (L : Library) :
  ((users L !! uid = None ∨ books L !! bid = None
    ∨ ∃ book, books L !! bid = Some book ∧ _available_copies book = 0) →
   borrow_book uid bid L = (Ok false, L))
  ∧ (∃ ok L', borrow_book uid bid L = (Ok ok, L'))
  ∧ (∀ L', borrow_book uid bid L = (Ok true, L') →
     ∃ user book,
       users L !! uid = Some user ∧ books L !! bid = Some book
       ∧ books L' =
           <[bid := mkBook (item_id book) (title book) (author book)
                      (genre book) (total_copies book)
                      (_available_copies book - 1) (borrow_count book + 1)]>
             (books L)
       ∧ users L' =
           <[uid := mkUser (user_id user) (name user) (interests user)
                      ({[bid]} ∪ borrowed_books user)
                      (history user ++ [bid])]> (users L)
       ∧ borrow_requests L' = borrow_requests L
       ∧ user_book_graph L' !! user_node uid =
           Some ({[book_node bid]}
                 ∪ neighbors (user_node uid) (user_book_graph L))
       ∧ user_book_graph L' !! book_node bid =
           Some ({[user_node uid]}
                 ∪ neighbors (book_node bid) (user_book_graph L))
       ∧ ∀ n, n ≠ user_node uid → n ≠ book_node bid →
              user_book_graph L' !! n = user_book_graph L !! n).
Proof.
  split; [|split].
  - intros H. unfold borrow_book.
    destruct (users L !! uid) as [user|] eqn:Hu; [|done].
    destruct (books L !! bid) as [book|] eqn:Hb; [|done].
    destruct H as [H|[H|(book'&[= <-]&H0)]]; [done..|].
    unfold can_borrow. by rewrite H0.
  - destruct (borrow_book_returns uid bid L) as [ok Hok].
    exists ok, (borrow_book uid bid L).2.
    destruct (borrow_book uid bid L); simpl in *; by subst.
  - intros L' HL'.
    destruct (proj1 (borrow_book_true_iff uid bid L)) as (user&book&Hu&Hb&Hlt);
      [by rewrite HL'|].
    exists user, book. split; [done|]. split; [done|].
    rewrite (borrow_book_success _ _ _ _ _ Hu Hb Hlt) in HL'.
    injection HL' as <-. simpl.
    pose proof (user_node_ne_book_node uid bid) as Hne.
    split; [done|]. split; [done|]. split; [done|].
    split; [by apply add_edge_lookup_l|].
    split; [by apply add_edge_lookup_r|].
    intros n Hn1 Hn2. by apply add_edge_lookup_ne.
Qed.

(** A run of C1 on the test fixture: [u1] borrows the only copy of [b1],
    after which [u2] is refused. *)
Lemma borrow_book_spec_witness :
  (borrow_book "u1" "b1" test_lib).1 = Ok true
  ∧ (borrow_book "u2" "b1" (borrow_book "u1" "b1" test_lib).2).1 = Ok false
  ∧ ∃ user book,
      users test_lib !! "u1" = Some user ∧ books test_lib !! "b1" = Some book
      ∧ books (borrow_book "u1" "b1" test_lib).2 !! "b1" =
          Some (mkBook "b1" "A" "Auth" "tech" 1 0 1).
Proof.
  split; [by vm_compute|]. split; [by vm_compute|].
  destruct (borrow_book_spec "u1" "b1" test_lib) as (_&_&H).
  destruct (H (borrow_book "u1" "b1" test_lib).2) as (user&book&Hu&Hb&Hbs&_).
  { by vm_compute. }
  exists user, book. split; [done|]. split; [done|].
  rewrite Hbs, lookup_insert_eq.
  vm_compute in Hb. injection Hb as <-. done.
Defined.

(** ** Returning *)

Lemma return_book_success uid bid L user book :
  users L !! uid = Some user → books L !! bid = Some book →
  bid ∈ borrowed_books user → _available_copies book < total_copies book →
  return_book uid bid L =
    (Ok true,
     mkLibrary
       (<[bid := mkBook (item_id book) (title book) (author book) (genre book)
                   (total_copies book) (_available_copies book + 1)
                   (borrow_count book)]> (books L))
       (<[uid := mkUser (user_id user) (name user) (interests user)
                   (borrowed_books user ∖ {[bid]}) (history user)]> (users L))
       (borrow_requests L)
       (user_book_graph L)).
Proof.
  intros Hu Hb Hin Hlt. unfold return_book. rewrite Hu, Hb.
  rewrite bool_decide_eq_true_2 by done. simpl.
  by rewrite return_one_ok by done.
Qed.

Lemma return_book_over_return uid bid L user book :
  users L !! uid = Some user → books L !! bid = Some book →
  bid ∈ borrowed_books user → total_copies book <= _available_copies book →
  return_book uid bid L = (Raise ValueError, L).
Proof.
  intros Hu Hb Hin Hle. unfold return_book. rewrite Hu, Hb.
  rewrite bool_decide_eq_true_2 by done. simpl.
  by rewrite return_one_raises by done.
Qed.

Lemma return_book_state uid bid L :
  (return_book uid bid L).1 ≠ Ok true → (return_book uid bid L).2 = L.
Proof.
  unfold return_book.
  destruct (users L !! uid) as [user|]; [|done].
  destruct (books L !! bid) as [book|]; [|done].
  destruct (bool_decide _); simpl; [|done].
  by destruct (return_one book).
Qed.

(** C4.  [return_book] returns [False] exactly when the user or the book
    is unknown or the book is not in the user's borrowed set; a call that
    returns [False] leaves the library (book counts, borrowed sets,
    histories, queue and graph) as it was. *)
Theorem return_book_fails_iff (uid bid : string) (L : Library) :
  ((return_book uid bid L).1 = Ok false ↔
     (users L !! uid = None ∨ books L !! bid = None
      ∨ ∃ user, users L !! uid = Some user ∧ bid ∉ borrowed_books user))
  ∧ ((return_book uid bid L).1 = Ok false → (return_book uid bid L).2 = L).
Proof.
  split.
  - unfold return_book.
    destruct (users L !! uid) as [user|] eqn:Hu; [|by split; [left|]].
    destruct (books L !! bid) as [book|] eqn:Hb; [|by split; [right; left|]].
    destruct (decide (bid ∈ borrowed_books user)) as [Hin|Hnin].
    + rewrite bool_decide_eq_true_2 by done. simpl.
      split.
      * by destruct (return_one book).
      * intros [?|[?|(user'&[= <-]&?)]]; done.
    + rewrite bool_decide_eq_false_2 by done. simpl.
      split; [|done]. intros _. right; right. by exists user.
  - intros H. apply return_book_state. by rewrite H.
Qed.

(** C4 on the test fixture: [u1] returns [b1] without having borrowed it,
    and returns it a second time after one borrow and one return. *)
Lemma return_book_fails_iff_witness :
  return_book "u1" "b1" test_lib = (Ok false, test_lib)
  ∧ (return_book "u1" "b1"
       (return_book "u1" "b1" (borrow_book "u1" "b1" test_lib).2).2).1
    = Ok false.
Proof.
  split.
  - destruct (return_book_fails_iff "u1" "b1" test_lib) as [H1 H2].
    assert ((return_book "u1" "b1" test_lib).1 = Ok false) as H.
    { apply H1. right; right. exists test_u1. split; [by vm_compute|].
      by vm_compute. }
    specialize (H2 H). destruct (return_book "u1" "b1" test_lib); simpl in *.
    by subst.
  - by vm_compute.
Defined.

(** ** The copy-count invariant along borrow/return sequences *)

Lemma borrow_book_copies_ok uid bid L id b :
  books L !! id = Some b → copies_ok b →
  ∃ b', books (borrow_book uid bid L).2 !! id = Some b'
        ∧ copies_ok b' ∧ total_copies b' = total_copies b.
Proof.
  intros Hid Hok.
  destruct (borrow_book_returns uid bid L) as [[] Hr].
  - apply borrow_book_true_iff in Hr as (user&book&Hu&Hb&Hlt).
    rewrite (borrow_book_success _ _ _ _ _ Hu Hb Hlt). simpl.
    destruct (decide (bid = id)) as [->|Hne].
    + rewrite lookup_insert_eq. eexists; split; [done|].
      assert (book = b) as -> by congruence.
      unfold copies_ok in *; simpl. lia.
    + rewrite lookup_insert_ne by done. by exists b.
  - rewrite borrow_book_false_unchanged by done. by exists b.
Qed.

Lemma return_book_copies_ok uid bid L id b :
  books L !! id = Some b → copies_ok b →
  ∃ b', books (return_book uid bid L).2 !! id = Some b'
        ∧ copies_ok b' ∧ total_copies b' = total_copies b.
Proof.
  intros Hid Hok. unfold return_book.
  destruct (users L !! uid) as [user|] eqn:Hu; [|by exists b].
  destruct (books L !! bid) as [book|] eqn:Hb; [|by exists b].
  destruct (bool_decide _); simpl; [|by exists b].
  destruct (Z.le_gt_cases (total_copies book) (_available_copies book)).
  - rewrite return_one_raises by done. by exists b.
  - rewrite return_one_ok by lia. simpl.
    destruct (decide (bid = id)) as [->|Hne].
    + rewrite lookup_insert_eq. eexists; split; [done|].
      assert (book = b) as -> by congruence.
      unfold copies_ok in *; simpl. lia.
    + rewrite lookup_insert_ne by done. by exists b.
Qed.

(** C3.  Take any library, a book of it that satisfies
    [0 <= available_copies <= total_copies], and any sequence of
    [borrow_book] and [return_book] calls (with any arguments, succeeding,
    refused or raising).  After the sequence the book is still in the
    library, with the same [total_copies], and still satisfies the
    invariant. *)
Theorem borrow_return_sequence_copies_ok
    (ops : list op) (L : Library) (id : string) (b : Book) :
  forallb is_borrow_or_return ops = true →
  books L !! id = Some b →
  copies_ok b →
  ∃ b', books (run_ops ops L) !! id = Some b'
        ∧ 0 <= _available_copies b' <= total_copies b'
        ∧ total_copies b' = total_copies b.
Proof.
  revert L b. induction ops as [|o ops IH]; intros L b Hops Hid Hok.
  - by exists b.
  - simpl in Hops. apply andb_prop in Hops as [Ho Hops].
    assert (∃ b1, books (apply_op o L) !! id = Some b1
                  ∧ copies_ok b1 ∧ total_copies b1 = total_copies b)
      as (b1&Hid1&Hok1&Ht1).
    { destruct o; try discriminate Ho; simpl.
      - by apply borrow_book_copies_ok.
      - by apply return_book_copies_ok. }
    destruct (IH (apply_op o L) b1 Hops Hid1 Hok1) as (b'&Hid'&Hok'&Ht').
    exists b'. split; [done|]. split; [done|]. congruence.
Qed.

(** C3 on the test fixture: [u1] borrows [b1], [u2] is refused, [u1]
    returns it and tries to return it again. *)
Lemma borrow_return_sequence_copies_ok_witness :
  ∃ b', books (run_ops [OpBorrow "u1" "b1"; OpBorrow "u2" "b1";
                        OpReturn "u1" "b1"; OpReturn "u1" "b1"] test_lib)
          !! "b1" = Some b'
        ∧ 0 <= _available_copies b' <= total_copies b'
        ∧ total_copies b' = total_copies test_b1.
Proof.
  apply (borrow_return_sequence_copies_ok
           [OpBorrow "u1" "b1"; OpBorrow "u2" "b1";
            OpReturn "u1" "b1"; OpReturn "u1" "b1"] test_lib "b1" test_b1).
  - reflexivity.
  - by vm_compute.
  - unfold copies_ok. simpl. lia.
Defined.

(** ** Borrow followed by return *)

(** C5, as amended.  In a state where the book's [available_copies] does
    not exceed its [total_copies] and [borrow_book(u, b)] succeeds, the
    [return_book(u, b)] that follows returns [True], the book's
    [available_copies] is back at its value before the borrow, [b] is no
    longer in [u]'s borrowed set, and [u]'s history is the one before the
    borrow with [b] appended. *)
Theorem borrow_then_return (uid bid : string) (L : Library)
    (user : User) (book : Book) :
  users L !! uid = Some user →
  books L !! bid = Some book →
  (borrow_book uid bid L).1 = Ok true →
  _available_copies book <= total_copies book →
  let L1 := (borrow_book uid bid L).2 in
  let L2 := (return_book uid bid L1).2 in
  (return_book uid bid L1).1 = Ok true
  ∧ ∃ user2 book2,
      users L2 !! uid = Some user2 ∧ books L2 !! bid = Some book2
      ∧ _available_copies book2 = _available_copies book
      ∧ (bid ∉ borrowed_books user2)
      ∧ history user2 = history user ++ [bid].
Proof.
  intros Hu Hb Hok Hle L1 L2.
  apply borrow_book_true_iff in Hok as (user'&book'&Hu'&Hb'&Hlt).
  assert (user' = user) as -> by congruence.
  assert (book' = book) as -> by congruence.
  subst L2 L1. rewrite (borrow_book_success _ _ _ _ _ Hu Hb Hlt). simpl.
  erewrite return_book_success;
    [|simpl; apply lookup_insert_eq|simpl; apply lookup_insert_eq
     |simpl; set_solver|simpl; lia].
  simpl. split; [done|]. rewrite !lookup_insert_eq.
  eexists _, _. split; [done|]. split; [done|]. simpl.
  split; [lia|]. split; [set_solver|done].
Qed.

Lemma borrow_then_return_witness :
  (return_book "u1" "b1" (borrow_book "u1" "b1" test_lib).2).1 = Ok true
  ∧ ∃ user2 book2,
      users (return_book "u1" "b1" (borrow_book "u1" "b1" test_lib).2).2
        !! "u1" = Some user2
      ∧ books (return_book "u1" "b1" (borrow_book "u1" "b1" test_lib).2).2
          !! "b1" = Some book2
      ∧ _available_copies book2 = _available_copies test_b1
      ∧ ("b1" ∉ borrowed_books user2)
      ∧ history user2 = history test_u1 ++ ["b1"].
Proof.
  apply (borrow_then_return "u1" "b1" test_lib test_u1 test_b1).
  - by vm_compute.
  - by vm_compute.
  - by vm_compute.
  - simpl. lia.
Defined.

(** C5 as stated fails: in [lowered_total_lib] the borrow succeeds and the
    return that follows raises [ValueError]. *)
Lemma borrow_then_return_counterexample :
  Book_init "b1" "A" "Auth" "tech" 2 2 0 = Ok two_copies
  ∧ (borrow_book "u1" "b1" lowered_total_lib).1 = Ok true
  ∧ (return_book "u1" "b1" (borrow_book "u1" "b1" lowered_total_lib).2).1
    = Raise ValueError.
Proof. by vm_compute. Qed.

(** ** Two borrows of one book by one user *)

(** C10, as amended.  Let the book have at least two available copies and
    no more available copies than [total_copies].  Two [borrow_book] calls
    by the same user for it both succeed; after them the user's borrowed
    set is the former one with the id added (once: the set grows by one
    element when the id was not in it) and the history has the id appended
    twice.  The next [return_book] succeeds and the one after it returns
    [False] and changes nothing, so that [available_copies] stays one
    below its value before the two borrows. *)
Theorem double_borrow_leaks_a_copy (uid bid : string) (L : Library)
    (user : User) (book : Book) :
  users L !! uid = Some user →
  books L !! bid = Some book →
  2 <= _available_copies book →
  _available_copies book <= total_copies book →
  let L1 := (borrow_book uid bid L).2 in
  let L2 := (borrow_book uid bid L1).2 in
  let L3 := (return_book uid bid L2).2 in
  (borrow_book uid bid L).1 = Ok true
  ∧ (borrow_book uid bid L1).1 = Ok true
  ∧ (∃ user2,
       users L2 !! uid = Some user2
       ∧ borrowed_books user2 = {[bid]} ∪ borrowed_books user
       ∧ (bid ∉ borrowed_books user →
          size (borrowed_books user2) = S (size (borrowed_books user)))
       ∧ history user2 = history user ++ [bid; bid])
  ∧ (return_book uid bid L2).1 = Ok true
  ∧ return_book uid bid L3 = (Ok false, L3)
  ∧ ∃ book3,
      books L3 !! bid = Some book3
      ∧ _available_copies book3 = _available_copies book - 1.
Proof.
  intros Hu Hb H2 Hle L1 L2 L3. subst L3 L2 L1.
  rewrite (borrow_book_success _ _ _ _ _ Hu Hb) by lia. simpl.
  erewrite borrow_book_success;
    [|simpl; apply lookup_insert_eq|simpl; apply lookup_insert_eq|simpl; lia].
  simpl. rewrite !insert_insert_eq.
  erewrite return_book_success;
    [|simpl; apply lookup_insert_eq|simpl; apply lookup_insert_eq
     |simpl; set_solver|simpl; lia].
  simpl. rewrite !insert_insert_eq.
  split; [done|]. split; [done|]. split.
  { eexists. rewrite lookup_insert_eq. split; [done|]. simpl.
    split; [set_solver|]. split.
    - intros Hnin.
      replace ({[bid]} ∪ ({[bid]} ∪ borrowed_books user))
        with ({[bid]} ∪ borrowed_books user) by set_solver.
      rewrite size_union by set_solver. by rewrite size_singleton.
    - by rewrite <- app_assoc. }
  split; [done|]. split.
  - unfold return_book. simpl. rewrite !lookup_insert_eq.
    rewrite bool_decide_eq_false_2; [done|]. simpl. set_solver.
  - eexists. rewrite lookup_insert_eq. split; [done|]. simpl. lia.
Qed.

Lemma double_borrow_leaks_a_copy_witness :
  let L := three_copies_lib in
  let L1 := (borrow_book "u1" "b1" L).2 in
  let L2 := (borrow_book "u1" "b1" L1).2 in
  let L3 := (return_book "u1" "b1" L2).2 in
  (borrow_book "u1" "b1" L).1 = Ok true
  ∧ (borrow_book "u1" "b1" L1).1 = Ok true
  ∧ (∃ user2,
       users L2 !! "u1" = Some user2
       ∧ borrowed_books user2 = {["b1"]} ∪ borrowed_books test_u1
       ∧ ("b1" ∉ borrowed_books test_u1 →
          size (borrowed_books user2) = S (size (borrowed_books test_u1)))
       ∧ history user2 = history test_u1 ++ ["b1"; "b1"])
  ∧ (return_book "u1" "b1" L2).1 = Ok true
  ∧ return_book "u1" "b1" L3 = (Ok false, L3)
  ∧ ∃ book3,
      books L3 !! "b1" = Some book3
      ∧ _available_copies book3 = _available_copies three_copies - 1.
Proof.
  apply (double_borrow_leaks_a_copy "u1" "b1" three_copies_lib
           test_u1 three_copies).
  - by vm_compute.
  - by vm_compute.
  - simpl. lia.
  - simpl. lia.
Defined.

(** C10 as stated fails: in [three_then_one_lib] the book has three
    available copies, both borrows succeed, and the first return raises
    [ValueError]. *)
Lemma double_borrow_counterexample :
  let L := three_then_one_lib in
  let L1 := (borrow_book "u1" "b1" L).2 in
  let L2 := (borrow_book "u1" "b1" L1).2 in
  Book_init "b1" "A" "Auth" "tech" 3 3 0 = Ok three_copies
  ∧ (∃ book, books L !! "b1" = Some book ∧ 2 <= _available_copies book)
  ∧ (borrow_book "u1" "b1" L).1 = Ok true
  ∧ (borrow_book "u1" "b1" L1).1 = Ok true
  ∧ (return_book "u1" "b1" L2).1 = Raise ValueError.
Proof.
  cbv zeta. split; [by vm_compute|]. split.
  - eexists. split; [by vm_compute|]. by vm_compute.
  - by vm_compute.
Qed.

(** ** update_book *)


Lemma apply_updates_copies updates book :
  forallb (λ kw, negb (assigns_copies kw)) updates = true →
  total_copies (apply_updates updates book).2 = total_copies book
  ∧ _available_copies (apply_updates updates book).2 = _available_copies book.
Proof.
  revert book. induction updates as [|kw updates IH]; intros book Hall.
  - done.
  - simpl in Hall. apply andb_prop in Hall as [Hkw Hall].
    destruct kw as [v|v|v|v|v|v|v|v|];
      try discriminate Hkw; simpl; try done.
    + apply (IH (set_item_id v book) Hall).
    + apply (IH (set_title v book) Hall).
    + apply (IH (set_author v book) Hall).
    + apply (IH (set_genre v book) Hall).
    + apply (IH (set_borrow_count v book) Hall).
    + apply (IH book Hall).
Qed.




(** ** Borrowed sets and copy counters stay in step *)

Lemma holders_insert bid uid user (us : gmap string User) :
  holders bid (<[uid := user]> us) =
    ((if decide (bid ∈ borrowed_books user) then 1 else 0)
     + holders bid (delete uid us))%nat.
Proof.
  unfold holders. rewrite <- insert_delete_eq, map_filter_insert. simpl.
  case_decide.
  - rewrite map_size_insert_None; [done|].
    apply map_lookup_filter_None_2. left. apply lookup_delete_eq.
  - by rewrite (delete_id (delete uid us)) by apply lookup_delete_eq.
Qed.

Lemma holders_lookup bid uid user (us : gmap string User) :
  us !! uid = Some user →
  holders bid us =
    ((if decide (bid ∈ borrowed_books user) then 1 else 0)
     + holders bid (delete uid us))%nat.
Proof.
  intros Hu. rewrite <- (insert_id us uid user) at 1 by done.
  apply holders_insert.
Qed.

Lemma holders_nobody bid (us : gmap string User) :
  (∀ uid user, us !! uid = Some user → bid ∉ borrowed_books user) →
  holders bid us = 0%nat.
Proof.
  intros Hnone. unfold holders. apply map_size_empty_iff.
  apply map_empty_filter. intros uid user Hu. simpl. by eapply Hnone.
Qed.

Lemma lending_inv_init : lending_inv Library_init.
Proof. split; simpl; intros *; by rewrite lookup_empty. Qed.

Lemma lending_inv_queue q L :
  lending_inv L → lending_inv (with_borrow_requests q L).
Proof. intros [H1 H2]. by split. Qed.

Lemma lending_inv_borrow uid bid L :
  lending_inv L → lending_inv (borrow_book uid bid L).2.
Proof.
  intros [Hknown Hlent].
  destruct (borrow_book_returns uid bid L) as [[] Hr];
    [|by rewrite borrow_book_false_unchanged].
  apply borrow_book_true_iff in Hr as (user&book&Hu&Hb&Hlt).
  rewrite (borrow_book_success _ _ _ _ _ Hu Hb Hlt).
  split; simpl.
  - intros uid' user' bid' Hu' Hin. apply lookup_insert_is_Some'. right.
    destruct (decide (uid = uid')) as [<-|Hne].
    + rewrite lookup_insert_eq in Hu'. injection Hu' as <-. simpl in Hin.
      apply elem_of_union in Hin as [->%elem_of_singleton|Hin]; [by eexists|].
      by eapply Hknown.
    + rewrite lookup_insert_ne in Hu' by done. by eapply Hknown.
  - intros bid' book' Hb'. rewrite holders_insert. simpl.
    pose proof (holders_lookup bid' uid user (users L) Hu) as Hh.
    destruct (decide (bid = bid')) as [<-|Hne].
    + rewrite lookup_insert_eq in Hb'. injection Hb' as <-. simpl.
      specialize (Hlent bid book Hb).
      rewrite decide_True by set_solver.
      destruct (decide (bid ∈ borrowed_books user)); lia.
    + rewrite lookup_insert_ne in Hb' by done.
      specialize (Hlent bid' book' Hb').
      destruct (decide (bid' ∈ borrowed_books user)).
      * rewrite decide_True by set_solver. lia.
      * rewrite decide_False by set_solver. lia.
Qed.

Lemma lending_inv_not_over_return L uid bid user book :
  lending_inv L →
  users L !! uid = Some user → books L !! bid = Some book →
  bid ∈ borrowed_books user →
  _available_copies book < total_copies book.
Proof.
  intros [_ Hlent] Hu Hb Hin. specialize (Hlent bid book Hb).
  rewrite (holders_lookup bid uid user (users L) Hu) in Hlent.
  rewrite decide_True in Hlent by done. lia.
Qed.

Lemma lending_inv_return uid bid L :
  lending_inv L → lending_inv (return_book uid bid L).2.
Proof.
  intros Hinv.
  destruct (users L !! uid) as [user|] eqn:Hu;
    [|by unfold return_book; rewrite Hu].
  destruct (books L !! bid) as [book|] eqn:Hb;
    [|by unfold return_book; rewrite Hu, Hb].
  destruct (decide (bid ∈ borrowed_books user)) as [Hin|Hnin];
    [|by unfold return_book; rewrite Hu, Hb, bool_decide_eq_false_2].
  pose proof (lending_inv_not_over_return _ _ _ _ _ Hinv Hu Hb Hin) as Hlt.
  rewrite (return_book_success _ _ _ _ _ Hu Hb Hin Hlt).
  destruct Hinv as [Hknown Hlent]. split; simpl.
  - intros uid' user' bid' Hu' Hin'. apply lookup_insert_is_Some'. right.
    destruct (decide (uid = uid')) as [<-|Hne].
    + rewrite lookup_insert_eq in Hu'. injection Hu' as <-. simpl in Hin'.
      apply elem_of_difference in Hin' as [Hin' _]. by eapply Hknown.
    + rewrite lookup_insert_ne in Hu' by done. by eapply Hknown.
  - intros bid' book' Hb'. rewrite holders_insert. simpl.
    pose proof (holders_lookup bid' uid user (users L) Hu) as Hh.
    destruct (decide (bid = bid')) as [<-|Hne].
    + rewrite lookup_insert_eq in Hb'. injection Hb' as <-. simpl.
      specialize (Hlent bid book Hb).
      rewrite decide_False by set_solver.
      rewrite decide_True in Hh by done. lia.
    + rewrite lookup_insert_ne in Hb' by done.
      specialize (Hlent bid' book' Hb').
      destruct (decide (bid' ∈ borrowed_books user)).
      * rewrite decide_True by set_solver. lia.
      * rewrite decide_False by set_solver. lia.
Qed.

Lemma lending_inv_add_book book L :
  copies_ok book → lending_inv L → lending_inv (add_book book L).
Proof.
  intros Hok [Hknown Hlent]. unfold add_book.
  destruct (books L !! item_id book) as [existing|] eqn:He.
  - split; simpl.
    + intros uid user bid Hu Hin. apply lookup_insert_is_Some'. right.
      by eapply Hknown.
    + intros bid b Hb. destruct (decide (item_id book = bid)) as [<-|Hne].
      * rewrite lookup_insert_eq in Hb. injection Hb as <-. simpl.
        specialize (Hlent _ _ He). unfold copies_ok in Hok. lia.
      * rewrite lookup_insert_ne in Hb by done. by apply Hlent.
  - split; simpl.
    + intros uid user bid Hu Hin. apply lookup_insert_is_Some'. right.
      by eapply Hknown.
    + intros bid b Hb. destruct (decide (item_id book = bid)) as [<-|Hne].
      * rewrite lookup_insert_eq in Hb. injection Hb as <-.
        rewrite holders_nobody; [unfold copies_ok in Hok; lia|].
        intros uid user Hu Hin.
        destruct (Hknown uid user _ Hu Hin) as [? Hsome]. congruence.
      * rewrite lookup_insert_ne in Hb by done. by apply Hlent.
Qed.

Lemma lending_inv_remove_book bid L :
  ¬ held_by_someone bid L → lending_inv L → lending_inv (remove_book bid L).2.
Proof.
  intros Hfree [Hknown Hlent]. unfold remove_book.
  destruct (books L !! bid) eqn:Hb; [|done].
  split; simpl.
  - intros uid user bid' Hu Hin.
    rewrite lookup_delete_ne; [by eapply Hknown|].
    intros <-. apply Hfree. by exists uid, user.
  - intros bid' b' Hb'. apply lookup_delete_Some in Hb' as [_ Hb'].
    by apply Hlent.
Qed.

Lemma lending_inv_update_book bid updates L :
  forallb (λ kw, negb (assigns_copies kw)) updates = true →
  lending_inv L → lending_inv (update_book bid updates L).2.
Proof.
  intros Hall [Hknown Hlent]. unfold update_book.
  destruct (books L !! bid) as [book|] eqn:Hb; [|done].
  destruct (apply_updates_copies updates book Hall) as [Ht Ha].
  destruct (apply_updates updates book) as [r book'].
  assert (lending_inv (with_books (<[bid := book']> (books L)) L)) as Hinv.
  { split; simpl.
    - intros uid user bid' Hu Hin. apply lookup_insert_is_Some'. right.
      by eapply Hknown.
    - intros bid' b' Hb'. destruct (decide (bid = bid')) as [<-|Hne].
      + rewrite lookup_insert_eq in Hb'. injection Hb' as <-.
        simpl in Ht, Ha. rewrite Ht, Ha. by apply Hlent.
      + rewrite lookup_insert_ne in Hb' by done. by apply Hlent. }
  by destruct r.
Qed.

Lemma lending_inv_add_user user L :
  borrowed_books user = ∅ → lending_inv L → lending_inv (add_user user L).
Proof.
  intros Hempty [Hknown Hlent]. unfold add_user.
  destruct (users L !! user_id user) eqn:Hu; [done|].
  split; simpl.
  - intros uid user' bid Hu' Hin.
    destruct (decide (user_id user = uid)) as [<-|Hne].
    + rewrite lookup_insert_eq in Hu'. injection Hu' as <-.
      rewrite Hempty in Hin. set_solver.
    + rewrite lookup_insert_ne in Hu' by done. by eapply Hknown.
  - intros bid b Hb. rewrite holders_insert, delete_id by done.
    rewrite decide_False by (rewrite Hempty; set_solver).
    by apply Hlent.
Qed.

Lemma lending_inv_process_next L :
  lending_inv L → lending_inv (process_next_borrow L).2.
Proof.
  intros Hinv. unfold process_next_borrow.
  destruct (queue_bool (borrow_requests L)); simpl; [|done].
  destruct (dequeue (borrow_requests L)) as [[[uid bid]|e] q].
  - by apply lending_inv_borrow, lending_inv_queue.
  - by apply lending_inv_queue.
Qed.

Lemma lending_inv_step o L :
  consistent_op L o → lending_inv L → lending_inv (apply_op o L).
Proof.
  destruct o; simpl; intros Hop Hinv.
  - by apply lending_inv_add_book.
  - by apply lending_inv_remove_book.
  - by apply lending_inv_update_book.
  - by apply lending_inv_add_user.
  - by apply lending_inv_borrow.
  - by apply lending_inv_return.
  - by apply lending_inv_queue.
  - by apply lending_inv_process_next.
Qed.

Lemma consistently_reachable_inv L :
  consistently_reachable L → lending_inv L.
Proof.
  induction 1 as [|L o _ IH Hop]; [apply lending_inv_init|].
  by apply lending_inv_step.
Qed.

(** C2, as amended.  Take any state reached from the empty library by
    [add_book] of books that satisfy [0 <= available_copies <=
    total_copies], [add_user] of users whose borrowed set is empty,
    [update_book] calls that do not assign [total_copies] or
    [_available_copies], [remove_book] of books that are in no user's
    borrowed set, and any [borrow_book], [return_book],
    [enqueue_borrow_request] and [process_next_borrow] calls.  In it a book
    that is in a user's borrowed set has fewer available copies than total
    copies, so that [return_book] never reaches the over-return condition:
    it returns a boolean, for every pair of arguments. *)
Theorem return_book_never_over_returns (L : Library) (uid bid : string) :
  consistently_reachable L →
  (∀ user book,
     users L !! uid = Some user → books L !! bid = Some book →
     bid ∈ borrowed_books user →
     _available_copies book < total_copies book)
  ∧ ∃ ok, (return_book uid bid L).1 = Ok ok.
Proof.
  intros Hinv%consistently_reachable_inv. split.
  - intros user book. by apply lending_inv_not_over_return.
  - unfold return_book.
    destruct (users L !! uid) as [user|] eqn:Hu; [|by eexists].
    destruct (books L !! bid) as [book|] eqn:Hb; [|by eexists].
    destruct (decide (bid ∈ borrowed_books user)) as [Hin|Hnin].
    + rewrite bool_decide_eq_true_2 by done. simpl.
      rewrite return_one_ok; [by eexists|].
      by eapply lending_inv_not_over_return.
    + rewrite bool_decide_eq_false_2 by done. by eexists.
Qed.

Lemma return_book_never_over_returns_witness :
  (∀ user book,
     users borrowed_lib !! "u1" = Some user →
     books borrowed_lib !! "b1" = Some book →
     "b1" ∈ borrowed_books user →
     _available_copies book < total_copies book)
  ∧ ∃ ok, (return_book "u1" "b1" borrowed_lib).1 = Ok ok.
Proof.
  apply (return_book_never_over_returns borrowed_lib "u1" "b1").
  unfold borrowed_lib.
  apply reach_step; [apply reach_step; [apply reach_step|]|].
  - apply reach_init.
  - unfold consistent_op, copies_ok. simpl. lia.
  - reflexivity.
  - exact I.
Defined.

(** C2 as stated fails.  Each of these four sequences of public
    operations, from the empty library, leads to a state in which
    [return_book] of a book that is in the user's borrowed set raises
    [ValueError]: a borrowed book removed and registered again; the total
    lowered, or the available count raised, by [update_book] while a copy
    is out; and a user registered with a borrowed set that is not empty. *)
Lemma return_book_over_return_counterexample :
  Book_init "b1" "A" "Auth" "tech" 1 1 0 = Ok test_b1
  ∧ (return_book "u1" "b1"
       (run_ops [OpAddBook test_b1; OpAddUser test_u1; OpBorrow "u1" "b1";
                 OpRemoveBook "b1"; OpAddBook test_b1] Library_init)).1
    = Raise ValueError
  ∧ (return_book "u1" "b1"
       (run_ops [OpAddBook two_copies; OpAddUser test_u1; OpBorrow "u1" "b1";
                 OpUpdateBook "b1" [kw_total_copies 1]] Library_init)).1
    = Raise ValueError
  ∧ (return_book "u1" "b1"
       (run_ops [OpAddBook test_b1; OpAddUser test_u1; OpBorrow "u1" "b1";
                 OpUpdateBook "b1" [kw__available_copies 1]] Library_init)).1
    = Raise ValueError
  ∧ (return_book "u3" "b1"
       (run_ops [OpAddBook test_b1; OpAddUser test_u3] Library_init)).1
    = Raise ValueError.
Proof. by vm_compute. Qed.

(** ** The linked queue *)

Lemma chain_tail {T : Type} (nodes : list (Node T)) head items t :
  chain nodes head items (Some t) →
  ∃ v, nodes !! t = Some (mkNode v None).
Proof.
  intros H. remember (Some t) as tail eqn:Ht.
  induction H as [|a v Ha|a v b items tail Ha H IH]; [done| |by apply IH].
  injection Ht as <-. by exists v.
Qed.

Lemma chain_head_tail {T : Type} (nodes : list (Node T)) head items tail :
  chain nodes head items tail → (head = None ↔ tail = None).
Proof.
  induction 1 as [| |a v b items tail Ha H IH]; [done|done|]. naive_solver.
Qed.

Lemma chain_snoc {T : Type} (nodes : list (Node T)) head items t value :
  chain nodes head items (Some t) →
  chain (alter (set_next (length nodes)) t (nodes ++ [mkNode value None]))
    head (items ++ [value]) (Some (length nodes)).
Proof.
  intros H. remember (Some t) as tail eqn:Ht.
  induction H as [|a v Ha|a v b items tail Ha H IH]; [done| |].
  - injection Ht as <-. pose proof (lookup_lt_Some _ _ _ Ha) as Hlt.
    simpl. eapply chain_cons.
    + rewrite list_lookup_alter_eq, lookup_app_l, Ha by done. done.
    + apply chain_last.
      rewrite list_lookup_alter_ne by lia.
      by rewrite lookup_app_r, Nat.sub_diag by lia.
  - subst tail. simpl. eapply chain_cons; [|by apply IH].
    destruct (chain_tail _ _ _ _ H) as [v' Ht].
    pose proof (lookup_lt_Some _ _ _ Ha) as Hlt.
    rewrite list_lookup_alter_ne by congruence.
    by rewrite lookup_app_l.
Qed.

Lemma queue_repr_init {T : Type} : queue_repr (@LinkedListQueue_init T) [].
Proof. split; [apply chain_empty|done]. Qed.

Lemma enqueue_repr {T : Type} (value : T) (q : LinkedListQueue T) items :
  queue_repr q items → queue_repr (enqueue value q) (items ++ [value]).
Proof.
  intros [Hc Hs]. unfold enqueue, queue_repr.
  destruct (_tail q) as [t|] eqn:Ht; simpl.
  - split; [by apply chain_snoc|]. rewrite length_app. cbn [length]. lia.
  - apply chain_head_tail in Hc as Hh. rewrite (proj2 Hh eq_refl) in Hc.
    inversion Hc; subst. simpl in *. split; [|lia].
    apply chain_last. by rewrite lookup_app_r, Nat.sub_diag by lia.
Qed.

Lemma dequeue_repr {T : Type} (q : LinkedListQueue T) value items :
  queue_repr q (value :: items) →
  (dequeue q).1 = Ok value ∧ queue_repr (dequeue q).2 items.
Proof.
  intros [Hc Hs]. unfold dequeue, queue_repr.
  inversion Hc as [|a v Ha Hh Hi Ht|a v b items' tail Ha Hc' Hh Hi Ht]; subst.
  - rewrite Ha. simpl. split; [done|]. split; [apply chain_empty|].
    simpl in Hs. lia.
  - rewrite Ha. simpl. split; [done|]. split; [done|].
    simpl in Hs. lia.
Qed.

Lemma dequeue_empty {T : Type} (q : LinkedListQueue T) :
  queue_repr q [] → dequeue q = (Raise IndexError, q).
Proof.
  intros [Hc Hs]. unfold dequeue. inversion Hc as [Hh Hi Ht| |]. done.
Qed.

Lemma peek_repr {T : Type} (q : LinkedListQueue T) items :
  queue_repr q items →
  peek q = match items with [] => Raise IndexError | value :: _ => Ok value end.
Proof.
  intros [Hc Hs]. unfold peek.
  inversion Hc as [|a v Ha|a v b items' tail Ha Hc']; subst; [done|..];
    by rewrite Ha.
Qed.

Lemma queue_bool_repr {T : Type} (q : LinkedListQueue T) items :
  queue_repr q items →
  queue_bool q = match items with [] => false | _ :: _ => true end.
Proof.
  intros [_ Hs]. unfold queue_bool. rewrite Hs.
  destruct items; simpl; [done|]. by apply Z.ltb_lt; lia.
Qed.

Lemma queue_repr_functional {T : Type} (q : LinkedListQueue T) items1 items2 :
  queue_repr q items1 → queue_repr q items2 → items1 = items2.
Proof.
  intros [H1 _] [H2 _]. revert items2 H2.
  induction H1 as [|a v Ha|a v b items tail Ha H IH]; intros items2 H2.
  - by inversion H2.
  - inversion H2 as [|a' v' Ha'|a' v' b' items' tail' Ha' H']; subst.
    + congruence.
    + congruence.
  - inversion H2 as [|a' v' Ha'|a' v' b' items' tail' Ha' H']; subst.
    + congruence.
    + rewrite Ha in Ha'. injection Ha' as <- <-. f_equal. by apply IH.
Qed.

(** ** The waitlist *)

Lemma with_borrow_requests_id L :
  with_borrow_requests (borrow_requests L) L = L.
Proof. by destruct L. Qed.

Lemma enqueue_all_repr requests L items :
  queue_repr (borrow_requests L) items →
  queue_repr (borrow_requests (enqueue_all requests L)) (items ++ requests)
  ∧ enqueue_all requests L
    = with_borrow_requests (borrow_requests (enqueue_all requests L)) L.
Proof.
  revert L items. induction requests as [|[uid bid] requests IH];
    intros L items Hq.
  - simpl. rewrite app_nil_r. split; [done|].
    by rewrite with_borrow_requests_id.
  - unfold enqueue_all in *. cbn [foldl fst snd].
    destruct (IH (enqueue_borrow_request uid bid L) (items ++ [(uid, bid)]))
      as [Hr Heq].
    { by apply enqueue_repr. }
    rewrite <- app_assoc in Hr. split; [done|].
    rewrite Heq at 1. done.
Qed.

Lemma borrow_book_with_queue uid bid q L :
  borrow_book uid bid (with_borrow_requests q L) =
    ((borrow_book uid bid L).1,
     with_borrow_requests q (borrow_book uid bid L).2).
Proof. by borrow_book_paths. Qed.

Lemma borrow_each_with_queue requests q L :
  borrow_each requests (with_borrow_requests q L) =
    ((borrow_each requests L).1,
     with_borrow_requests q (borrow_each requests L).2).
Proof.
  revert L. induction requests as [|[uid bid] requests IH]; intros L; [done|].
  simpl. rewrite borrow_book_with_queue. simpl. by rewrite IH.
Qed.

Lemma borrow_book_queue uid bid L :
  borrow_requests (borrow_book uid bid L).2 = borrow_requests L.
Proof. by borrow_book_paths. Qed.

Lemma borrow_each_length requests L :
  length (borrow_each requests L).1 = length requests.
Proof.
  revert L. induction requests as [|r requests IH]; intros L; [done|].
  simpl. by rewrite IH.
Qed.

Lemma process_next_borrow_front uid bid rest L :
  queue_repr (borrow_requests L) ((uid, bid) :: rest) →
  ∃ q, queue_repr q rest
       ∧ process_next_borrow L =
           ((borrow_book uid bid L).1,
            with_borrow_requests q (borrow_book uid bid L).2).
Proof.
  intros Hq. unfold process_next_borrow.
  rewrite (queue_bool_repr _ _ Hq). simpl.
  destruct (dequeue_repr _ _ _ Hq) as [Hv Hq'].
  destruct (dequeue (borrow_requests L)) as [r q]. simpl in Hv, Hq'. subst r.
  exists q. split; [done|]. apply borrow_book_with_queue.
Qed.

Lemma process_next_borrow_empty L :
  queue_repr (borrow_requests L) [] → process_next_borrow L = (Ok false, L).
Proof.
  intros Hq. unfold process_next_borrow. by rewrite (queue_bool_repr _ _ Hq).
Qed.

Lemma process_calls_fifo n L items :
  queue_repr (borrow_requests L) items →
  (n <= length items)%nat →
  let attempts := borrow_each (take n items) L in
  let calls := process_calls n L in
  calls.1 = zip (Some <$> take n items) attempts.1
  ∧ queue_repr (borrow_requests calls.2) (drop n items)
  ∧ calls.2 = with_borrow_requests (borrow_requests calls.2) attempts.2.
Proof.
  revert L items. induction n as [|n IH]; intros L items Hq Hn; cbv zeta.
  - simpl. split; [done|]. split; [done|]. by rewrite with_borrow_requests_id.
  - destruct items as [|[uid bid] rest]; simpl in Hn; [lia|].
    cbn [process_calls]. rewrite (peek_repr _ _ Hq).
    destruct (process_next_borrow_front _ _ _ _ Hq) as (q&Hq'&->).
    cbn [fst snd take drop borrow_each].
    destruct (IH (with_borrow_requests q (borrow_book uid bid L).2) rest)
      as (Hlog&Hrepr&Hstate); [done|lia|].
    rewrite borrow_each_with_queue in Hlog, Hstate.
    cbn [fst snd] in Hlog, Hstate.
    split; [by rewrite Hlog|]. split; [done|].
    rewrite Hstate at 1. done.
Qed.

(** C7.  Let the queue of [L] hold [items], and let [requests] be enqueued
    after them.  Then [n] calls of [process_next_borrow] (for [n] up to the
    number of pending requests) take the pending requests oldest first:
    the [k]-th call finds the [k]-th pending request at the front, and
    returns what one call of [borrow_book] for that request returns in the
    state the earlier attempts produced.  Books, users and graph end as
    after exactly these [borrow_book] calls, one per request.  The queue
    ends with the pending requests after the first [n], in their order,
    whatever the attempts returned: a request whose attempt failed is not
    put back.  Once all are processed, a further call returns [False] and
    changes nothing. *)
Theorem process_next_borrow_fifo (requests items : list (string * string))
    (L : Library) (n : nat) :
  queue_repr (borrow_requests L) items →
  let pending := items ++ requests in
  (n <= length pending)%nat →
  let attempts := borrow_each (take n pending) L in
  let calls := process_calls n (enqueue_all requests L) in
  calls.1.*1 = Some <$> take n pending
  ∧ calls.1.*2 = attempts.1
  ∧ queue_repr (borrow_requests calls.2) (drop n pending)
  ∧ calls.2 = with_borrow_requests (borrow_requests calls.2) attempts.2
  ∧ (n = length pending →
     process_next_borrow calls.2 = (Ok false, calls.2)).
Proof.
  intros Hq pending Hn attempts calls.
  destruct (enqueue_all_repr requests L items Hq) as [Hq' Heq].
  destruct (process_calls_fifo n _ _ Hq' Hn) as (Hlog&Hrepr&Hstate).
  fold pending in Hlog, Hrepr, Hstate. fold calls in Hlog, Hrepr, Hstate.
  rewrite Heq, borrow_each_with_queue in Hlog, Hstate.
  cbn [fst snd] in Hlog, Hstate. fold attempts in Hlog, Hstate.
  assert (length attempts.1 = length (Some <$> take n pending)) as Hlen.
  { subst attempts. by rewrite borrow_each_length, length_fmap. }
  split; [rewrite Hlog; apply fst_zip; lia|].
  split; [rewrite Hlog; apply snd_zip; lia|].
  split; [done|]. split; [done|].
  intros ->. apply process_next_borrow_empty.
  by rewrite drop_all in Hrepr.
Qed.

(** C7 on the test fixture: [u1], [u2] and an unknown user ask for the
    only copy of [b1]; the three calls serve them in this order, the first
    succeeds, the others fail and are gone from the queue. *)
Lemma process_next_borrow_fifo_witness :
  let requests := [("u1", "b1"); ("u2", "b1"); ("u9", "b1")] in
  let calls := process_calls 3 (enqueue_all requests test_lib) in
  calls.1 = [(Some ("u1", "b1"), Ok true); (Some ("u2", "b1"), Ok false);
             (Some ("u9", "b1"), Ok false)]
  ∧ queue_repr (borrow_requests calls.2) []
  ∧ calls.1.*1 = Some <$> requests.
Proof.
  cbv zeta.
  destruct (process_next_borrow_fifo
              [("u1", "b1"); ("u2", "b1"); ("u9", "b1")] [] test_lib 3)
    as (Hfront&_&Hrepr&_).
  - apply queue_repr_init.
  - simpl. lia.
  - split; [by vm_compute|]. split; [exact Hrepr|exact Hfront].
Defined.

(** ** Breadth-first traversal *)

Lemma graph_closed_empty : graph_closed empty_graph.
Proof. intros n adj m. unfold empty_graph. by rewrite lookup_empty. Qed.

Lemma graph_closed_add_node node g :
  graph_closed g → graph_closed (add_node node g).
Proof.
  intros Hg. unfold add_node. destruct (g !! node) eqn:Hn; [done|].
  intros n adj m Hadj Hm. apply lookup_insert_is_Some'.
  destruct (decide (node = n)) as [<-|Hne].
  - rewrite lookup_insert_eq in Hadj. injection Hadj as <-. set_solver.
  - rewrite lookup_insert_ne in Hadj by done. right. by eapply Hg.
Qed.

Lemma add_edge_is_Some a b n g :
  is_Some (g !! n) ∨ (a ≠ b ∧ (n = a ∨ n = b)) → is_Some (add_edge a b g !! n).
Proof.
  destruct (decide (a = b)) as [->|Hne].
  - unfold add_edge. rewrite decide_True by done. intros [?|[? _]]; done.
  - intros H. destruct (decide (n = a)) as [->|Ha].
    { rewrite add_edge_lookup_l by done. by eexists. }
    destruct (decide (n = b)) as [->|Hb].
    { rewrite add_edge_lookup_r by done. by eexists. }
    rewrite add_edge_lookup_ne by done. destruct H as [?|[_ [?|?]]]; done.
Qed.

Lemma graph_closed_add_edge a b g :
  graph_closed g → graph_closed (add_edge a b g).
Proof.
  intros Hg. destruct (decide (a = b)) as [->|Hne].
  { unfold add_edge. by rewrite decide_True. }
  assert (∀ n m, m ∈ neighbors n g → is_Some (g !! m)) as Hnb.
  { intros n m. unfold neighbors. destruct (g !! n) eqn:Hn; simpl.
    - by eapply Hg.
    - set_solver. }
  intros n adj m Hadj Hm. apply add_edge_is_Some.
  destruct (decide (n = a)) as [->|Ha].
  { rewrite add_edge_lookup_l in Hadj by done. injection Hadj as <-.
    apply elem_of_union in Hm as [->%elem_of_singleton|Hm]; [by right; auto|].
    left. by eapply Hnb. }
  destruct (decide (n = b)) as [->|Hb].
  { rewrite add_edge_lookup_r in Hadj by done. injection Hadj as <-.
    apply elem_of_union in Hm as [->%elem_of_singleton|Hm]; [by right; auto|].
    left. by eapply Hnb. }
  rewrite add_edge_lookup_ne in Hadj by done. left. by eapply Hg.
Qed.

Lemma fst_unique {A B : Type} (l : list (A * B)) x y1 y2 :
  NoDup l.*1 → (x, y1) ∈ l → (x, y2) ∈ l → y1 = y2.
Proof.
  induction l as [|[a b] l IH]; simpl; intros Hnd H1 H2.
  - by apply elem_of_nil in H1.
  - apply NoDup_cons in Hnd as [Hnin Hnd].
    apply elem_of_cons in H1 as [H1|H1];
      apply elem_of_cons in H2 as [H2|H2].
    + congruence.
    + injection H1 as -> ->. exfalso. apply Hnin.
      by apply (list_elem_of_fmap_2' fst _ (a, y2)).
    + injection H2 as -> ->. exfalso. apply Hnin.
      by apply (list_elem_of_fmap_2' fst _ (a, y1)).
    + by apply IH.
Qed.

Lemma visit_visited depth visited queue neigh :
  neigh ∈ visited → visit depth (visited, queue) neigh = (visited, queue).
Proof. intros H. unfold visit. simpl. by rewrite decide_True. Qed.

Lemma visit_unvisited depth visited queue neigh :
  neigh ∉ visited →
  visit depth (visited, queue) neigh =
    ({[neigh]} ∪ visited, queue ++ [(neigh, depth + 1)]).
Proof. intros H. unfold visit. simpl. by rewrite decide_False. Qed.

(** The inner loop of [bfs]: the work list grows at its end by unvisited
    neighbours, each once, one level deeper; afterwards every neighbour is
    visited. *)
Lemma visit_neighbours depth (ns : list string) visited
    (queue : list (string * Z)) :
  visited = list_to_set queue.*1 → NoDup queue.*1 →
  let st := foldl (visit depth) (visited, queue) ns in
  ∃ new,
    st.2 = queue ++ new
    ∧ st.1 = list_to_set st.2.*1
    ∧ NoDup st.2.*1
    ∧ (∀ e, e ∈ new → e.2 = depth + 1 ∧ e.1 ∈ ns)
    ∧ (∀ m, m ∈ ns → m ∈ st.1).
Proof.
  revert visited queue. induction ns as [|m ns IH]; intros visited queue Hv Hnd.
  - simpl. exists []. rewrite app_nil_r. split_and!; try done.
    + intros e He. by apply elem_of_nil in He.
    + intros m Hm. by apply elem_of_nil in Hm.
  - cbn [foldl]. destruct (decide (m ∈ visited)) as [Hin|Hin].
    + rewrite visit_visited by done.
      destruct (IH visited queue Hv Hnd) as (new&Hq&Hs&Hn&Hnew&Hall).
      exists new. split_and!; try done.
      * intros e He. destruct (Hnew e He) as [? ?]. split; [done|].
        apply elem_of_cons. by right.
      * intros m' [->|Hm']%elem_of_cons; [|by apply Hall].
        rewrite Hs, Hq, fmap_app, list_to_set_app_L, <- Hv. set_solver.
    + rewrite visit_unvisited by done.
      destruct (IH ({[m]} ∪ visited) (queue ++ [(m, depth + 1)]))
        as (new&Hq&Hs&Hn&Hnew&Hall).
      { rewrite fmap_app, list_to_set_app_L, <- Hv. simpl. set_solver. }
      { rewrite fmap_app. apply NoDup_app. split; [done|]. split.
        - intros x Hx. simpl. rewrite list_elem_of_singleton. intros ->.
          apply Hin. rewrite Hv. by apply elem_of_list_to_set.
        - simpl. apply NoDup_singleton. }
      exists ((m, depth + 1) :: new). rewrite <- app_assoc in Hq. simpl in Hq.
      split_and!; try done.
      * intros e [->|He]%elem_of_cons.
        -- split; [done|]. by left.
        -- destruct (Hnew e He) as [? ?]. split; [done|].
           apply elem_of_cons. by right.
      * intros m' [->|Hm']%elem_of_cons; [|by apply Hall].
        rewrite Hs, Hq, !fmap_app, !list_to_set_app_L. simpl. set_solver.
Qed.

Section BfsCorrect.

Variable set_order : gset string → list string.
Hypothesis set_order_elem : ∀ s x, x ∈ set_order s ↔ x ∈ s.

Variables (g : Graph) (start : string) (max_depth : Z).
Hypothesis g_closed : graph_closed g.

Lemma bfs_inv_length visited queue order i :
  bfs_inv g start max_depth visited queue order i →
  (length queue <= size (graph_names g))%nat.
Proof.
  intros Hinv. rewrite <- (length_fmap fst queue).
  rewrite <- (size_list_to_set (C:=gset string)) by apply Hinv.
  apply subseteq_size. intros n Hn.
  apply elem_of_list_to_set, list_elem_of_fmap in Hn as ([n' d]&->&Hn).
  simpl. unfold graph_names. apply elem_of_union. left.
  apply elem_of_dom. by eapply inv_path.
Qed.

Lemma bfs_inv_skip visited queue order i node depth :
  bfs_inv g start max_depth visited queue order i →
  queue !! i = Some (node, depth) → max_depth <= depth →
  bfs_inv g start max_depth visited queue (order ++ [(node, depth)]) (S i).
Proof.
  intros [Ho Hi Hv Hnd Hs Hp Hsort Hf He] Hq Hdeep. split; try done.
  - rewrite Ho. symmetry. by apply take_S_r.
  - by apply lookup_lt_Some in Hq.
  - intros e e' Hnext He'.
    specialize (Hf _ _ Hq He'). simpl in Hf.
    assert (depth <= e.2)
      by (apply (Hsort i (S i) (node, depth) e); [lia|done..]).
    lia.
  - intros j n d m Hj Hqj Hd Hedge.
    destruct (decide (j = i)) as [->|Hne].
    + rewrite Hq in Hqj. injection Hqj as -> ->. lia.
    + apply (He j n d m); [lia|done..].
Qed.

Lemma bfs_inv_expand visited queue order i node depth adj :
  bfs_inv g start max_depth visited queue order i →
  queue !! i = Some (node, depth) → depth < max_depth →
  g !! node = Some adj →
  let st := foldl (visit depth) (visited, queue) (set_order adj) in
  bfs_inv g start max_depth st.1 st.2 (order ++ [(node, depth)]) (S i).
Proof.
  intros [Ho Hi Hv Hnd Hs Hp Hsort Hf He] Hq Hdeep Hadj st.
  destruct (visit_neighbours depth (set_order adj) visited queue Hv Hnd)
    as (new&Hst2&Hst1&Hnd'&Hnew&Hall).
  fold st in Hst2, Hst1, Hnd', Hall.
  pose proof (lookup_lt_Some _ _ _ Hq) as Hlt.
  destruct (Hp node depth) as (Hd0&Hpath&_);
    [by eapply list_elem_of_lookup_2|].
  assert (∀ e, e ∈ st.2 → e.2 <= depth + 1) as Hbound.
  { intros e. rewrite Hst2. intros [Hin|Hin]%elem_of_app.
    - apply (Hf (node, depth) e Hq Hin).
    - destruct (Hnew e Hin) as [-> _]. lia. }
  assert (depths_sorted st.2) as Hsort'.
  { intros j1 j2 e1 e2 Hj. rewrite Hst2.
    intros [H1|[Hl1 H1]]%lookup_app_Some [H2|[Hl2 H2]]%lookup_app_Some.
    - by apply (Hsort j1 j2).
    - apply list_elem_of_lookup_2 in H1, H2.
      destruct (Hnew e2 H2) as [-> _]. apply (Hf (node, depth) e1 Hq H1).
    - apply lookup_lt_Some in H2. lia.
    - apply list_elem_of_lookup_2 in H1, H2.
      destruct (Hnew e1 H1) as [-> _]. destruct (Hnew e2 H2) as [-> _]. lia. }
  split.
  - rewrite Hst2, take_app_le by lia. rewrite Ho. symmetry. by apply take_S_r.
  - rewrite Hst2, length_app. lia.
  - done.
  - done.
  - rewrite Hst2. rewrite lookup_app_l by lia. done.
  - intros n d. rewrite Hst2. intros [Hin|Hin]%elem_of_app; [by apply Hp|].
    destruct (Hnew _ Hin) as [Hd Hn]. simpl in Hd, Hn. subst d.
    apply set_order_elem in Hn.
    split; [lia|]. split.
    + replace (Z.to_nat (depth + 1)) with (S (Z.to_nat depth)) by lia.
      eapply nsteps_r; [exact Hpath|].
      unfold edge, neighbors. by rewrite Hadj.
    + by eapply g_closed.
  - done.
  - intros e e' Hnext He'.
    assert (depth <= e.2)
      by (apply (Hsort' i (S i) (node, depth) e);
          [lia|by rewrite Hst2, lookup_app_l by lia|done]).
    specialize (Hbound e' He'). lia.
  - intros j n d m Hj Hqj Hd Hedge.
    rewrite Hst2, lookup_app_l in Hqj by lia.
    destruct (decide (j = i)) as [->|Hne].
    + rewrite Hq in Hqj. injection Hqj as -> ->.
      unfold edge, neighbors in Hedge. rewrite Hadj in Hedge. simpl in Hedge.
      apply set_order_elem, Hall in Hedge.
      rewrite Hst1 in Hedge.
      apply elem_of_list_to_set, list_elem_of_fmap in Hedge as ([m' d']&->&Hm).
      exists d'. split; [done|]. apply (Hbound _ Hm).
    + destruct (He j n d m) as (d'&Hin&Hle); [lia|done..|].
      exists d'. split; [|done]. rewrite Hst2. apply elem_of_app. by left.
Qed.

Lemma bfs_loop_inv fuel visited queue order i :
  bfs_inv g start max_depth visited queue order i →
  (size (graph_names g) < fuel + i)%nat →
  ∃ visited' queue',
    bfs_loop set_order fuel g max_depth visited queue order i = Some (Ok queue')
    ∧ bfs_inv g start max_depth visited' queue' queue' (length queue').
Proof.
  revert visited queue order i.
  induction fuel as [|fuel IH]; intros visited queue order i Hinv Hfuel.
  - pose proof (bfs_inv_length _ _ _ _ Hinv) as Hlen.
    pose proof (inv_index _ _ _ _ _ _ _ Hinv). lia.
  - cbn [bfs_loop]. destruct (queue !! i) as [[node depth]|] eqn:Hq.
    + destruct (Z.leb_spec max_depth depth) as [Hdeep|Hdeep].
      * apply IH; [by apply bfs_inv_skip|lia].
      * destruct (inv_path _ _ _ _ _ _ _ Hinv node depth) as (_&_&[adj Hadj]);
          [by eapply list_elem_of_lookup_2|].
        rewrite Hadj. apply IH; [by apply bfs_inv_expand|lia].
    + exists visited, queue. apply lookup_ge_None_1 in Hq.
      pose proof (inv_index _ _ _ _ _ _ _ Hinv) as Hi.
      assert (i = length queue) as -> by lia.
      assert (order = queue) as ->.
      { rewrite (inv_order _ _ _ _ _ _ _ Hinv). by apply take_ge. }
      done.
Qed.

End BfsCorrect.

Lemma distance_unique g start n d1 d2 :
  distance g start n d1 → distance g start n d2 → d1 = d2.
Proof.
  intros (k1&->&Hp1&Hmin1) (k2&->&Hp2&Hmin2).
  specialize (Hmin1 _ Hp2). specialize (Hmin2 _ Hp1). lia.
Qed.

Section BfsResult.

Variable set_order : gset string → list string.
Hypothesis set_order_elem : ∀ s x, x ∈ set_order s ↔ x ∈ s.

Variables (g : Graph) (start : string) (max_depth : Z).
Hypothesis g_closed : graph_closed g.
Hypothesis depth_nonneg : 0 <= max_depth.

Lemma bfs_inv_initial adj :
  g !! start = Some adj →
  bfs_inv g start max_depth {[start]} [(start, 0)] [] 0.
Proof.
  intros Hs. split; try done.
  - simpl. lia.
  - simpl. set_solver.
  - simpl. apply NoDup_singleton.
  - intros n d [= -> ->]%list_elem_of_singleton.
    split; [lia|]. split; [apply nsteps_O|by eexists].
  - intros j1 j2 e1 e2 Hj H1 H2.
    apply list_elem_of_lookup_2, list_elem_of_singleton in H1, H2.
    subst. done.
  - intros e e' [= <-] ->%list_elem_of_singleton. simpl. lia.
  - intros j n d m Hj. lia.
Qed.

(** What the work list holds when the loop ends. *)
Lemma bfs_inv_complete visited queue k n :
  bfs_inv g start max_depth visited queue queue (length queue) →
  hops g start n k → Z.of_nat k <= max_depth →
  ∃ d, (n, d) ∈ queue ∧ d <= Z.of_nat k.
Proof.
  intros Hinv. revert n. induction k as [|k IH]; intros n Hpath Hk.
  - inversion Hpath; subst. exists 0. split; [|done].
    eapply list_elem_of_lookup_2. apply Hinv.
  - apply nsteps_inv_r in Hpath as (p&Hpath&Hedge).
    destruct (IH p Hpath) as (dp&Hp&Hdp); [lia|].
    apply list_elem_of_lookup_1 in Hp as [j Hj].
    destruct (inv_expanded _ _ _ _ _ _ _ Hinv j p dp n) as (d&Hin&Hd);
      [by eapply lookup_lt_Some|done|lia|done|].
    exists d. split; [done|lia].
Qed.

Lemma bfs_inv_distance visited queue n d :
  bfs_inv g start max_depth visited queue queue (length queue) →
  (n, d) ∈ queue → distance g start n d ∧ d <= max_depth.
Proof.
  intros Hinv Hin.
  destruct (inv_path _ _ _ _ _ _ _ Hinv n d Hin) as ([Hd0 Hd]&Hpath&_).
  split; [|done]. exists (Z.to_nat d). split; [lia|]. split; [done|].
  intros k' Hpath'.
  destruct (Z.le_gt_cases (Z.of_nat k') max_depth) as [Hle|Hgt]; [|lia].
  destruct (bfs_inv_complete _ _ _ _ Hinv Hpath' Hle) as (d'&Hin'&Hd').
  assert (d = d') as <-
    by (eapply fst_unique; [apply (inv_nodup _ _ _ _ _ _ _ Hinv)|done..]).
  lia.
Qed.

End BfsResult.

(** The graph of a library stays closed, and its queue stays a chain from
    [_head] to [_tail], under every public operation. *)
Lemma borrow_book_graph_closed uid bid L :
  graph_closed (user_book_graph L) →
  graph_closed (user_book_graph (borrow_book uid bid L).2).
Proof.
  intros Hg. borrow_book_paths.
  by apply graph_closed_add_edge.
Qed.

Lemma apply_op_graph_closed o L :
  graph_closed (user_book_graph L) →
  graph_closed (user_book_graph (apply_op o L)).
Proof.
  intros Hg. destruct o; simpl.
  - unfold add_book. destruct (books L !! _); [done|]. simpl.
    by apply graph_closed_add_node.
  - unfold remove_book. by destruct (books L !! _).
  - unfold update_book. destruct (books L !! _); [|done].
    destruct (apply_updates _ _) as [[] ?]; done.
  - unfold add_user. destruct (users L !! _); [done|]. simpl.
    by apply graph_closed_add_node.
  - by apply borrow_book_graph_closed.
  - by return_book_paths.
  - done.
  - unfold process_next_borrow. destruct (negb _); [done|].
    destruct (dequeue _) as [[[u b]|e] q]; [|done].
    by apply borrow_book_graph_closed.
Qed.

Lemma run_ops_graph_closed ops L :
  graph_closed (user_book_graph L) →
  graph_closed (user_book_graph (run_ops ops L)).
Proof.
  revert L. induction ops as [|o ops IH]; intros L Hg; [done|].
  simpl. by apply IH, apply_op_graph_closed.
Qed.

Lemma borrow_book_queue_repr uid bid L items :
  queue_repr (borrow_requests L) items →
  queue_repr (borrow_requests (borrow_book uid bid L).2) items.
Proof. by rewrite borrow_book_queue. Qed.

Lemma apply_op_queue_repr o L :
  (∃ items, queue_repr (borrow_requests L) items) →
  ∃ items, queue_repr (borrow_requests (apply_op o L)) items.
Proof.
  intros [items Hq]. destruct o; simpl.
  - exists items. unfold add_book. by destruct (books L !! _).
  - exists items. unfold remove_book. by destruct (books L !! _).
  - exists items. unfold update_book. destruct (books L !! _); [|done].
    destruct (apply_updates _ _) as [[] ?]; done.
  - exists items. unfold add_user. by destruct (users L !! _).
  - exists items. by apply borrow_book_queue_repr.
  - exists items. by return_book_paths.
  - eexists. by apply enqueue_repr.
  - destruct items as [|[uid bid] rest].
    + exists []. by rewrite process_next_borrow_empty.
    + destruct (process_next_borrow_front _ _ _ _ Hq) as (q&Hq'&->).
      by exists rest.
Qed.

(** C6.  Let the neighbours of every node of the graph be nodes of the
    graph, as in every graph built by [add_node] and [add_edge], and let
    [max_depth >= 0].  Whatever the order in which the neighbour sets are
    iterated, [bfs] returns a list [order], and: when [start] is not a node
    the list is empty; when it is, the list begins with [(start, 0)],
    every node that some path of at most [max_depth] hops reaches from
    [start] is in the list, and [(n, d)] is an entry exactly when [d] is
    the least number of hops from [start] to [n] and [d <= max_depth];
    no node occurs twice; and the depths do not decrease along the list. *)
Theorem bfs_correct (set_order : gset string → list string)
    (g : Graph) (start : string) (max_depth : Z) :
  (∀ s x, x ∈ set_order s ↔ x ∈ s) →
  graph_closed g →
  0 <= max_depth →
  ∃ order,
    bfs set_order start max_depth g = Some (Ok order)
    ∧ (g !! start = None → order = [])
    ∧ (is_Some (g !! start) → head order = Some (start, 0))
    ∧ (is_Some (g !! start) →
       ∀ n k, hops g start n k → Z.of_nat k <= max_depth →
              ∃ d, (n, d) ∈ order)
    ∧ (is_Some (g !! start) →
       ∀ n d, (n, d) ∈ order ↔ distance g start n d ∧ d <= max_depth)
    ∧ (∀ n d, (n, d) ∈ order → distance g start n d ∧ d <= max_depth)
    ∧ NoDup order.*1
    ∧ depths_sorted order.
Proof.
  intros Hso Hclosed Hdepth. unfold bfs.
  destruct (g !! start) as [adj|] eqn:Hs.
  - destruct (bfs_loop_inv set_order Hso g start max_depth Hclosed
                (bfs_fuel g) {[start]} [(start, 0)] [] 0)
      as (visited&order&Hrun&Hinv).
    { by eapply bfs_inv_initial. }
    { unfold bfs_fuel. lia. }
    exists order. split; [done|]. split; [done|].
    split; [intros _; rewrite head_lookup; apply Hinv|].
    split.
    { intros _ n k Hpath Hk.
      destruct (bfs_inv_complete g start max_depth _ _ _ _ Hinv Hpath Hk)
        as (d&Hin&_).
      by exists d. }
    split.
    { intros _ n d. split; [by eapply bfs_inv_distance|].
      intros [(k&->&Hpath&Hmin) Hk].
      destruct (bfs_inv_complete g start max_depth _ _ _ _ Hinv Hpath Hk)
        as (d'&Hin&Hd').
      destruct (bfs_inv_distance g start max_depth Hdepth _ _ _ _ Hinv Hin)
        as [Hdist _].
      assert (d' = Z.of_nat k) as <-
        by (eapply distance_unique; [done|by exists k]).
      done. }
    split; [intros n d; by eapply bfs_inv_distance|].
    split; apply Hinv.
  - exists []. split; [done|]. split; [done|].
    split; [by intros [? ?]|]. split; [by intros [? ?]|].
    split; [by intros [? ?]|].
    split; [intros n d Hin; by apply elem_of_nil in Hin|].
    split; [apply NoDup_nil_2|]. intros j1 j2 e1 e2 _ H1. done.
Qed.

(** C6 on [example_graph] from [user:u1] with [max_depth = 2], the sets
    iterated in the order of [elements]. *)
Lemma bfs_correct_witness :
  ∃ order,
    bfs elements "user:u1" 2 example_graph = Some (Ok order)
    ∧ (example_graph !! "user:u1" = None → order = [])
    ∧ (is_Some (example_graph !! "user:u1") → head order = Some ("user:u1", 0))
    ∧ (is_Some (example_graph !! "user:u1") →
       ∀ n k, hops example_graph "user:u1" n k → Z.of_nat k <= 2 →
              ∃ d, (n, d) ∈ order)
    ∧ (is_Some (example_graph !! "user:u1") →
       ∀ n d, (n, d) ∈ order
              ↔ distance example_graph "user:u1" n d ∧ d <= 2)
    ∧ (∀ n d, (n, d) ∈ order → distance example_graph "user:u1" n d ∧ d <= 2)
    ∧ NoDup order.*1
    ∧ depths_sorted order.
Proof.
  apply (bfs_correct elements example_graph "user:u1" 2).
  - intros s x. apply elem_of_elements.
  - unfold example_graph.
    repeat apply graph_closed_add_edge.
    apply graph_closed_add_node, graph_closed_empty.
  - lia.
Defined.

Example bfs_example_graph :
  bfs elements "user:u1" 2 example_graph
  = Some (Ok [("user:u1", 0); ("book:b1", 1); ("user:u2", 2)]).
Proof. by vm_compute. Qed.

(** ** Recommendations *)

Lemma slice_to_nonneg {A : Type} (k : Z) (xs : list A) :
  0 <= k → slice_to k xs = take (Z.to_nat k) xs.
Proof. intros Hk. unfold slice_to. by destruct (Z.leb_spec 0 k); [|lia]. Qed.

Lemma slice_to_negative {A : Type} (k : Z) (xs : list A) :
  k < 0 → slice_to k xs = take (length xs - Z.to_nat (- k)) xs.
Proof.
  intros Hk. unfold slice_to. destruct (Z.leb_spec 0 k); [lia|].
  f_equal. lia.
Qed.

Lemma recommend_for_user_slice set_order books_order L uid user ranked k :
  users L !! uid = Some user →
  ranked_for_user set_order books_order L uid user = Some (Ok ranked) →
  recommend_for_user set_order books_order L uid k
  = Some (Ok (slice_to k ranked)).
Proof. intros Hu Hr. unfold recommend_for_user. by rewrite Hu, Hr. Qed.

(** With [k = 0] a recommendation that is returned is empty. *)
Lemma recommend_for_user_zero set_order books_order L uid recs :
  recommend_for_user set_order books_order L uid 0 = Some (Ok recs) →
  recs = [].
Proof.
  unfold recommend_for_user. intros H.
  destruct (users L !! uid) as [user|]; [|by injection H as <-].
  destruct (ranked_for_user _ _ _ _ _) as [[ranked|e]|]; try done.
  by injection H as <-.
Qed.

(** With a negative [k] a ranking of more than [-k] entries gives a
    recommendation that is not empty. *)
Lemma recommend_for_user_negative set_order books_order L uid user ranked k :
  users L !! uid = Some user →
  ranked_for_user set_order books_order L uid user = Some (Ok ranked) →
  k < 0 → - k < Z.of_nat (length ranked) →
  ∃ recs, recommend_for_user set_order books_order L uid k = Some (Ok recs)
          ∧ length recs = (length ranked - Z.to_nat (- k))%nat
          ∧ recs ≠ [].
Proof.
  intros Hu Hr Hk Hlen. exists (slice_to k ranked).
  split; [by apply recommend_for_user_slice with user|].
  rewrite slice_to_negative by done.
  assert (length (take (length ranked - Z.to_nat (- k)) ranked)
          = (length ranked - Z.to_nat (- k))%nat) as Hl
    by (rewrite length_take; lia).
  split; [done|]. intros Hnil. rewrite Hnil in Hl. simpl in Hl. lia.
Qed.

Lemma set_order_empty (set_order : gset string → list string) :
  (∀ s x, x ∈ set_order s ↔ x ∈ s) → set_order ∅ = [].
Proof.
  intros Hso. apply elem_of_nil_inv. intros x Hx%Hso. set_solver.
Qed.

Lemma bfs_isolated set_order (g : Graph) start max_depth :
  (∀ s x, x ∈ set_order s ↔ x ∈ s) →
  g !! start = Some ∅ →
  bfs set_order start max_depth g = Some (Ok [(start, 0)]).
Proof.
  intros Hso Hs. unfold bfs, bfs_fuel. rewrite Hs.
  destruct (size (graph_names g)) as [|n] eqn:Hn.
  { exfalso. apply size_empty_iff in Hn.
    assert (start ∈ graph_names g) as Hin.
    { unfold graph_names. apply elem_of_union. left. apply elem_of_dom.
      by eexists. }
    rewrite Hn in Hin. set_solver. }
  cbn [bfs_loop]. simpl.
  destruct (Z.leb_spec max_depth 0); [done|].
  rewrite Hs, (set_order_empty _ Hso). done.
Qed.

(** C8 fails on the code for a negative [k].  In [reco_lib] the user [u1]
    is known and has two candidates; whatever the orders of iteration,
    [recommend_for_user("u1", -1)] is the slice [ranked[:-1]], the ranking
    without its last entry, and not the empty list. *)
Theorem recommend_for_user_negative_k
    (set_order : gset string → list string)
    (books_order : gmap string Book → list Book) :
  (∀ s x, x ∈ set_order s ↔ x ∈ s) →
  (∀ bs, books_order bs ≡ₚ (map_to_list bs).*2) →
  users reco_lib !! "u1" = Some test_u1
  ∧ recommend_for_user set_order books_order reco_lib "u1" (-1)
    = Some (Ok [(test_b1, 0.7%float)]).
Proof.
  intros Hso Hbo. split; [by vm_compute|].
  unfold recommend_for_user, ranked_for_user.
  replace (users reco_lib !! "u1") with (Some test_u1) by (by vm_compute).
  rewrite (bfs_isolated set_order _ _ _ Hso) by (by vm_compute).
  specialize (Hbo (books reco_lib)).
  replace ((map_to_list (books reco_lib)).*2) with [test_b1; popular_b2] in Hbo
    by (by vm_compute).
  symmetry in Hbo. apply Permutation_length_2_inv in Hbo as [-> | ->];
    by vm_compute.
Qed.

Lemma recommend_for_user_negative_k_witness :
  users reco_lib !! "u1" = Some test_u1
  ∧ recommend_for_user elements values_order reco_lib "u1" (-1)
    = Some (Ok [(test_b1, 0.7%float)]).
Proof.
  apply (recommend_for_user_negative_k elements values_order).
  - intros s x. apply elem_of_elements.
  - done.
Defined.

Example recommend_for_user_examples :
  recommend_for_user elements values_order reco_lib "u1" 5
  = Some (Ok [(test_b1, 0.7%float); (popular_b2, 0.3%float)])
  ∧ recommend_for_user elements values_order reco_lib "u1" 0 = Some (Ok [])
  ∧ recommend_for_user elements values_order reco_lib "u1" (-2) = Some (Ok [])
  ∧ recommend_for_user elements values_order reco_lib "nobody" 5 = Some (Ok []).
Proof. by vm_compute. Qed.

(** * Further properties of the code *)

(** ** The constructor of [Book] *)

(** X1.  [Book(...)] raises [ValueError] exactly when the id, the title, the
    author or the genre is empty or [total_copies] is negative.  Otherwise
    it returns the book with the fields as given, except that an available
    count that is negative or above the total is replaced by the total:
    the constructor corrects it and does not reject it.  The book it
    returns satisfies [0 <= available_copies <= total_copies]. *)
Theorem Book_init_spec (i t a g : string) (total avail count : Z) :
  (Book_init i t a g total avail count = Raise ValueError ↔
     i = "" ∨ t = "" ∨ a = "" ∨ g = "" ∨ total < 0)
  ∧ (∀ b, Book_init i t a g total avail count = Ok b →
       b = mkBook i t a g total
             (if decide (0 <= avail <= total) then avail else total) count
       ∧ 0 <= _available_copies b <= total_copies b)
  ∧ ((∃ b, Book_init i t a g total avail count = Ok b)
     ∨ Book_init i t a g total avail count = Raise ValueError).
Proof.
  assert (∀ s, str_is_empty s = true ↔ s = "") as Hempty
    by (intros []; simpl; split; done).
  unfold Book_init.
  destruct (str_is_empty i) eqn:Hi; simpl.
  { split; [split; [intros _; left; by apply Hempty|done]|].
    split; [done|by right]. }
  destruct (str_is_empty t) eqn:Ht; simpl.
  { split; [split; [intros _; right; left; by apply Hempty|done]|].
    split; [done|by right]. }
  destruct (str_is_empty a) eqn:Ha; simpl.
  { split; [split; [intros _; do 2 right; left; by apply Hempty|done]|].
    split; [done|by right]. }
  destruct (Z.ltb_spec total 0) as [Hneg|Hpos].
  { split; [split; [intros _; by do 4 right|done]|]. split; [done|by right]. }
  destruct (str_is_empty g) eqn:Hg.
  { split; [split; [intros _; do 3 right; left; by apply Hempty|done]|].
    split; [done|by right]. }
  assert (i ≠ "" ∧ t ≠ "" ∧ a ≠ "" ∧ g ≠ "") as (Hi'&Ht'&Ha'&Hg').
  { repeat split; intros H%Hempty; congruence. }
  split; [split; [done|intros [?|[?|[?|[?|?]]]]; by try lia]|].
  split; [|left; by eexists].
  intros b [= <-]. simpl.
  destruct (Z.ltb_spec avail 0), (Z.ltb_spec total avail); simpl;
    case_decide; try lia; split; (done || lia).
Qed.

(** On a title that is empty, and on available counts outside
    [0..total]. *)
Lemma Book_init_spec_witness :
  Book_init "b1" "A" "Auth" "tech" 2 5 0
  = Ok (mkBook "b1" "A" "Auth" "tech" 2 2 0)
  ∧ Book_init "b1" "A" "Auth" "tech" 2 (-1) 0
    = Ok (mkBook "b1" "A" "Auth" "tech" 2 2 0)
  ∧ (Book_init "b1" "" "Auth" "tech" 2 2 0 = Raise ValueError ↔
       "b1" = "" ∨ "" = "" ∨ "Auth" = "" ∨ "tech" = "" ∨ 2 < 0).
Proof.
  split; [by vm_compute|]. split; [by vm_compute|].
  apply (Book_init_spec "b1" "" "Auth" "tech" 2 2 0).
Defined.

(** ** Restocking and removing books *)

Lemma add_book_restock book existing L :
  books L !! item_id book = Some existing →
  add_book book L
  = with_books
      (<[item_id book :=
           mkBook (item_id existing) (title existing) (author existing)
             (genre existing) (total_copies existing + total_copies book)
             (_available_copies existing + _available_copies book)
             (borrow_count existing)]> (books L)) L.
Proof. intros He. unfold add_book. by rewrite He. Qed.

Lemma add_book_more more id cur L :
  books L !! id = Some cur →
  Forall (λ b, item_id b = id) more →
  foldl (λ L b, add_book b L) L more
  = with_books
      (<[id := mkBook (item_id cur) (title cur) (author cur) (genre cur)
                 (total_copies cur + sum_Z (total_copies <$> more))
                 (_available_copies cur
                  + sum_Z (_available_copies <$> more))
                 (borrow_count cur)]> (books L)) L.
Proof.
  intros Hcur Hmore. revert cur L Hcur.
  induction Hmore as [|b more Hb Hmore IH]; intros cur L Hcur.
  - simpl. rewrite !Z.add_0_r. destruct L as [bs us q g], cur. simpl in *.
    unfold with_books. simpl. f_equal. by rewrite insert_id.
  - simpl. subst id. rewrite (add_book_restock b cur L Hcur).
    erewrite IH; [|simpl; by rewrite lookup_insert_eq].
    unfold with_books, sum_Z. simpl. rewrite insert_insert_eq.
    f_equal. f_equal. f_equal; symmetry; apply Z.add_assoc.
Qed.

(** X2.  [add_book] restocks.  When a book is added under a new id and then
    further books are added under the same id, in any number, the catalog
    has one record for the id: it has the title, author, genre and
    borrow count of the first book, and its total and its available count
    are the sums over all the books added; the fields of the later books
    other than the two counts are ignored.  No other book changes, no
    user, no request, and the graph gets the node of the id once. *)
Theorem add_book_accumulates (book : Book) (more : list Book) (L : Library) :
  books L !! item_id book = None →
  Forall (λ b, item_id b = item_id book) more →
  foldl (λ L b, add_book b L) (add_book book L) more
  = mkLibrary
      (<[item_id book :=
           mkBook (item_id book) (title book) (author book) (genre book)
             (total_copies book + sum_Z (total_copies <$> more))
             (_available_copies book + sum_Z (_available_copies <$> more))
             (borrow_count book)]> (books L))
      (users L) (borrow_requests L)
      (add_node (book_node (item_id book)) (user_book_graph L)).
Proof.
  intros Hnew Hmore.
  rewrite (add_book_more more (item_id book) book).
  - unfold add_book. rewrite Hnew. unfold with_books, with_graph. simpl.
    by rewrite insert_insert_eq.
  - unfold add_book. rewrite Hnew. simpl. by rewrite lookup_insert_eq.
  - done.
Qed.

(** Two deliveries after the first registration of [b1]: the second one
    names another title, which is ignored. *)
Lemma add_book_accumulates_witness :
  books (foldl (λ L b, add_book b L) (add_book test_b1 Library_init)
           [two_copies; mkBook "b1" "Other" "X" "y" 3 1 9]) !! "b1"
  = Some (mkBook "b1" "A" "Auth" "tech" 6 4 0).
Proof.
  rewrite (add_book_accumulates test_b1
             [two_copies; mkBook "b1" "Other" "X" "y" 3 1 9] Library_init).
  - by vm_compute.
  - done.
  - repeat constructor.
Defined.

(** X3.  [remove_book] answers whether the book was registered, and afterwards
    it is not.  Nothing else is cleaned: users, their borrowed sets and
    histories, the queue and the graph stay as they were.  From then on
    [borrow_book] and [return_book] for that id return [False] for every
    user and change nothing, also for a user who still has the id in the
    borrowed set. *)
Theorem remove_book_no_cascade (bid : string) (L : Library) :
  let L' := (remove_book bid L).2 in
  (remove_book bid L).1 = bool_decide (is_Some (books L !! bid))
  ∧ books L' = delete bid (books L)
  ∧ users L' = users L
  ∧ borrow_requests L' = borrow_requests L
  ∧ user_book_graph L' = user_book_graph L
  ∧ ∀ uid, borrow_book uid bid L' = (Ok false, L')
           ∧ return_book uid bid L' = (Ok false, L').
Proof.
  cbv zeta.
  assert (books (remove_book bid L).2 = delete bid (books L)) as Hb.
  { unfold remove_book. destruct (books L !! bid) eqn:E; simpl; [done|].
    by rewrite delete_id. }
  split_and!; try done.
  - unfold remove_book. by destruct (books L !! bid).
  - unfold remove_book. by destruct (books L !! bid).
  - unfold remove_book. by destruct (books L !! bid).
  - unfold remove_book. by destruct (books L !! bid).
  - intros uid. unfold borrow_book, return_book.
    rewrite Hb, lookup_delete_eq.
    by destruct (users (remove_book bid L).2 !! uid).
Qed.

(** ** What the operations keep *)

Lemma return_book_true_inv uid bid L :
  (return_book uid bid L).1 = Ok true →
  ∃ user book, users L !! uid = Some user ∧ books L !! bid = Some book
               ∧ bid ∈ borrowed_books user
               ∧ _available_copies book < total_copies book.
Proof.
  unfold return_book.
  destruct (users L !! uid) as [user|]; [|done].
  destruct (books L !! bid) as [book|]; [|done].
  destruct (decide (bid ∈ borrowed_books user)) as [Hin|Hnin].
  - rewrite bool_decide_eq_true_2 by done. simpl.
    destruct (Z.le_gt_cases (total_copies book) (_available_copies book)).
    + by rewrite return_one_raises.
    + intros _. exists user, book. split_and!; (done || lia).
  - by rewrite bool_decide_eq_false_2.
Qed.

Lemma return_book_cases uid bid L :
  (return_book uid bid L).2 = L
  ∨ ∃ user book, users L !! uid = Some user ∧ books L !! bid = Some book
      ∧ bid ∈ borrowed_books user
      ∧ _available_copies book < total_copies book
      ∧ return_book uid bid L =
          (Ok true,
           mkLibrary
             (<[bid := mkBook (item_id book) (title book) (author book)
                         (genre book) (total_copies book)
                         (_available_copies book + 1) (borrow_count book)]>
                (books L))
             (<[uid := mkUser (user_id user) (name user) (interests user)
                         (borrowed_books user ∖ {[bid]}) (history user)]>
                (users L))
             (borrow_requests L) (user_book_graph L)).
Proof.
  destruct ((return_book uid bid L).1) as [[]|e] eqn:Ht.
  - right. apply return_book_true_inv in Ht as (user&book&Hu&Hb&Hin&Hlt).
    exists user, book. split_and!; try done. by apply return_book_success.
  - left. apply return_book_state. by rewrite Ht.
  - left. apply return_book_state. by rewrite Ht.
Qed.

Lemma borrow_book_cases uid bid L :
  (borrow_book uid bid L).2 = L
  ∨ ∃ user book, users L !! uid = Some user ∧ books L !! bid = Some book
      ∧ 0 < _available_copies book
      ∧ borrow_book uid bid L =
          (Ok true,
           mkLibrary
             (<[bid := mkBook (item_id book) (title book) (author book)
                         (genre book) (total_copies book)
                         (_available_copies book - 1) (borrow_count book + 1)]>
                (books L))
             (<[uid := mkUser (user_id user) (name user) (interests user)
                         ({[bid]} ∪ borrowed_books user)
                         (history user ++ [bid])]> (users L))
             (borrow_requests L)
             (add_edge (user_node uid) (book_node bid) (user_book_graph L))).
Proof.
  destruct (borrow_book_returns uid bid L) as [[] Hr].
  - right. apply borrow_book_true_iff in Hr as (user&book&Hu&Hb&Hlt).
    exists user, book. split_and!; try done. by apply borrow_book_success.
  - left. by apply borrow_book_false_unchanged.
Qed.

Lemma process_next_borrow_cases L :
  ∃ q, (process_next_borrow L).2 = with_borrow_requests q L
       ∨ ∃ uid bid,
           (process_next_borrow L).2
           = (borrow_book uid bid (with_borrow_requests q L)).2.
Proof.
  unfold process_next_borrow. destruct (negb _).
  - exists (borrow_requests L). left. by rewrite with_borrow_requests_id.
  - destruct (dequeue _) as [[[uid bid]|e] q]; exists q.
    + right. by exists uid, bid.
    + by left.
Qed.

Lemma user_grows_refl u : user_grows u u.
Proof. by split_and!. Qed.

Lemma user_grows_trans u1 u2 u3 :
  user_grows u1 u2 → user_grows u2 u3 → user_grows u1 u3.
Proof.
  intros (?&?&?&?) (?&?&?&?). split_and!; try congruence. by etrans.
Qed.

Lemma borrow_book_user_grows uid bid L id u :
  users L !! id = Some u →
  ∃ u', users (borrow_book uid bid L).2 !! id = Some u' ∧ user_grows u u'.
Proof.
  intros Hu. destruct (borrow_book_cases uid bid L)
    as [->|(user&book&Hu'&Hb&Hlt&->)].
  - exists u. split; [done|apply user_grows_refl].
  - simpl. destruct (decide (uid = id)) as [->|Hne].
    + rewrite lookup_insert_eq. eexists. split; [done|].
      assert (user = u) as -> by congruence.
      split_and!; try done. simpl. by apply prefix_app_r.
    + rewrite lookup_insert_ne by done. exists u.
      split; [done|apply user_grows_refl].
Qed.

Lemma apply_op_user_grows o L id u :
  users L !! id = Some u →
  ∃ u', users (apply_op o L) !! id = Some u' ∧ user_grows u u'.
Proof.
  intros Hu.
  assert (∃ u', users L !! id = Some u' ∧ user_grows u u') as Hsame
    by (exists u; split; [done|apply user_grows_refl]).
  destruct o as [book|bid|bid updates|user|uid bid|uid bid|uid bid|];
    simpl.
  - unfold add_book. by destruct (books L !! _).
  - unfold remove_book. by destruct (books L !! _).
  - unfold update_book. destruct (books L !! _); [|done].
    destruct (apply_updates _ _) as [[] ?]; done.
  - unfold add_user. destruct (users L !! user_id user) eqn:E; [done|].
    simpl. rewrite lookup_insert_ne by congruence. done.
  - by apply borrow_book_user_grows.
  - destruct (return_book_cases uid bid L)
      as [->|(user&book&Hu'&Hb&Hin&Hlt&->)]; [done|]. simpl.
    destruct (decide (uid = id)) as [->|Hne].
    + rewrite lookup_insert_eq. eexists. split; [done|].
      assert (user = u) as -> by congruence. by split_and!.
    + by rewrite lookup_insert_ne.
  - done.
  - destruct (process_next_borrow_cases L) as [q [->|(uid&bid&->)]]; [done|].
    by apply borrow_book_user_grows.
Qed.

(** X4.  Users are never removed and never overwritten, and a history is never
    retracted.  Whatever public operations are called, with whatever
    arguments, a registered user stays registered under the same key with
    the same id, name and interests, and with a history that begins with
    the history before the calls. *)
Theorem users_persist (ops : list op) (L : Library) (id : string) (u : User) :
  users L !! id = Some u →
  ∃ u', users (run_ops ops L) !! id = Some u'
        ∧ user_id u' = user_id u ∧ name u' = name u
        ∧ interests u' = interests u
        ∧ history u `prefix_of` history u'.
Proof.
  revert L u. induction ops as [|o ops IH]; intros L u Hu.
  - exists u. by split_and!.
  - destruct (apply_op_user_grows o L id u Hu) as (u1&Hu1&Hg1).
    destruct (IH _ _ Hu1) as (u'&Hu'&Hg2). exists u'. split; [done|].
    by apply (user_grows_trans u u1 u').
Qed.

(** On the test fixture: [u1] survives a second registration under the
    same id, and the removal of a book of the history. *)
Lemma users_persist_witness :
  ∃ u', users (run_ops [OpBorrow "u1" "b1"; OpAddUser test_u3;
                        OpAddUser (mkUser "u1" "Eve" ∅ ∅ []);
                        OpReturn "u1" "b1"; OpRemoveBook "b1"] test_lib)
          !! "u1" = Some u'
        ∧ user_id u' = user_id test_u1 ∧ name u' = name test_u1
        ∧ interests u' = interests test_u1
        ∧ history test_u1 `prefix_of` history u'.
Proof.
  apply (users_persist _ test_lib "u1" test_u1). by vm_compute.
Defined.

Lemma borrow_book_borrowed_in_history uid bid L :
  all_borrowed_in_history L →
  all_borrowed_in_history (borrow_book uid bid L).2.
Proof.
  intros Hinv. destruct (borrow_book_cases uid bid L)
    as [->|(user&book&Hu&Hb&Hlt&->)]; [done|].
  intros id u. simpl. destruct (decide (uid = id)) as [->|Hne].
  - rewrite lookup_insert_eq. intros [= <-] b. simpl.
    specialize (Hinv _ _ Hu b). set_solver.
  - rewrite lookup_insert_ne by done. apply Hinv.
Qed.

Lemma apply_op_borrowed_in_history o L :
  registers_consistent_users o →
  all_borrowed_in_history L → all_borrowed_in_history (apply_op o L).
Proof.
  intros Ho Hinv.
  destruct o as [book|bid|bid updates|user|uid bid|uid bid|uid bid|];
    simpl.
  - unfold add_book. by destruct (books L !! _).
  - unfold remove_book. by destruct (books L !! _).
  - unfold update_book. destruct (books L !! _); [|done].
    destruct (apply_updates _ _) as [[] ?]; done.
  - unfold add_user. destruct (users L !! user_id user) eqn:E; [done|].
    intros id u. simpl. destruct (decide (user_id user = id)) as [->|Hne].
    + rewrite lookup_insert_eq. by intros [= <-].
    + rewrite lookup_insert_ne by done. apply Hinv.
  - by apply borrow_book_borrowed_in_history.
  - destruct (return_book_cases uid bid L)
      as [->|(user&book&Hu&Hb&Hin&Hlt&->)]; [done|].
    intros id u. simpl. destruct (decide (uid = id)) as [->|Hne].
    + rewrite lookup_insert_eq. intros [= <-] b. simpl.
      specialize (Hinv _ _ Hu b). set_solver.
    + rewrite lookup_insert_ne by done. apply Hinv.
  - done.
  - destruct (process_next_borrow_cases L) as [q [->|(uid&bid&->)]]; [done|].
    by apply borrow_book_borrowed_in_history.
Qed.

(** X5.  The invariant of [User].  If every registered user has the borrowed
    books in the history, and the users that are registered later have,
    then after any sequence of public operations every registered user
    has: what is borrowed was recorded in the history. *)
Theorem borrowed_books_in_history (ops : list op) (L : Library) :
  Forall registers_consistent_users ops →
  all_borrowed_in_history L →
  ∀ uid user bid,
    users (run_ops ops L) !! uid = Some user →
    bid ∈ borrowed_books user → bid ∈ history user.
Proof.
  intros Hops. revert L. induction Hops as [|o ops Ho Hops IH]; intros L Hinv.
  - intros uid user bid Hu. by apply (Hinv uid user).
  - simpl. apply IH. by apply apply_op_borrowed_in_history.
Qed.

(** On a library in which [u4], registered with [b1] borrowed and in the
    history, borrows [b1] again. *)
Lemma borrowed_books_in_history_witness :
  ∃ user,
    users (run_ops [OpAddBook test_b1; OpAddUser test_u1;
                    OpBorrow "u1" "b1"; OpReturn "u1" "b1";
                    OpAddUser (mkUser "u4" "D" ∅ {["b1"]} ["b1"]);
                    OpBorrow "u4" "b1"; OpRemoveBook "b1"] Library_init)
      !! "u4" = Some user
    ∧ "b1" ∈ history user.
Proof.
  exists (mkUser "u4" "D" ∅ ({["b1"]} ∪ {["b1"]}) ["b1"; "b1"]).
  split; [by vm_compute|].
  apply (borrowed_books_in_history
           [OpAddBook test_b1; OpAddUser test_u1;
            OpBorrow "u1" "b1"; OpReturn "u1" "b1";
            OpAddUser (mkUser "u4" "D" ∅ {["b1"]} ["b1"]);
            OpBorrow "u4" "b1"; OpRemoveBook "b1"] Library_init) with "u4".
  - repeat first [apply Forall_nil | apply Forall_cons; split];
      try exact I; intros bid; unfold test_u1; simpl; set_solver.
  - intros uid user. unfold Library_init. simpl. by rewrite lookup_empty.
  - by vm_compute.
  - simpl. set_solver.
Defined.

Lemma borrow_book_all_copies_ok uid bid L :
  all_copies_ok L → all_copies_ok (borrow_book uid bid L).2.
Proof.
  intros Hinv id b Hb.
  destruct (borrow_book_cases uid bid L)
    as [Heq|(user&book&Hu&Hb'&Hlt&Heq)]; rewrite Heq in Hb; [by eapply Hinv|].
  simpl in Hb. destruct (decide (bid = id)) as [->|Hne].
  - rewrite lookup_insert_eq in Hb. injection Hb as <-.
    specialize (Hinv _ _ Hb'). unfold copies_ok in *. simpl. lia.
  - rewrite lookup_insert_ne in Hb by done. by eapply Hinv.
Qed.

Lemma apply_op_all_copies_ok o L :
  keeps_copies o → all_copies_ok L → all_copies_ok (apply_op o L).
Proof.
  intros Ho Hinv.
  destruct o as [book|bid|bid updates|user|uid bid|uid bid|uid bid|];
    simpl.
  - unfold add_book. destruct (books L !! item_id book) as [existing|] eqn:E.
    + intros id b. simpl. destruct (decide (item_id book = id)) as [->|Hne].
      * rewrite lookup_insert_eq. intros [= <-].
        specialize (Hinv _ _ E). simpl in Ho.
        unfold copies_ok in *. simpl. lia.
      * rewrite lookup_insert_ne by done. apply Hinv.
    + intros id b. simpl. destruct (decide (item_id book = id)) as [->|Hne].
      * rewrite lookup_insert_eq. by intros [= <-].
      * rewrite lookup_insert_ne by done. apply Hinv.
  - unfold remove_book. destruct (books L !! bid) as [removed|] eqn:E;
      [|done].
    intros id b. simpl. intros [_ Hb]%lookup_delete_Some. by eapply Hinv.
  - unfold update_book. destruct (books L !! bid) as [book|] eqn:E; [|done].
    destruct (apply_updates_copies updates book Ho) as [Ht Ha].
    destruct (apply_updates updates book) as [r book'].
    assert (all_copies_ok (with_books (<[bid := book']> (books L)) L)).
    { intros id b. simpl. destruct (decide (bid = id)) as [->|Hne].
      - rewrite lookup_insert_eq. intros [= <-]. specialize (Hinv _ _ E).
        unfold copies_ok in *. simpl in Ht, Ha. lia.
      - rewrite lookup_insert_ne by done. apply Hinv. }
    by destruct r.
  - unfold add_user. by destruct (users L !! _).
  - by apply borrow_book_all_copies_ok.
  - destruct (return_book_cases uid bid L)
      as [->|(user&book&Hu&Hb&Hin&Hlt&->)]; [done|].
    intros id b. simpl. destruct (decide (bid = id)) as [->|Hne].
    + rewrite lookup_insert_eq. intros [= <-]. specialize (Hinv _ _ Hb).
      unfold copies_ok in *. simpl. lia.
    + rewrite lookup_insert_ne by done. apply Hinv.
  - done.
  - destruct (process_next_borrow_cases L) as [q [->|(uid&bid&->)]]; [done|].
    by apply borrow_book_all_copies_ok.
Qed.

(** X6.  The invariant of [Book] in the catalog.  From a library all of whose
    books satisfy [0 <= available_copies <= total_copies], every sequence
    of public operations leads to such a library again, as long as the
    books that are added satisfy it and [update_book] is not used to
    assign [total_copies] or [_available_copies]. *)
Theorem catalog_copies_ok (ops : list op) (L : Library) :
  Forall keeps_copies ops →
  all_copies_ok L →
  ∀ bid book,
    books (run_ops ops L) !! bid = Some book →
    0 <= _available_copies book <= total_copies book.
Proof.
  intros Hops. revert L. induction Hops as [|o ops Ho Hops IH]; intros L Hinv.
  - intros bid book Hb. by apply (Hinv bid book).
  - simpl. apply IH. by apply apply_op_all_copies_ok.
Qed.

(** On a library in which [b1] is added twice, borrowed, renamed, waited
    for and returned. *)
Lemma catalog_copies_ok_witness :
  ∃ book,
    books (run_ops [OpAddBook two_copies; OpAddBook two_copies;
                    OpAddUser test_u1; OpBorrow "u1" "b1";
                    OpUpdateBook "b1" [kw_title "T"; kw_borrow_count 7];
                    OpEnqueue "u1" "b1"; OpProcessNext; OpReturn "u1" "b1";
                    OpRemoveBook "b2"] Library_init) !! "b1" = Some book
    ∧ 0 <= _available_copies book <= total_copies book.
Proof.
  eexists. split; [by vm_compute|].
  apply (catalog_copies_ok
           [OpAddBook two_copies; OpAddBook two_copies;
            OpAddUser test_u1; OpBorrow "u1" "b1";
            OpUpdateBook "b1" [kw_title "T"; kw_borrow_count 7];
            OpEnqueue "u1" "b1"; OpProcessNext; OpReturn "u1" "b1";
            OpRemoveBook "b2"] Library_init) with "b1".
  - repeat first [apply Forall_nil | apply Forall_cons; split];
      try exact I; try reflexivity;
      unfold keeps_copies, copies_ok, two_copies; simpl; lia.
  - intros bid book. unfold Library_init. simpl. by rewrite lookup_empty.
  - by vm_compute.
Defined.

(** ** The linked queue as a first-in first-out list *)

Lemma queue_step_refines {T : Type} (c : queue_call T) q items :
  queue_repr q items →
  (queue_step c q).1 = (fifo_step c items).1
  ∧ queue_repr (queue_step c q).2 (fifo_step c items).2.
Proof.
  intros Hq. destruct c as [value| | | |]; simpl.
  - split; [done|]. by apply enqueue_repr.
  - destruct items as [|value rest].
    + rewrite (dequeue_empty _ Hq). by split.
    + destruct (dequeue_repr _ _ _ Hq) as [-> Hr]. by split.
  - rewrite (peek_repr _ _ Hq). by destruct items.
  - split; [|done]. unfold queue_len. by destruct Hq as [_ ->].
  - rewrite (queue_bool_repr _ _ Hq). by destruct items.
Qed.

Lemma queue_run_refines {T : Type} (calls : list (queue_call T)) q items :
  queue_repr q items →
  (queue_run calls q).1 = (fifo_run calls items).1
  ∧ queue_repr (queue_run calls q).2 (fifo_run calls items).2.
Proof.
  revert q items. induction calls as [|c calls IH]; intros q items Hq.
  - by split.
  - destruct (queue_step_refines c q items Hq) as [Ha Hq'].
    destruct (IH _ _ Hq') as [Has Hq'']. simpl. by rewrite Ha, Has.
Qed.

(** X7.  The linked queue is a first-in first-out list.  Whatever sequence of
    [enqueue], [dequeue], [peek], [len] and [bool] is run on a new queue,
    each call answers what it answers on the list of the values that were
    enqueued and not yet dequeued, oldest first: [dequeue] and [peek] give
    the oldest value and raise [IndexError] when there is none, [len] gives
    the number of values, [bool] tells whether there is one.  Afterwards
    the chain of nodes from [_head] to [_tail] holds exactly that list. *)
Theorem queue_is_fifo {T : Type} (calls : list (queue_call T)) :
  (queue_run calls LinkedListQueue_init).1 = (fifo_run calls []).1
  ∧ queue_repr (queue_run calls LinkedListQueue_init).2
      (fifo_run calls []).2.
Proof. apply queue_run_refines, queue_repr_init. Qed.

Example queue_is_fifo_example :
  (queue_run [CallDequeue; CallEnqueue 1; CallEnqueue 2; CallPeek;
              CallDequeue; CallLen; CallDequeue; CallBool; CallEnqueue 3;
              CallDequeue; CallDequeue] LinkedListQueue_init).1
  = [AnswerValue (Raise IndexError); AnswerNone; AnswerNone;
     AnswerValue (Ok 1); AnswerValue (Ok 1); AnswerInt 1;
     AnswerValue (Ok 2); AnswerBool false; AnswerNone; AnswerValue (Ok 3);
     AnswerValue (Raise IndexError)].
Proof. by vm_compute. Qed.

(** ** The snapshot of the waitlist *)

Lemma chain_length {T : Type} (nodes : list (Node T)) a items tail :
  addresses_increase nodes →
  chain nodes (Some a) items tail →
  (a + length items <= length nodes)%nat.
Proof.
  intros Hinc H. remember (Some a) as head eqn:Hh. revert a Hh.
  induction H as [|a' v Ha|a' v b items tail Ha H IH]; intros a Hh; [done|..];
    injection Hh as <-.
  - apply lookup_lt_Some in Ha. simpl. lia.
  - specialize (IH b eq_refl). specialize (Hinc _ _ _ Ha eq_refl). simpl. lia.
Qed.

Lemma walk_chain_chain {T : Type} fuel (nodes : list (Node T)) head items
    tail acc :
  chain nodes head items tail →
  (length items <= fuel)%nat →
  walk_chain fuel nodes head acc = Some (acc ++ items).
Proof.
  intros H. revert fuel acc.
  induction H as [|a v Ha|a v b items tail Ha H IH]; intros fuel acc Hf.
  - destruct fuel; simpl; by rewrite app_nil_r.
  - destruct fuel; simpl in *; [lia|]. rewrite Ha. simpl. by destruct fuel.
  - destruct fuel; simpl in *; [lia|]. rewrite Ha. simpl.
    rewrite IH by lia. by rewrite <- app_assoc.
Qed.

Lemma enqueue_addresses_increase {T : Type} (value : T) q items :
  queue_repr q items → addresses_increase (q_nodes q) →
  addresses_increase (q_nodes (enqueue value q)).
Proof.
  intros [Hc _] Hinc. unfold enqueue.
  assert (addresses_increase (q_nodes q ++ [mkNode value None])) as Hinc'.
  { intros a n b [Ha|[Hl Ha]]%lookup_app_Some Hn; [by eapply Hinc|].
    apply list_lookup_singleton_Some in Ha as [_ <-]. done. }
  destruct (_tail q) as [t|] eqn:Ht; simpl; [|done].
  destruct (chain_tail _ _ _ _ Hc) as [v Hv].
  pose proof (lookup_lt_Some _ _ _ Hv) as Hlt.
  intros a n b Ha Hn. destruct (decide (a = t)) as [->|Hne].
  - rewrite list_lookup_alter_eq, lookup_app_l, Hv in Ha by done.
    injection Ha as <-. simpl in Hn. injection Hn as <-. done.
  - rewrite list_lookup_alter_ne in Ha by done. by eapply Hinc'.
Qed.

Lemma dequeue_nodes {T : Type} (q : LinkedListQueue T) :
  q_nodes (dequeue q).2 = q_nodes q.
Proof.
  unfold dequeue. destruct (_head q); [|done]. by destruct (q_nodes q !! _).
Qed.

Lemma apply_op_queue_nodes o L items :
  queue_repr (borrow_requests L) items →
  addresses_increase (q_nodes (borrow_requests L)) →
  addresses_increase (q_nodes (borrow_requests (apply_op o L))).
Proof.
  intros Hq Hinc.
  destruct o as [book|bid|bid updates|user|uid bid|uid bid|uid bid|];
    simpl.
  - unfold add_book. by destruct (books L !! _).
  - unfold remove_book. by destruct (books L !! _).
  - unfold update_book. destruct (books L !! _); [|done].
    destruct (apply_updates _ _) as [[] ?]; done.
  - unfold add_user. by destruct (users L !! _).
  - by rewrite borrow_book_queue.
  - by return_book_paths.
  - by eapply enqueue_addresses_increase.
  - unfold process_next_borrow. destruct (negb _); [done|].
    pose proof (dequeue_nodes (borrow_requests L)) as Hn.
    destruct (dequeue _) as [[[uid bid]|e] q]; simpl in Hn.
    + rewrite borrow_book_queue. simpl. by rewrite Hn.
    + simpl. by rewrite Hn.
Qed.

Lemma run_ops_queue_ok ops L items :
  queue_repr (borrow_requests L) items →
  addresses_increase (q_nodes (borrow_requests L)) →
  ∃ items', queue_repr (borrow_requests (run_ops ops L)) items'
            ∧ addresses_increase (q_nodes (borrow_requests (run_ops ops L))).
Proof.
  revert L items. induction ops as [|o ops IH]; intros L items Hq Hinc.
  - by exists items.
  - simpl. destruct (apply_op_queue_repr o L) as [items1 Hq1]; [by eexists|].
    eapply IH; [done|]. by eapply apply_op_queue_nodes.
Qed.

Lemma borrow_requests_as_list_repr L items :
  queue_repr (borrow_requests L) items →
  addresses_increase (q_nodes (borrow_requests L)) →
  _borrow_requests_as_list L = Some items.
Proof.
  intros [Hc Hs] Hinc. unfold _borrow_requests_as_list.
  rewrite (walk_chain_chain _ _ _ items _ [] Hc); [done|].
  destruct (_head (borrow_requests L)) as [a|] eqn:Hh.
  - pose proof (chain_length _ _ _ _ Hinc Hc). lia.
  - inversion Hc. simpl. lia.
Qed.

Lemma enqueue_all_run_ops requests L :
  enqueue_all requests L
  = run_ops (map (λ r, OpEnqueue r.1 r.2) requests) L.
Proof.
  revert L. induction requests as [|r requests IH]; intros L; [done|].
  unfold enqueue_all, run_ops in *. simpl. by rewrite IH.
Qed.

Lemma enqueue_all_as_list requests L items :
  queue_repr (borrow_requests L) items →
  addresses_increase (q_nodes (borrow_requests L)) →
  _borrow_requests_as_list (enqueue_all requests L)
  = Some (items ++ requests).
Proof.
  intros Hq Hinc. rewrite enqueue_all_run_ops.
  destruct (run_ops_queue_ok (map (λ r, OpEnqueue r.1 r.2) requests)
              L items Hq Hinc) as (items'&Hq'&Hinc').
  rewrite (borrow_requests_as_list_repr _ _ Hq' Hinc'). f_equal.
  destruct (enqueue_all_repr requests _ _ Hq) as [Hq2 _].
  rewrite enqueue_all_run_ops in Hq2.
  by eapply queue_repr_functional.
Qed.

(** X8.  [_borrow_requests_as_list] lists the waitlist, oldest request first.
    In every library reached from the empty one by public operations the
    walk along the nodes ends and gives the pending requests in the order
    in which [process_next_borrow] will take them; and after further
    requests are enqueued it gives the same list with these at its end. *)
Theorem borrow_requests_as_list_fifo (ops : list op)
    (requests : list (string * string)) :
  let L := run_ops ops Library_init in
  ∃ items,
    _borrow_requests_as_list L = Some items
    ∧ queue_repr (borrow_requests L) items
    ∧ _borrow_requests_as_list (enqueue_all requests L)
      = Some (items ++ requests).
Proof.
  cbv zeta.
  destruct (run_ops_queue_ok ops Library_init []) as (items&Hq&Hinc).
  { apply queue_repr_init. }
  { intros a n b. simpl. by rewrite lookup_nil. }
  exists items. split; [by apply borrow_requests_as_list_repr|].
  split; [done|]. by apply enqueue_all_as_list.
Qed.

(** ** The graph as built by its methods *)

Lemma add_node_neighbors node n g :
  neighbors n (add_node node g) = neighbors n g.
Proof.
  unfold neighbors at 1. destruct (decide (node = n)) as [->|Hne].
  - by rewrite add_node_lookup.
  - by rewrite add_node_lookup_ne.
Qed.

Lemma add_edge_neighbors a b n g :
  neighbors n (add_edge a b g)
  = if decide (a = b) then neighbors n g
    else if decide (n = a) then {[b]} ∪ neighbors a g
    else if decide (n = b) then {[a]} ∪ neighbors b g
    else neighbors n g.
Proof.
  destruct (decide (a = b)) as [->|Hne].
  { unfold add_edge. by rewrite decide_True. }
  unfold neighbors at 1. destruct (decide (n = a)) as [->|Ha].
  { by rewrite add_edge_lookup_l. }
  destruct (decide (n = b)) as [->|Hb].
  { by rewrite add_edge_lookup_r. }
  by rewrite add_edge_lookup_ne.
Qed.

Lemma add_edge_lookup a b n g :
  add_edge a b g !! n
  = if decide (a = b) then g !! n
    else if decide (n = a) then Some ({[b]} ∪ neighbors a g)
    else if decide (n = b) then Some ({[a]} ∪ neighbors b g)
    else g !! n.
Proof.
  destruct (decide (a = b)) as [->|Hne].
  { unfold add_edge. by rewrite decide_True. }
  destruct (decide (n = a)) as [->|Ha].
  { by rewrite add_edge_lookup_l. }
  destruct (decide (n = b)) as [->|Hb].
  { by rewrite add_edge_lookup_r. }
  by rewrite add_edge_lookup_ne.
Qed.

Lemma neighbors_empty n : neighbors n empty_graph = ∅.
Proof. unfold neighbors, empty_graph. by rewrite lookup_empty. Qed.

(** X9.  A graph that was built by [add_node] and [add_edge] alone is a simple
    undirected graph: whatever the calls, [b] is among the neighbours of
    [a] exactly when [a] is among those of [b], no node is its own
    neighbour, every neighbour is itself a node of the graph, and two
    nodes are neighbours exactly when some call [add_edge] named the two,
    in either order, as different nodes. *)
Theorem graph_built_undirected (calls : list graph_call) (a b : string) :
  let g := graph_run calls empty_graph in
  (b ∈ neighbors a g ↔ a ∈ neighbors b g)
  ∧ (a ∉ neighbors a g)
  ∧ (b ∈ neighbors a g → graph_contains a g = true ∧ graph_contains b g = true)
  ∧ (b ∈ neighbors a g ↔
       a ≠ b ∧ (CallAddEdge a b ∈ calls ∨ CallAddEdge b a ∈ calls)).
Proof.
  cbv zeta.
  assert (∀ calls0 g0,
            (∀ x y, y ∈ neighbors x g0 ↔
               x ≠ y ∧ (CallAddEdge x y ∈ calls0 ∨ CallAddEdge y x ∈ calls0)) →
            graph_closed g0 →
            let g := graph_run calls g0 in
            (∀ x y, y ∈ neighbors x g ↔
               x ≠ y ∧ (CallAddEdge x y ∈ calls0 ++ calls
                        ∨ CallAddEdge y x ∈ calls0 ++ calls))
            ∧ graph_closed g) as Hgen.
  { clear a b. induction calls as [|c calls IH]; intros calls0 g0 Hn Hc.
    - simpl. by rewrite app_nil_r.
    - simpl. unfold graph_run in *. simpl.
      replace (calls0 ++ c :: calls) with ((calls0 ++ [c]) ++ calls)
        by by rewrite <- app_assoc.
      apply IH.
      + intros x y. destruct c as [node|a b]; simpl.
        * rewrite add_node_neighbors, Hn. set_solver.
        * rewrite add_edge_neighbors.
          repeat case_decide; subst; rewrite ?elem_of_union, ?Hn;
            rewrite ?elem_of_singleton, !elem_of_app, !list_elem_of_singleton;
            naive_solver.
      + destruct c; simpl; [by apply graph_closed_add_node|].
        by apply graph_closed_add_edge. }
  destruct (Hgen [] empty_graph) as [Hn Hc].
  { intros x y. rewrite neighbors_empty. set_solver. }
  { apply graph_closed_empty. }
  simpl in Hn. split_and!.
  - rewrite !Hn. naive_solver.
  - rewrite Hn. naive_solver.
  - intros Hb. unfold graph_contains.
    assert (a ∈ neighbors b (graph_run calls empty_graph)) as Ha.
    { apply Hn. apply Hn in Hb. naive_solver. }
    split; apply bool_decide_eq_true.
    + revert Ha. unfold neighbors at 1.
      destruct (graph_run calls empty_graph !! b) eqn:E; simpl; [|set_solver].
      intros Ha. by eapply Hc.
    + revert Hb. unfold neighbors at 1.
      destruct (graph_run calls empty_graph !! a) eqn:E; simpl; [|set_solver].
      intros Hb. by eapply Hc.
  - apply Hn.
Qed.

(** X10.  [add_node] and [add_edge] only ever add: calling either twice with the
    same arguments is calling it once, the order of the two ends of an edge
    does not matter, an edge from a node to itself is no edge, and two
    calls, in either order, build the same graph. *)
Theorem graph_calls_commute (c d : graph_call) (g : Graph) :
  graph_step (graph_step g c) c = graph_step g c
  ∧ graph_step (graph_step g c) d = graph_step (graph_step g d) c
  ∧ (∀ a b, add_edge a b g = add_edge b a g)
  ∧ (∀ a, add_edge a a g = g).
Proof.
  assert (∀ node n (h : Graph),
            add_node node h !! n
            = if decide (n = node) then Some (neighbors node h) else h !! n)
    as Hnode.
  { intros node n h. case_decide as E; [subst; apply add_node_lookup|].
    by apply add_node_lookup_ne. }
  split_and!.
  - apply map_eq. intros n. destruct c as [node|a b]; simpl.
    + rewrite !Hnode. case_decide; [|done]. by rewrite add_node_neighbors.
    + rewrite !add_edge_lookup, !add_edge_neighbors.
      repeat case_decide; subst; try done; f_equal; set_solver.
  - apply map_eq. intros n.
    destruct c as [node|a b], d as [node'|a' b']; simpl;
      rewrite ?Hnode, ?add_edge_lookup, ?Hnode, ?add_node_neighbors,
        ?add_edge_neighbors;
      repeat case_decide; subst; try done; f_equal; set_solver.
  - intros a b. apply map_eq. intros n. rewrite !add_edge_lookup.
    repeat case_decide; subst; done.
  - intros a. unfold add_edge. by rewrite decide_True.
Qed.

(** ** The interaction graph and the histories *)

Lemma user_node_inj uid1 uid2 : user_node uid1 = user_node uid2 → uid1 = uid2.
Proof. unfold user_node. cbn. by intros [= ?]. Qed.

Lemma book_node_inj bid1 bid2 : book_node bid1 = book_node bid2 → bid1 = bid2.
Proof. unfold book_node. cbn. by intros [= ?]. Qed.

Lemma borrow_book_edges_are_history uid bid L :
  edges_are_history L → edges_are_history (borrow_book uid bid L).2.
Proof.
  intros Hinv.
  destruct (borrow_book_cases uid bid L) as [->|(user&book&Hu&Hb&Hlt&->)];
    [done|].
  pose proof (user_node_ne_book_node uid bid) as Hub.
  intros u b. destruct (Hinv u b) as [H1 H2]. simpl.
  rewrite !add_edge_neighbors.
  rewrite !(decide_False (P := user_node uid = book_node bid)) by done.
  assert ((∃ user0,
             <[uid:=mkUser (user_id user) (name user) (interests user)
                      ({[bid]} ∪ borrowed_books user)
                      (history user ++ [bid])]> (users L) !! u = Some user0
             ∧ b ∈ history user0)
          ↔ (u = uid ∧ b = bid)
            ∨ ∃ user0, users L !! u = Some user0 ∧ b ∈ history user0) as ->.
  { destruct (decide (u = uid)) as [->|Hne].
    - rewrite lookup_insert_eq. split.
      + intros (?&[= <-]&Hin). simpl in Hin.
        apply elem_of_app in Hin as [Hin|Hin]; [by eauto|].
        apply list_elem_of_singleton in Hin as ->. by left.
      + intros [[_ ->]|(user0&Hu0&Hin)]; eexists; (split; [done|]); simpl.
        * set_solver.
        * rewrite Hu in Hu0. injection Hu0 as <-. set_solver.
    - rewrite lookup_insert_ne by done. naive_solver. }
  split.
  - case_decide as Eu; [apply user_node_inj in Eu as ->|].
    + rewrite elem_of_union, elem_of_singleton, H1. split.
      * intros [->%book_node_inj|?]; eauto.
      * intros [[_ ->]|?]; eauto.
    + rewrite decide_False
        by (intros E; by apply user_node_ne_book_node in E).
      rewrite H1. naive_solver.
  - case_decide as Eb; [symmetry in Eb; by apply user_node_ne_book_node in Eb|].
    case_decide as Eb'; [apply book_node_inj in Eb' as ->|].
    + rewrite elem_of_union, elem_of_singleton, H2. split.
      * intros [->%user_node_inj|?]; eauto.
      * intros [[-> _]|?]; eauto.
    + rewrite H2. naive_solver.
Qed.

Lemma apply_op_edges_are_history o L :
  registers_new_users o →
  edges_are_history L → edges_are_history (apply_op o L).
Proof.
  intros Ho Hinv.
  destruct o as [book|bid|bid updates|user|uid bid|uid bid|uid bid|];
    simpl.
  - unfold add_book. destruct (books L !! _); [done|].
    intros u b. simpl. rewrite !add_node_neighbors. apply Hinv.
  - unfold remove_book. by destruct (books L !! _).
  - unfold update_book. destruct (books L !! _); [|done].
    destruct (apply_updates _ _) as [[] ?]; done.
  - unfold add_user. destruct (users L !! user_id user) eqn:Hu; [done|].
    simpl in Ho. intros u b. simpl. rewrite !add_node_neighbors.
    destruct (Hinv u b) as [H1 H2]. rewrite H1, H2.
    destruct (decide (u = user_id user)) as [->|Hne].
    + rewrite lookup_insert_eq, Hu. split; split; intros (?&Heq&Hin);
        try done; injection Heq as <-; rewrite Ho in Hin;
        by apply elem_of_nil in Hin.
    + by rewrite lookup_insert_ne.
  - by apply borrow_book_edges_are_history.
  - destruct (return_book_cases uid bid L) as [->|(user&book&Hu&Hb&Hin&Hlt&->)];
      [done|].
    intros u b. simpl. destruct (Hinv u b) as [H1 H2]. rewrite H1, H2.
    destruct (decide (u = uid)) as [->|Hne].
    + rewrite lookup_insert_eq, Hu. split; split; intros (?&[= <-]&?); eauto.
    + by rewrite lookup_insert_ne.
  - done.
  - destruct (process_next_borrow_cases L) as [q [->|(uid&bid&->)]]; [done|].
    by apply borrow_book_edges_are_history.
Qed.

(** X11.  The interaction graph records exactly the borrows on record.  In a
    library built from the empty one by public operations, with users
    registered before their first borrow (an empty history), there is an
    edge between [user:u] and [book:b], seen from either end, if and only
    if [u] is a registered user whose history has [b].  Returning a book
    or removing it from the catalog removes no edge. *)
Theorem graph_edges_are_history (ops : list op) (uid bid : string) :
  Forall registers_new_users ops →
  let L := run_ops ops Library_init in
  (book_node bid ∈ neighbors (user_node uid) (user_book_graph L) ↔
     ∃ user, users L !! uid = Some user ∧ bid ∈ history user)
  ∧ (user_node uid ∈ neighbors (book_node bid) (user_book_graph L) ↔
     ∃ user, users L !! uid = Some user ∧ bid ∈ history user).
Proof.
  intros Hops. cbv zeta.
  assert (∀ L, edges_are_history L → edges_are_history (run_ops ops L)) as H.
  { induction Hops as [|o ops Ho Hops IH]; intros L HL; [done|].
    simpl. apply IH. by apply apply_op_edges_are_history. }
  apply H. intros u b. simpl. rewrite !neighbors_empty, lookup_empty.
  split; split; try set_solver; by intros (?&?&?).
Qed.

(** On a library in which [u1] borrowed [b1], returned it, and [b1] was
    then removed: the edge stays. *)
Lemma graph_edges_are_history_witness :
  let L := run_ops [OpAddBook test_b1; OpAddUser test_u1; OpBorrow "u1" "b1";
                    OpReturn "u1" "b1"; OpRemoveBook "b1"] Library_init in
  "book:b1" ∈ neighbors "user:u1" (user_book_graph L)
  ∧ books L !! "b1" = None.
Proof.
  cbv zeta. split; [|by vm_compute].
  refine (proj2 (proj1 (graph_edges_are_history
    [OpAddBook test_b1; OpAddUser test_u1; OpBorrow "u1" "b1";
     OpReturn "u1" "b1"; OpRemoveBook "b1"] "u1" "b1" _)) _).
  - repeat first [apply Forall_nil | apply Forall_cons; split]; done.
  - eexists. split; [by vm_compute|]. simpl. set_solver.
Defined.

(** ** The borrow and return entries of the menu *)

(** X12.  [_return_book] hands the returned copy to the user who waited longest
    for it.  If [uid] holds [bid] and the oldest request of the waitlist is
    one of a registered user [uid2] for the same book, then the call
    returns the copy and lends it again at once: both messages are
    printed, the request is gone from the waitlist and the others keep
    their order, the book has as many available copies as before and one
    more borrow, [uid2] holds the book with it at the end of the history,
    and [uid] (when another user) holds it no more. *)
Theorem return_serves_oldest_request (uid bid uid2 : string)
    (rest : list (string * string)) (L : Library) (user user2 : User)
    (book : Book) :
  users L !! uid = Some user → books L !! bid = Some book →
  bid ∈ borrowed_books user →
  0 <= _available_copies book < total_copies book →
  users L !! uid2 = Some user2 →
  queue_repr (borrow_requests L) ((uid2, bid) :: rest) →
  ∃ L',
    _return_book uid bid L
    = (([ui_success "Returned.";
         ui_info "A queued request has been processed."], Ok tt), L')
    ∧ queue_repr (borrow_requests L') rest
    ∧ books L' !! bid
      = Some (mkBook (item_id book) (title book) (author book) (genre book)
                (total_copies book) (_available_copies book)
                (borrow_count book + 1))
    ∧ (∀ other, other ≠ bid → books L' !! other = books L !! other)
    ∧ (∃ holder, users L' !! uid2 = Some holder
                 ∧ bid ∈ borrowed_books holder
                 ∧ history holder = history user2 ++ [bid])
    ∧ (uid ≠ uid2 →
       ∃ user', users L' !! uid = Some user'
                ∧ borrowed_books user' = borrowed_books user ∖ {[bid]}
                ∧ history user' = history user).
Proof.
  intros Hu Hb Hin Hav Hu2 Hq. unfold _return_book.
  rewrite (return_book_success uid bid L user book) by (done || lia).
  set (L1 := mkLibrary _ _ _ _).
  destruct (process_next_borrow_front uid2 bid rest L1 Hq) as (q&Hq'&->).
  assert (∃ user2', users L1 !! uid2 = Some user2'
                    ∧ history user2' = history user2) as (user2'&Hu2'&Hh).
  { subst L1. simpl. destruct (decide (uid2 = uid)) as [->|Hne].
    - rewrite lookup_insert_eq. eexists. split; [done|]. simpl. congruence.
    - rewrite lookup_insert_ne by done. by eexists. }
  rewrite (borrow_book_success uid2 bid L1 user2'
             (mkBook (item_id book) (title book) (author book) (genre book)
                (total_copies book) (_available_copies book + 1)
                (borrow_count book))); [|done|..].
  2: { subst L1. simpl. by rewrite lookup_insert_eq. }
  2: { simpl. lia. }
  simpl. eexists. split; [done|]. simpl. split_and!.
  - done.
  - rewrite lookup_insert_eq. do 2 f_equal. lia.
  - intros other Hne. by rewrite !lookup_insert_ne.
  - rewrite lookup_insert_eq. eexists. split; [done|]. simpl.
    split; [set_solver|by rewrite Hh].
  - intros Hne. rewrite lookup_insert_ne, lookup_insert_eq by done.
    by eexists.
Qed.

(** On [waiting_lib]: [u1] returns the only copy of [b1] and [u2], who
    waited for it, gets it. *)
Lemma return_serves_oldest_request_witness :
  ∃ L',
    _return_book "u1" "b1" waiting_lib
    = (([ui_success "Returned.";
         ui_info "A queued request has been processed."], Ok tt), L')
    ∧ queue_repr (borrow_requests L') []
    ∧ books L' !! "b1" = Some (mkBook "b1" "A" "Auth" "tech" 1 0 2).
Proof.
  destruct (return_serves_oldest_request "u1" "b1" "u2" [] waiting_lib
              (mkUser "u1" "User1" {["tech"]} {["b1"]} ["b1"]) test_u2
              (mkBook "b1" "A" "Auth" "tech" 1 0 1))
    as (L'&Hr&Hq&Hb&_).
  - by vm_compute.
  - by vm_compute.
  - simpl. set_solver.
  - simpl. lia.
  - by vm_compute.
  - apply (enqueue_repr ("u2", "b1") LinkedListQueue_init []).
    apply queue_repr_init.
  - exists L'. by split_and!.
Defined.

(** X13.  [_return_book] serves the oldest request only, whatever it asks for.
    If that request cannot be served (its user or its book is unknown, or
    it asks for a book without an available copy), the call still returns
    the copy, prints [Returned.] alone, and takes the request from the
    waitlist for good: the library is as after [return_book] alone except
    that the oldest request is gone, so the returned copy stays available
    even if later requests of the waitlist ask for it. *)
Theorem return_drops_unserved_request (uid bid uid2 bid2 : string)
    (rest : list (string * string)) (L : Library) (user : User)
    (book : Book) :
  users L !! uid = Some user → books L !! bid = Some book →
  bid ∈ borrowed_books user →
  _available_copies book < total_copies book →
  queue_repr (borrow_requests L) ((uid2, bid2) :: rest) →
  users L !! uid2 = None
  ∨ books L !! bid2 = None
  ∨ (bid2 ≠ bid
     ∧ ∃ book2, books L !! bid2 = Some book2 ∧ _available_copies book2 <= 0)
  ∨ (bid2 = bid ∧ _available_copies book < 0) →
  ∃ q,
    _return_book uid bid L
    = (([ui_success "Returned."], Ok tt),
       with_borrow_requests q (return_book uid bid L).2)
    ∧ queue_repr q rest
    ∧ (∃ book', books (return_book uid bid L).2 !! bid = Some book'
                ∧ _available_copies book' = _available_copies book + 1).
Proof.
  intros Hu Hb Hin Hav Hq Hno. unfold _return_book.
  rewrite (return_book_success uid bid L user book) by done.
  set (L1 := mkLibrary _ _ _ _).
  destruct (process_next_borrow_front uid2 bid2 rest L1 Hq) as (q&Hq'&->).
  assert ((borrow_book uid2 bid2 L1).1 = Ok false) as Hfalse.
  { destruct (borrow_book_returns uid2 bid2 L1) as [[] Hok]; [|done].
    apply borrow_book_true_iff in Hok as (user2&book2&Hu2&Hb2&Hlt).
    exfalso. subst L1. simpl in Hu2, Hb2.
    destruct Hno as [Hno|[Hno|[[Hne (b2&Hb2'&Hle)]|[-> Hneg]]]].
    - destruct (decide (uid2 = uid)) as [->|Hne]; [congruence|].
      rewrite lookup_insert_ne in Hu2 by done. congruence.
    - destruct (decide (bid2 = bid)) as [->|Hne]; [congruence|].
      rewrite lookup_insert_ne in Hb2 by done. congruence.
    - rewrite lookup_insert_ne in Hb2 by done.
      rewrite Hb2' in Hb2. injection Hb2 as <-. lia.
    - rewrite lookup_insert_eq in Hb2. injection Hb2 as <-. simpl in Hlt. lia. }
  rewrite Hfalse, (borrow_book_false_unchanged _ _ _ Hfalse). simpl.
  exists q. split_and!; [done..|].
  rewrite lookup_insert_eq. by eexists.
Qed.

(** On [waiting_for_unknown_lib]: the oldest request names a book that is
    not in the catalog; it is dropped, and the request of [u2] for the
    returned [b1] stays in the waitlist. *)
Lemma return_drops_unserved_request_witness :
  ∃ q,
    _return_book "u1" "b1" waiting_for_unknown_lib
    = (([ui_success "Returned."], Ok tt),
       with_borrow_requests q (return_book "u1" "b1" waiting_for_unknown_lib).2)
    ∧ queue_repr q [("u2", "b1")].
Proof.
  destruct (return_drops_unserved_request "u1" "b1" "u2" "b9" [("u2", "b1")]
              waiting_for_unknown_lib
              (mkUser "u1" "User1" {["tech"]} {["b1"]} ["b1"])
              (mkBook "b1" "A" "Auth" "tech" 1 0 1))
    as (q&Hr&Hq&_).
  - by vm_compute.
  - by vm_compute.
  - simpl. set_solver.
  - simpl. lia.
  - apply (enqueue_repr ("u2", "b1") _ [("u2", "b9")]).
    apply (enqueue_repr ("u2", "b9") LinkedListQueue_init []).
    apply queue_repr_init.
  - right. left. by vm_compute.
  - exists q. by split.
Defined.

(** X14.  [_borrow_book] lends or puts on the waitlist, never both, and only for
    known users and books.  For an unknown user or book it prints an error
    and changes nothing, the waitlist included.  For a known user and book
    it lends a copy as [borrow_book] does and leaves the waitlist alone if
    the book has an available copy; otherwise books, users and graph stay
    as they are and the request goes to the end of the waitlist.  The call
    never raises. *)
Theorem borrow_or_wait (uid bid : string) (L : Library)
    (items : list (string * string)) :
  queue_repr (borrow_requests L) items →
  let call := _borrow_book uid bid L in
  call.1.2 = Ok tt
  ∧ match users L !! uid, books L !! bid with
    | Some user, Some book =>
        if decide (0 < _available_copies book) then
          call = (([ui_success "Borrowed."], Ok tt), (borrow_book uid bid L).2)
          ∧ (borrow_book uid bid L).1 = Ok true
          ∧ queue_repr (borrow_requests call.2) items
        else
          call.1.1 = [ui_info "Book not available. Added to borrow queue."]
          ∧ call.2 = with_borrow_requests (borrow_requests call.2) L
          ∧ queue_repr (borrow_requests call.2) (items ++ [(uid, bid)])
    | _, _ => call.2 = L ∧ ∃ text, call.1.1 = [ui_error text]
    end.
Proof.
  intros Hq. cbv zeta. unfold _borrow_book.
  destruct (users L !! uid) as [user|] eqn:Hu; simpl; [|by eauto].
  destruct (books L !! bid) as [book|] eqn:Hb; simpl; [|by eauto].
  case_decide as Hlt.
  - rewrite (borrow_book_success uid bid L user book) by done. simpl.
    by split_and!.
  - destruct (borrow_book_returns uid bid L) as [[] Hok].
    + apply borrow_book_true_iff in Hok as (?&?&?&?&?). exfalso.
      simplify_eq. lia.
    + pose proof (borrow_book_false_unchanged _ _ _ Hok) as HL.
      destruct (borrow_book uid bid L) as [r L1]. simpl in Hok, HL. subst.
      simpl. split_and!; try done. by apply enqueue_repr.
Qed.

(** On [borrowed_lib]: [u1] asks again for [b1], whose only copy is out,
    and is put on the waitlist. *)
Lemma borrow_or_wait_witness :
  let call := _borrow_book "u1" "b1" borrowed_lib in
  call.1.1 = [ui_info "Book not available. Added to borrow queue."]
  ∧ queue_repr (borrow_requests call.2) [("u1", "b1")].
Proof.
  cbv zeta.
  pose proof (borrow_or_wait "u1" "b1" borrowed_lib [] queue_repr_init)
    as [_ H].
  exact (conj (proj1 H) (proj2 (proj2 H))).
Defined.

(** ** Sorting *)

Lemma insert_by_perm {A K : Type} (lt : K → K → bool) (key : A → K) x l :
  insert_by lt key x l ≡ₚ x :: l.
Proof.
  induction l as [|y l IH]; simpl; [done|].
  destruct (lt (key y) (key x)); [|done].
  rewrite IH. apply Permutation_swap.
Qed.

Lemma sorted_by_perm {A K : Type} (lt : K → K → bool) (key : A → K) l :
  sorted_by lt key l ≡ₚ l.
Proof.
  induction l as [|x l IH]; simpl; [done|].
  unfold sorted_by in *. simpl. by rewrite insert_by_perm, IH.
Qed.

Section SortedBy.

Context {A K : Type} (lt : K → K → bool) (key : A → K).
Hypothesis lt_asym : ∀ a b, lt a b = true → lt b a = false.
Hypothesis le_trans : ∀ a b c, lt b a = false → lt c b = false → lt c a = false.

Lemma insert_by_sorted x l :
  StronglySorted (λ a b, lt (key b) (key a) = false) l →
  StronglySorted (λ a b, lt (key b) (key a) = false) (insert_by lt key x l).
Proof.
  induction 1 as [|y l Hl IH Hy]; simpl.
  - by repeat constructor.
  - destruct (lt (key y) (key x)) eqn:E.
    + constructor; [done|]. rewrite insert_by_perm.
      constructor; [by apply lt_asym|done].
    + constructor; [by constructor|]. constructor; [done|].
      eapply Forall_impl; [exact Hy|]. intros z Hz. simpl in Hz.
      by eapply le_trans.
Qed.

Lemma sorted_by_sorted l :
  StronglySorted (λ a b, lt (key b) (key a) = false) (sorted_by lt key l).
Proof.
  induction l as [|x l IH]; [constructor|].
  unfold sorted_by in *. simpl. by apply insert_by_sorted.
Qed.

End SortedBy.

Lemma strongly_sorted_impl {A : Type} (R1 R2 : A → A → Prop) l :
  (∀ a b, R1 a b → R2 a b) → StronglySorted R1 l → StronglySorted R2 l.
Proof.
  intros HR. induction 1 as [|x l Hl IH Hx]; constructor; [done|].
  eapply Forall_impl; [exact Hx|]. apply HR.
Qed.

Lemma sorted_by_stable {A K : Type} `{EqDecision K} (lt : K → K → bool)
    (key : A → K) (c : K) l :
  (∀ a, lt a a = false) →
  filter (λ a, key a = c) (sorted_by lt key l) = filter (λ a, key a = c) l.
Proof.
  intros Hirr.
  assert (∀ x l, filter (λ a, key a = c) (insert_by lt key x l)
                 = filter (λ a, key a = c) (x :: l)) as Hins.
  { intros x l0. induction l0 as [|y l0 IH]; simpl; [done|].
    destruct (lt (key y) (key x)) eqn:E; [|done].
    rewrite filter_cons, IH, !filter_cons.
    destruct (decide (key y = c)) as [Hy|Hy]; [|done].
    destruct (decide (key x = c)) as [Hx|Hx]; [|done].
    rewrite Hy, Hx, Hirr in E. done. }
  induction l as [|x l IH]; [done|].
  unfold sorted_by in *. simpl. by rewrite Hins, !filter_cons, IH.
Qed.

(** ** The order of strings *)

Lemma string_ltb_asym a b : String.ltb a b = true → String.ltb b a = false.
Proof.
  unfold String.ltb. rewrite (String.compare_antisym a b).
  by destruct (String.compare b a).
Qed.

Lemma string_ltb_lt a b :
  String.ltb a b = true ↔ OrderedTypeEx.String_as_OT.lt a b.
Proof.
  rewrite <- OrderedTypeEx.String_as_OT.cmp_lt.
  unfold String.ltb, OrderedTypeEx.String_as_OT.cmp.
  by destruct (String.compare a b).
Qed.

Lemma string_ltb_trans a b c :
  String.ltb a b = true → String.ltb b c = true → String.ltb a c = true.
Proof.
  rewrite !string_ltb_lt. apply OrderedTypeEx.String_as_OT.lt_trans.
Qed.

Lemma string_ltb_total a b :
  String.ltb a b = false → String.ltb b a = false → a = b.
Proof.
  unfold String.ltb. rewrite (String.compare_antisym a b).
  destruct (String.compare b a) eqn:E; simpl; try done.
  intros _ _. symmetry. by apply String.compare_eq_iff.
Qed.

Lemma string_ltb_irrefl a : String.ltb a a = false.
Proof.
  destruct (String.ltb a a) eqn:E; [|done].
  by rewrite (string_ltb_asym _ _ E) in E.
Qed.

Lemma string_le_trans a b c :
  String.ltb b a = false → String.ltb c b = false → String.ltb c a = false.
Proof.
  intros Hab Hbc. destruct (String.ltb c a) eqn:Hca; [|done].
  destruct (String.ltb a b) eqn:E1.
  - by rewrite (string_ltb_trans _ _ _ Hca E1) in Hbc.
  - pose proof (string_ltb_total _ _ E1 Hab) as ->. congruence.
Qed.

Lemma title_author_lt_asym a b :
  title_author_lt a b = true → title_author_lt b a = false.
Proof.
  unfold title_author_lt. destruct a as [a1 a2], b as [b1 b2]. simpl.
  rewrite (String.eqb_sym b1 a1).
  destruct (String.eqb a1 b1); simpl; apply string_ltb_asym.
Qed.

Lemma title_author_le_trans a b c :
  title_author_lt b a = false → title_author_lt c b = false →
  title_author_lt c a = false.
Proof.
  unfold title_author_lt. destruct a as [a1 a2], b as [b1 b2], c as [c1 c2].
  simpl.
  destruct (String.eqb_spec b1 a1) as [->|Hba]; simpl.
  - destruct (String.eqb_spec c1 a1) as [->|Hca]; simpl; [|done].
    apply string_le_trans.
  - intros Hab. destruct (String.eqb_spec c1 b1) as [->|Hcb]; simpl.
    + intros _. by rewrite (proj2 (String.eqb_neq _ _) Hba).
    + intros Hbc. destruct (String.eqb_spec c1 a1) as [->|Hca]; simpl.
      * exfalso. apply Hba. by apply string_ltb_total.
      * by eapply string_le_trans.
Qed.

(** ** Substrings *)

Lemma prefix_occurs a b :
  String.prefix a b = true ↔ ∃ after, b = a +:+ after.
Proof.
  revert a. induction b as [|d b IH]; intros [|c a]; simpl.
  - split; [by exists ""|done].
  - split; [done|by intros [? ?]].
  - split; [by eexists|done].
  - destruct (Ascii.ascii_dec c d) as [->|Hne].
    + rewrite IH. split; intros [after H]; exists after.
      * change (String d b = String d (a +:+ after)). by f_equal.
      * change (String d b = String d (a +:+ after)) in H. by injection H.
    + split; [done|]. intros [after H].
      change (String d b = String c (a +:+ after)) in H. congruence.
Qed.

Lemma str_contains_unfold a b :
  str_contains a b
  = (String.prefix a b
     || match b with
        | EmptyString => false
        | String _ rest => str_contains a rest
        end)%bool.
Proof. by destruct b. Qed.

Lemma str_contains_occurs a b : str_contains a b = true ↔ occurs_in a b.
Proof.
  unfold occurs_in. induction b as [|d b IH]; rewrite str_contains_unfold.
  - rewrite orb_false_r, prefix_occurs. split.
    + intros [after H]. by exists "", after.
    + intros ([|? ?]&after&H); [by exists after|done].
  - rewrite orb_true_iff, IH, prefix_occurs. split.
    + intros [[after H]|(before&after&H)].
      * by exists "", after.
      * exists (String d before), after.
        change (String d b = String d (before +:+ a +:+ after)).
        by rewrite H.
    + intros ([|d' before]&after&H).
      * left. by exists after.
      * right. exists before, after.
        change (String d b = String d' (before +:+ a +:+ after)) in H.
        congruence.
Qed.

Lemma lower_lower s : lower (lower s) = lower s.
Proof.
  induction s as [|c s IH]; simpl; [done|]. rewrite IH. f_equal.
  unfold lower_ascii.
  destruct c as [[] [] [] [] [] [] [] []]; by vm_compute.
Qed.

Section QueriesSpec.

Variable books_order : gmap string Book → list Book.
Hypothesis books_order_values :
  ∀ bs, books_order bs ≡ₚ (map_to_list bs).*2.

Lemma books_order_elem bs b :
  b ∈ books_order bs ↔ ∃ key, bs !! key = Some b.
Proof.
  rewrite books_order_values, list_elem_of_fmap. split.
  - intros ([key b']&->&H%elem_of_map_to_list). by exists key.
  - intros [key H]. exists (key, b). by rewrite elem_of_map_to_list.
Qed.

(** X15.  [search_books], for a catalog and criteria in ASCII, finds the books
    of the catalog that meet every criterion that was given, and only
    those: the criterion on the title (on the author) holds when the text
    occurs somewhere in the title (the author) of the book, the one on
    the genre when the text is the whole genre, all three without regard
    to the case of letters.  So no criterion finds every book, and the
    case of the letters of a criterion never changes what is found. *)
Theorem search_books_spec (by_title by_author by_genre : option string)
    (L : Library) (b : Book) :
  ascii_catalog L →
  ascii_criterion by_title → ascii_criterion by_author →
  ascii_criterion by_genre →
  (b ∈ search_books books_order by_title by_author by_genre L ↔
     (∃ key, books L !! key = Some b)
     ∧ (∀ t, by_title = Some t → occurs_in (lower t) (lower (title b)))
     ∧ (∀ a, by_author = Some a → occurs_in (lower a) (lower (author b)))
     ∧ (∀ g, by_genre = Some g → lower g = lower (genre b)))
  ∧ search_books books_order None None None L = books_order (books L)
  ∧ search_books books_order (lower <$> by_title) (lower <$> by_author)
      (lower <$> by_genre) L
    = search_books books_order by_title by_author by_genre L.
Proof.
  intros _ _ _ _. split_and!.
  - unfold search_books. rewrite list_elem_of_filter, books_order_elem.
    unfold search_match.
    destruct by_title as [t|], by_author as [a|], by_genre as [g|]; simpl;
      rewrite ?andb_true_iff, ?str_contains_occurs, ?String.eqb_eq;
      naive_solver.
  - unfold search_books, search_match. simpl.
    induction (books_order (books L)) as [|x l IH]; [done|].
    rewrite filter_cons. simpl. by rewrite IH.
  - unfold search_books. apply list_filter_iff. intros x.
    unfold search_match.
    destruct by_title, by_author, by_genre; simpl; by rewrite ?lower_lower.
Qed.

(** X16.  [top_k_books] gives the [k] most borrowed books of the catalog, the
    most borrowed first: the result and the books it leaves out make up
    the catalog, none that is left out was borrowed more often than one
    that is listed, the list has [k] books or all of them if there are
    fewer (none for [k <= 0]), and books borrowed equally often keep the
    order of the catalog. *)
Theorem top_k_books_spec (k : Z) (L : Library) :
  let top := top_k_books books_order k L in
  (∃ others,
     top ++ others ≡ₚ books_order (books L)
     ∧ ∀ a b, a ∈ top → b ∈ others → borrow_count b <= borrow_count a)
  ∧ StronglySorted (λ a b, borrow_count b <= borrow_count a) top
  ∧ length top = (Z.to_nat k `min` size (books L))%nat
  ∧ (∀ a, a ∈ top → ∃ key, books L !! key = Some a)
  ∧ (∀ n, filter (λ b, borrow_count b = n) top
          `prefix_of` filter (λ b, borrow_count b = n)
                        (books_order (books L))).
Proof.
  cbv zeta. unfold top_k_books.
  set (sorted := sorted_by (λ a b : Z, b <? a) borrow_count
                   (books_order (books L))).
  assert (StronglySorted (λ a b, borrow_count b <= borrow_count a) sorted)
    as Hsorted.
  { eapply (strongly_sorted_impl
              (λ a b, (borrow_count a <? borrow_count b) = false)).
    - intros a b H. by apply Z.ltb_ge.
    - apply (sorted_by_sorted (λ a b : Z, b <? a) borrow_count); intros; lia. }
  assert (sorted ≡ₚ books_order (books L)) as Hperm
    by apply sorted_by_perm.
  assert (length (books_order (books L)) = size (books L)) as Hsize.
  { rewrite books_order_values, length_fmap. apply length_map_to_list. }
  assert (length sorted = size (books L)) as Hlen.
  { by rewrite <- Hsize, Hperm. }
  assert (∀ n, filter (λ b, borrow_count b = n) sorted
               = filter (λ b, borrow_count b = n) (books_order (books L)))
    as Hstable.
  { intros n. apply (sorted_by_stable (λ a b : Z, b <? a)). intros; lia. }
  destruct (k <=? 0) eqn:Hk.
  - apply Z.leb_le in Hk. split_and!.
    + exists (books_order (books L)). split; [done|]. set_solver.
    + constructor.
    + simpl. lia.
    + set_solver.
    + intros n. apply prefix_nil.
  - rewrite <- (take_drop (Z.to_nat k) sorted) in Hsorted, Hperm, Hstable.
    split_and!.
    + exists (drop (Z.to_nat k) sorted). split; [done|].
      intros a b Ha Hb.
      by apply (StronglySorted_app_1_elem_of _ _ _ _ _ Hsorted).
    + by eapply StronglySorted_app_1_l.
    + by rewrite length_take, Hlen.
    + intros a Ha. apply books_order_elem. rewrite <- Hperm. set_solver.
    + intros n. rewrite <- Hstable, filter_app. by eexists.
Qed.

(** X17.  [available_books], for a catalog in ASCII, lists exactly the books
    of the catalog with an available copy, each as often as the catalog
    has it, ordered by title and then by author without regard to the
    case of letters; books with the same title and author (up to case)
    keep the order of the catalog. *)
Theorem available_books_spec (L : Library) :
  ascii_catalog L →
  let listed := available_books books_order L in
  listed ≡ₚ filter (λ b, 0 < _available_copies b) (books_order (books L))
  ∧ (∀ b, b ∈ listed ↔
          (∃ key, books L !! key = Some b) ∧ 0 < _available_copies b)
  ∧ StronglySorted
      (λ a b, String.ltb (lower (title a)) (lower (title b)) = true
              ∨ (lower (title a) = lower (title b)
                 ∧ String.ltb (lower (author b)) (lower (author a)) = false))
      listed
  ∧ (∀ key, filter (λ b, title_author_key b = key) listed
            = filter (λ b, title_author_key b = key)
                (filter (λ b, 0 < _available_copies b)
                   (books_order (books L)))).
Proof.
  intros _. cbv zeta. unfold available_books. split_and!.
  - apply sorted_by_perm.
  - intros b. rewrite sorted_by_perm, list_elem_of_filter, books_order_elem.
    unfold available_copies. naive_solver.
  - eapply strongly_sorted_impl;
      [|apply (sorted_by_sorted title_author_lt title_author_key)].
    + intros a b. unfold title_author_lt, title_author_key. simpl.
      destruct (String.eqb_spec (lower (title b)) (lower (title a)))
        as [->|Hne]; simpl.
      * auto.
      * intros Hlt. left.
        destruct (String.ltb (lower (title a)) (lower (title b))) eqn:E;
          [done|]. exfalso. apply Hne. by apply string_ltb_total.
    + apply title_author_lt_asym.
    + apply title_author_le_trans.
  - intros key. apply (sorted_by_stable title_author_lt).
    intros [a1 a2]. unfold title_author_lt. simpl.
    rewrite String.eqb_refl. simpl. apply string_ltb_irrefl.
Qed.

End QueriesSpec.

(** On the test fixture, with the values iterated in the order of
    [map_to_list]. *)
Lemma search_books_spec_witness :
  test_b1 ∈ search_books values_order (Some "a") None (Some "TECH") test_lib
  ∧ search_books values_order None None None test_lib
    = values_order (books test_lib).
Proof.
  assert (ascii_catalog test_lib) as Hcat
    by (unfold ascii_catalog, ascii_text; apply (bool_decide_unpack _);
        by vm_compute).
  assert (∀ t, ascii_text t → ascii_criterion (Some t)) as Hsome
    by (by intros t Ht ? [= <-]).
  assert (ascii_criterion None) as Hnone by done.
  destruct (search_books_spec values_order (λ bs, reflexivity _)
              (Some "a") None (Some "TECH") test_lib test_b1 Hcat
              (Hsome "a" eq_refl) Hnone (Hsome "TECH" eq_refl))
    as (Hin&_&_).
  destruct (search_books_spec values_order (λ bs, reflexivity _)
              None None None test_lib test_b1 Hcat Hnone Hnone Hnone)
    as (_&Hall&_).
  split; [|exact Hall]. apply Hin. split_and!.
  - by exists "b1".
  - intros t [= <-]. by exists "", "".
  - done.
  - by intros g [= <-].
Defined.

(** On [reco_lib], which has two books. *)
Lemma top_k_books_spec_witness :
  length (top_k_books values_order 1 reco_lib) = 1%nat
  ∧ length (top_k_books values_order 5 reco_lib) = 2%nat
  ∧ top_k_books values_order 0 reco_lib = [].
Proof.
  destruct (top_k_books_spec values_order (λ bs, reflexivity _) 1 reco_lib)
    as (_&_&Hone&_).
  destruct (top_k_books_spec values_order (λ bs, reflexivity _) 5 reco_lib)
    as (_&_&Hfive&_).
  split; [exact Hone|]. split; [exact Hfive|]. done.
Defined.

(** On the test fixture after [u1] borrowed the only copy of [b1]. *)
Lemma available_books_spec_witness :
  test_b2 ∈ available_books values_order (borrow_book "u1" "b1" test_lib).2
  ∧ length (available_books values_order (borrow_book "u1" "b1" test_lib).2)
    = 1%nat.
Proof.
  assert (ascii_catalog (borrow_book "u1" "b1" test_lib).2) as Hcat
    by (unfold ascii_catalog, ascii_text; apply (bool_decide_unpack _);
        by vm_compute).
  destruct (available_books_spec values_order (λ bs, reflexivity _)
              (borrow_book "u1" "b1" test_lib).2 Hcat) as (Hperm&Hin&_).
  split.
  - apply Hin. split; [by exists "b2"|]. simpl. lia.
  - rewrite (Permutation_length Hperm). by vm_compute.
Defined.

(** ** Traversals of graphs built by the methods *)

Lemma graph_run_closed calls g :
  graph_closed g → graph_closed (graph_run calls g).
Proof.
  revert g. induction calls as [|c calls IH]; intros g Hg; [done|].
  unfold graph_run in *. simpl. apply IH.
  destruct c; simpl; [by apply graph_closed_add_node|].
  by apply graph_closed_add_edge.
Qed.

Lemma bfs_returns set_order g start max_depth :
  (∀ s x, x ∈ set_order s ↔ x ∈ s) →
  graph_closed g → 0 <= max_depth →
  ∃ order,
    bfs set_order start max_depth g = Some (Ok order)
    ∧ ∀ n d, (n, d) ∈ order → 0 <= d <= max_depth ∧ is_Some (g !! n).
Proof.
  intros Hso Hclosed Hdepth. unfold bfs.
  destruct (g !! start) as [adj|] eqn:Hs.
  - destruct (bfs_loop_inv set_order Hso g start max_depth Hclosed
                (bfs_fuel g) {[start]} [(start, 0)] [] 0)
      as (visited&order&Hrun&Hinv).
    { by eapply bfs_inv_initial. }
    { unfold bfs_fuel. lia. }
    exists order. split; [done|]. intros n d Hin.
    destruct (inv_path _ _ _ _ _ _ _ Hinv n d Hin) as (?&_&?). done.
  - exists []. split; [done|]. intros n d Hin. by apply elem_of_nil in Hin.
Qed.

Lemma bfs_shallow set_order g start max_depth :
  is_Some (g !! start) → max_depth <= 0 →
  bfs set_order start max_depth g = Some (Ok [(start, 0)]).
Proof.
  intros [adj Hs] Hdepth. unfold bfs, bfs_fuel. rewrite Hs.
  assert (size (graph_names g) ≠ 0%nat) as Hsize.
  { intros Hz. apply size_empty_inv in Hz.
    assert (start ∈ graph_names g) as Hin.
    { unfold graph_names. apply elem_of_union. left. by apply elem_of_dom. }
    set_solver. }
  destruct (size (graph_names g)) as [|fuel]; [done|].
  cbn [bfs_loop]. simpl. by destruct (Z.leb_spec max_depth 0); [|lia].
Qed.

(** X18.  [bfs] never fails on a graph that was built by [add_node] and
    [add_edge]: for every start and every [max_depth], negative ones
    included, the loop ends and returns a list, the lookup
    [self._adj[node]] finding its key at every turn.  The list is empty
    for a start that is not a node, it is the start alone at depth 0 when
    [max_depth <= 0], and it holds only nodes of the graph, at depths
    from 0 to [max_depth]. *)
Theorem bfs_on_built_graph (set_order : gset string → list string)
    (calls : list graph_call) (start : string) (max_depth : Z) :
  (∀ s x, x ∈ set_order s ↔ x ∈ s) →
  let g := graph_run calls empty_graph in
  ∃ order,
    bfs set_order start max_depth g = Some (Ok order)
    ∧ (graph_contains start g = false → order = [])
    ∧ (graph_contains start g = true → max_depth <= 0 →
       order = [(start, 0)])
    ∧ (∀ n d, (n, d) ∈ order →
              graph_contains n g = true ∧ 0 <= d ∧ d <= 0 `max` max_depth).
Proof.
  intros Hso. cbv zeta. set (g := graph_run calls empty_graph).
  assert (graph_closed g) as Hclosed
    by apply graph_run_closed, graph_closed_empty.
  unfold graph_contains.
  destruct (Z.le_gt_cases max_depth 0) as [Hle|Hgt].
  - destruct (g !! start) as [adj|] eqn:Hs.
    + exists [(start, 0)].
      rewrite bfs_shallow by (done || (rewrite Hs; by eexists)).
      split; [done|]. split.
      { intros H%bool_decide_eq_false. by destruct H. }
      split; [done|].
      intros n d [= -> ->]%list_elem_of_singleton.
      rewrite Hs. split; [by apply bool_decide_eq_true|lia].
    + exists []. unfold bfs. rewrite Hs.
      split; [done|]. split; [done|]. split.
      { intros H%bool_decide_eq_true. by destruct H. }
      intros n d Hin. by apply elem_of_nil in Hin.
  - destruct (bfs_returns set_order g start max_depth Hso Hclosed)
      as (order&Hrun&Hin); [lia|].
    exists order. split; [done|]. split.
    { intros Hs%bool_decide_eq_false. unfold bfs in Hrun.
      destruct (g !! start); [by destruct Hs|]. by injection Hrun as <-. }
    split; [lia|].
    intros n d Hnd. destruct (Hin n d Hnd) as [? ?].
    split; [by apply bool_decide_eq_true|lia].
Qed.

(** With [max_depth = -1] on a graph of two calls. *)
Lemma bfs_on_built_graph_witness :
  ∃ order,
    bfs elements "user:u1" (-1)
      (graph_run [CallAddNode "book:b3"; CallAddEdge "user:u1" "book:b1"]
         empty_graph) = Some (Ok order)
    ∧ order = [("user:u1", 0)].
Proof.
  destruct (bfs_on_built_graph elements
              [CallAddNode "book:b3"; CallAddEdge "user:u1" "book:b1"]
              "user:u1" (-1)) as (order&Hrun&_&Hone&_).
  - intros s x. apply elem_of_elements.
  - exists order. split; [done|]. apply Hone; [by vm_compute|lia].
Defined.

(** ** What is recommended *)

Lemma scores_set_keys (Q : string → Prop) key v d :
  Q key → Forall (λ e : string * float, Q e.1) d →
  Forall (λ e : string * float, Q e.1) (scores_set key v d).
Proof.
  intros Hkey. induction 1 as [|[k w] d Hk Hd IH]; simpl.
  - by repeat constructor.
  - destruct (String.eqb k key); constructor; done.
Qed.

Lemma score_node_keys L uid user scores entry scores' :
  Forall (λ e : string * float, e.1 ∉ borrowed_books user) scores →
  score_node L uid user (Ok scores) entry = Ok scores' →
  Forall (λ e : string * float, e.1 ∉ borrowed_books user) scores'.
Proof.
  intros Hs. unfold score_node. destruct entry as [node depth].
  destruct (_ && _)%bool; [|by intros [= <-]].
  case_bool_decide as Hin; [by intros [= <-]|].
  destruct (books L !! after_colon node) as [book|]; [|by intros [= <-]].
  destruct (float_of_int (1 + depth)); [|done].
  destruct (popularity book); [|done].
  intros [= <-]. by apply (scores_set_keys (λ k, k ∉ borrowed_books user)).
Qed.

Lemma score_fallback_keys user scores b scores' :
  Forall (λ e : string * float, e.1 ∉ borrowed_books user) scores →
  score_fallback user (Ok scores) b = Ok scores' →
  Forall (λ e : string * float, e.1 ∉ borrowed_books user) scores'.
Proof.
  intros Hs. unfold score_fallback.
  case_bool_decide as Hin; [by intros [= <-]|].
  destruct (popularity b); [|done].
  destruct (PrimFloat.ltb _ _); intros [= <-]; [|done].
  by apply (scores_set_keys (λ k, k ∉ borrowed_books user)).
Qed.

Lemma foldl_scores_keys {E : Type} (step : result (list (string * float)) → E →
                                           result (list (string * float)))
    (Q : string → Prop) entries scores scores' :
  (∀ acc e, step (Raise acc) e = Raise acc) →
  (∀ s e s', Forall (λ x : string * float, Q x.1) s → step (Ok s) e = Ok s' →
             Forall (λ x : string * float, Q x.1) s') →
  Forall (λ x : string * float, Q x.1) scores →
  foldl step (Ok scores) entries = Ok scores' →
  Forall (λ x : string * float, Q x.1) scores'.
Proof.
  intros Hraise Hstep. revert scores.
  induction entries as [|e entries IH]; intros scores Hs; simpl.
  - by intros [= <-].
  - destruct (step (Ok scores) e) as [s1|err] eqn:Hstep1.
    + apply IH. by eapply Hstep.
    + assert (foldl step (Raise err) entries = Raise err) as ->; [|done].
      clear -Hraise. induction entries as [|e1 entries IH]; simpl; [done|].
      by rewrite Hraise.
Qed.

Lemma lookup_books_elem L d pairs b sc :
  lookup_books L d = Ok pairs → (b, sc) ∈ pairs →
  ∃ bid, (bid, sc) ∈ d ∧ books L !! bid = Some b.
Proof.
  revert pairs. induction d as [|[bid0 sc0] d IH]; intros pairs; simpl.
  - intros [= <-] Hin. by apply elem_of_nil in Hin.
  - destruct (books L !! bid0) as [b0|] eqn:Hb; [|done].
    destruct (lookup_books L d) as [l|]; [|done].
    intros [= <-] [[= -> ->]|Hin]%elem_of_cons.
    + exists bid0. split; [by left|done].
    + destruct (IH l eq_refl Hin) as (bid&Hd&Hbid).
      exists bid. split; [by right|done].
Qed.

Lemma slice_to_sublist {A : Type} (k : Z) (xs : list A) x :
  x ∈ slice_to k xs → x ∈ xs.
Proof.
  unfold slice_to. destruct (0 <=? k); intros Hin;
    by eapply subseteq_take.
Qed.

Lemma ranked_for_user_keys set_order books_order L uid user ranked b sc :
  ranked_for_user set_order books_order L uid user = Some (Ok ranked) →
  (b, sc) ∈ ranked →
  ∃ bid, books L !! bid = Some b ∧ bid ∉ borrowed_books user.
Proof.
  unfold ranked_for_user.
  destruct (bfs _ _ _ _) as [[traversal|e]|]; [|done..]. cbv zeta.
  set (Q := λ bid : string, bid ∉ borrowed_books user).
  match goal with
  | |- match ?c with Ok _ => _ | Raise _ => _ end = _ → _ => set (cand := c)
  end.
  assert (∀ scores, cand = Ok scores →
                    Forall (λ x : string * float, Q x.1) scores) as Hkeys.
  { subst cand. intros scores.
    destruct (foldl (score_node L uid user) (Ok []) traversal)
      as [[|e0 s0]|err] eqn:E1; [| |done].
    - apply (foldl_scores_keys (score_fallback user) Q); [done| |done].
      intros s e s'. apply score_fallback_keys.
    - intros [= <-]. revert E1.
      apply (foldl_scores_keys (score_node L uid user) Q); [done| |done].
      intros s e s'. apply score_node_keys. }
  destruct cand as [scores|e]; [|done].
  specialize (Hkeys scores eq_refl).
  destruct (lookup_books L scores) as [pairs|e] eqn:Hl; [|done].
  intros [= <-] Hin. rewrite sorted_by_perm in Hin.
  destruct (lookup_books_elem _ _ _ _ _ Hl Hin) as (bid&Hd&Hbid).
  exists bid. split; [done|].
  rewrite Forall_forall in Hkeys. apply (Hkeys _ Hd).
Qed.

(** X19.  [recommend_for_user] in a library built from the empty one by public
    operations: the call always returns or raises (the traversal never
    fails on the library's graph), an unknown user gets the empty list,
    and whenever a list is returned, it has at most [k] entries for
    [k >= 0], every recommended book is a book of the catalog, and none
    of them is a book the user holds at the moment. *)
Theorem recommend_for_user_sound (set_order : gset string → list string)
    (books_order : gmap string Book → list Book) (ops : list op)
    (uid : string) (k : Z) :
  (∀ s x, x ∈ set_order s ↔ x ∈ s) →
  let L := run_ops ops Library_init in
  ∃ answer,
    recommend_for_user set_order books_order L uid k = Some answer
    ∧ (users L !! uid = None → answer = Ok [])
    ∧ ∀ recs, answer = Ok recs →
        (0 <= k → Z.of_nat (length recs) <= k)
        ∧ ∀ user b sc, users L !! uid = Some user → (b, sc) ∈ recs →
            ∃ bid, books L !! bid = Some b ∧ bid ∉ borrowed_books user.
Proof.
  intros Hso. cbv zeta. set (L := run_ops ops Library_init).
  assert (graph_closed (user_book_graph L)) as Hclosed
    by apply run_ops_graph_closed, graph_closed_empty.
  unfold recommend_for_user.
  destruct (users L !! uid) as [user|] eqn:Hu.
  - destruct (bfs_returns set_order (user_book_graph L) (user_node uid) 3
                Hso Hclosed) as (traversal&Hbfs&_); [lia|].
    destruct (ranked_for_user set_order books_order L uid user)
      as [[ranked|e]|] eqn:Hr.
    + eexists. split; [done|]. split; [done|]. intros recs [= <-]. split.
      * intros Hk. rewrite slice_to_nonneg, length_take by done. lia.
      * intros ? b sc [= <-] Hin%slice_to_sublist.
        by eapply ranked_for_user_keys.
    + eexists. split; [done|]. split; [done|]. done.
    + exfalso. unfold ranked_for_user in Hr. rewrite Hbfs in Hr.
      cbv zeta in Hr.
      match type of Hr with
      | match ?c with Ok _ => _ | Raise _ => _ end = _ =>
          destruct c as [scores|e]; [|done]
      end.
      by destruct (lookup_books L scores).
  - eexists. split; [done|]. split; [done|]. intros recs [= <-].
    split; [simpl; lia|]. done.
Qed.

(** On a library of two books, one of them held by [u1], with [k = 1]. *)
Lemma recommend_for_user_sound_witness :
  ∃ answer,
    recommend_for_user elements values_order
      (run_ops [OpAddBook test_b1; OpAddBook popular_b2; OpAddUser test_u1;
                OpBorrow "u1" "b1"] Library_init) "u1" 1 = Some answer
    ∧ ∀ recs, answer = Ok recs → Z.of_nat (length recs) <= 1.
Proof.
  destruct (recommend_for_user_sound elements values_order
              [OpAddBook test_b1; OpAddBook popular_b2; OpAddUser test_u1;
               OpBorrow "u1" "b1"] "u1" 1) as (answer&Hr&_&Hrecs).
  - intros s x. apply elem_of_elements.
  - exists answer. split; [done|]. intros recs Hok.
    apply (Hrecs recs Hok). lia.
Defined.

(** ** The constructor of [User] *)

Lemma str_is_empty_true s : str_is_empty s = true ↔ s = "".
Proof. by destruct s. Qed.

Lemma str_is_empty_false s : str_is_empty s = false ↔ s ≠ "".
Proof. by destruct s. Qed.

Lemma is_space_lower c : is_space (lower_ascii c) = is_space c.
Proof. destruct c as [[] [] [] [] [] [] [] []]; by vm_compute. Qed.

Lemma lower_ascii_idem c : lower_ascii (lower_ascii c) = lower_ascii c.
Proof. destruct c as [[] [] [] [] [] [] [] []]; by vm_compute. Qed.

Lemma lower_empty s : lower s = "" ↔ s = "".
Proof. by destruct s. Qed.

Lemma lstrip_lower s : lstrip (lower s) = lower (lstrip s).
Proof.
  induction s as [|c s IH]; simpl; [done|].
  rewrite is_space_lower. by destruct (is_space c).
Qed.

Lemma rstrip_lower s : rstrip (lower s) = lower (rstrip s).
Proof.
  induction s as [|c s IH]; simpl; [done|].
  rewrite IH, is_space_lower.
  destruct (rstrip s) as [|d r]; simpl; [|done].
  by destruct (is_space c).
Qed.

Lemma strip_lower s : strip (lower s) = lower (strip s).
Proof. unfold strip. by rewrite lstrip_lower, rstrip_lower. Qed.

Lemma rstrip_idem s : rstrip (rstrip s) = rstrip s.
Proof.
  induction s as [|c s IH]; simpl; [done|].
  destruct (rstrip s) as [|d r] eqn:E; simpl.
  - destruct (is_space c) eqn:Hc; simpl; [done|]. by rewrite Hc.
  - simpl in IH. by rewrite IH.
Qed.

Lemma lstrip_head s :
  lstrip s = "" ∨ ∃ c r, lstrip s = String c r ∧ is_space c = false.
Proof.
  induction s as [|c s IH]; simpl; [by left|].
  destruct (is_space c) eqn:Hc; [done|]. right. by exists c, s.
Qed.

Lemma rstrip_head c r :
  is_space c = false → ∃ r', rstrip (String c r) = String c r'.
Proof.
  intros Hc. simpl. destruct (rstrip r); [|by eexists].
  rewrite Hc. by eexists.
Qed.

Lemma strip_idem s : strip (strip s) = strip s.
Proof.
  unfold strip. destruct (lstrip_head s) as [->|(c&r&->&Hc)]; [done|].
  destruct (rstrip_head c r Hc) as [r' Hr]. rewrite Hr.
  cbn [lstrip]. rewrite Hc, <- Hr. apply rstrip_idem.
Qed.

Lemma elem_of_normalized i s :
  i ∈ normalized s ↔ ∃ x, x ∈ s ∧ strip x ≠ "" ∧ i = lower (strip x).
Proof.
  unfold normalized. rewrite elem_of_map. split.
  - intros (x&->&[Hx Hin]%elem_of_filter). by exists x.
  - intros (x&Hin&Hx&->). exists x. split; [done|]. by apply elem_of_filter.
Qed.

Lemma normalized_fixed i s :
  i ∈ normalized s → strip i = i ∧ lower i = i ∧ i ≠ "".
Proof.
  intros (x&Hin&Hx&->)%elem_of_normalized. split_and!.
  - by rewrite strip_lower, strip_idem.
  - apply lower_lower.
  - by rewrite lower_empty.
Qed.

Lemma normalized_idem s : normalized (normalized s) = normalized s.
Proof.
  apply set_eq. intros i. split.
  - intros (x&Hin&Hx&->)%elem_of_normalized.
    destruct (normalized_fixed _ _ Hin) as (->&->&_). done.
  - intros Hin. apply elem_of_normalized. exists i.
    destruct (normalized_fixed _ _ Hin) as (Hs&Hl&Hne).
    rewrite Hs, Hl. done.
Qed.

Lemma lower_ascii_is_ascii c :
  (Ascii.nat_of_ascii c <? 128)%nat = true →
  (Ascii.nat_of_ascii (lower_ascii c) <? 128)%nat = true.
Proof. destruct c as [[] [] [] [] [] [] [] []]; by vm_compute. Qed.

Lemma lower_is_ascii s : ascii_text s → ascii_text (lower s).
Proof.
  unfold ascii_text. induction s as [|c s IH]; simpl; [done|].
  intros [Hc Hs]%andb_true_iff. apply andb_true_iff.
  split; [by apply lower_ascii_is_ascii|by apply IH].
Qed.

Lemma lstrip_is_ascii s : ascii_text s → ascii_text (lstrip s).
Proof.
  unfold ascii_text. induction s as [|c s IH]; simpl; [done|].
  intros H. destruct (is_space c); [|done].
  apply andb_true_iff in H as [_ Hs]. by apply IH.
Qed.

Lemma rstrip_is_ascii s : ascii_text s → ascii_text (rstrip s).
Proof.
  unfold ascii_text. induction s as [|c s IH]; simpl; [done|].
  intros [Hc Hs]%andb_true_iff. specialize (IH Hs).
  destruct (rstrip s) as [|d r].
  - destruct (is_space c); simpl; [done|]. by rewrite Hc.
  - change (is_ascii (String c (String d r)))
      with ((Ascii.nat_of_ascii c <? 128)%nat && is_ascii (String d r)).
    by rewrite Hc, IH.
Qed.

Lemma strip_is_ascii s : ascii_text s → ascii_text (strip s).
Proof. intros H. by apply rstrip_is_ascii, lstrip_is_ascii. Qed.

Lemma normalized_is_ascii s : ascii_texts s → ascii_texts (normalized s).
Proof.
  intros Hs i (x&Hin&_&->)%elem_of_normalized.
  by apply lower_is_ascii, strip_is_ascii, Hs.
Qed.

(** X20.  [User(...)], for interests in ASCII, raises [ValueError] exactly when
    the id or the name is empty.  Otherwise it returns the user with the
    fields as given except for the interests, which are normalized: an
    interest of the new user is one of those given, stripped of the
    blanks around it and in lower case, and none is empty; they are in
    ASCII again.  Normalizing again changes nothing, so a user built from
    the interests of a user gets the same ones. *)
Theorem User_init_spec (uid nm : string) (given held : gset string)
    (hist : list string) :
  ascii_texts given →
  (User_init uid nm given held hist = Raise ValueError ↔ uid = "" ∨ nm = "")
  ∧ (uid ≠ "" → nm ≠ "" →
     ∃ u, User_init uid nm given held hist = Ok u
          ∧ user_id u = uid ∧ name u = nm ∧ borrowed_books u = held
          ∧ history u = hist
          ∧ (∀ i, i ∈ interests u ↔
                  ∃ x, x ∈ given ∧ strip x ≠ "" ∧ i = lower (strip x))
          ∧ (∀ i, i ∈ interests u → strip i = i ∧ lower i = i ∧ i ≠ "")
          ∧ ascii_texts (interests u)
          ∧ User_init uid nm (interests u) held hist = Ok u).
Proof.
  intros Hascii. unfold User_init.
  destruct (str_is_empty uid) eqn:Hu; simpl.
  { apply str_is_empty_true in Hu.
    split; [split; [intros _; by left|done]|]. by intros ?. }
  destruct (str_is_empty nm) eqn:Hn; simpl.
  { apply str_is_empty_true in Hn.
    split; [split; [intros _; by right|done]|]. by intros _ ?. }
  apply str_is_empty_false in Hu, Hn. split.
  - split; [done|]. by intros [?|?].
  - intros _ _. eexists. split; [done|]. simpl. split_and!; try done.
    + intros i. apply elem_of_normalized.
    + intros i. apply normalized_fixed.
    + by apply normalized_is_ascii.
    + by rewrite normalized_idem.
Qed.

(** On interests with blanks, capitals and a blank entry. *)
Lemma User_init_spec_witness :
  ∃ u, User_init "u1" "Alice" {[" Tech "; "  "; "history"]} ∅ [] = Ok u
       ∧ interests u = {["tech"; "history"]}.
Proof.
  assert (ascii_texts {[" Tech "; "  "; "history"]}) as Hascii.
  { intros x Hx. apply elem_of_union in Hx as [Hx|Hx];
      [apply elem_of_union in Hx as [Hx|Hx]|];
      apply elem_of_singleton in Hx as ->; by vm_compute. }
  destruct (User_init_spec "u1" "Alice" {[" Tech "; "  "; "history"]} ∅ []
              Hascii) as [_ H].
  destruct H as (u&Hu&_); [done..|].
  exists u. split; [done|].
  unfold User_init in Hu. simpl in Hu. injection Hu as <-. simpl.
  apply set_eq. intros i. rewrite elem_of_normalized. split.
  - intros (x&Hx&Hne&->). revert Hne.
    apply elem_of_union in Hx as [Hx|Hx];
      [apply elem_of_union in Hx as [Hx|Hx]|];
      apply elem_of_singleton in Hx as ->; vm_compute; set_solver.
  - intros Hi. apply elem_of_union in Hi as [Hi|Hi];
      apply elem_of_singleton in Hi as ->.
    + exists " Tech ". split; [set_solver|]. by vm_compute.
    + exists "history". split; [set_solver|]. by vm_compute.
Defined.

(** ** Saving and loading *)

Lemma Book_init_ok i t a g total avail count :
  i ≠ "" → t ≠ "" → a ≠ "" → g ≠ "" → 0 <= total →
  Book_init i t a g total avail count
  = Ok (mkBook i t a g total
          (if decide (0 <= avail <= total) then avail else total) count).
Proof.
  intros Hi Ht Ha Hg Htotal. unfold Book_init.
  rewrite (proj2 (str_is_empty_false i)), (proj2 (str_is_empty_false t)),
    (proj2 (str_is_empty_false a)), (proj2 (str_is_empty_false g)) by done.
  simpl. destruct (Z.ltb_spec total 0); [lia|].
  do 2 f_equal.
  destruct (Z.ltb_spec avail 0), (Z.ltb_spec total avail); simpl;
    case_decide; lia.
Qed.

Lemma Book_init_raises i t a g total avail count :
  i = "" ∨ t = "" ∨ a = "" ∨ g = "" ∨ total < 0 →
  ∃ e, Book_init i t a g total avail count = Raise e.
Proof.
  intros H. unfold Book_init.
  destruct (str_is_empty i) eqn:Hi; simpl; [by eexists|].
  destruct (str_is_empty t) eqn:Ht; simpl; [by eexists|].
  destruct (str_is_empty a) eqn:Ha; simpl; [by eexists|].
  destruct (Z.ltb_spec total 0); [by eexists|].
  destruct (str_is_empty g) eqn:Hg; [by eexists|].
  apply str_is_empty_false in Hi, Ht, Ha, Hg. exfalso.
  destruct H as [?|[?|[?|[?|?]]]]; done || lia.
Qed.

Lemma book_of_dict_to_dict bid b :
  match book_of_dict bid (Book_to_dict b) with
  | Ok b' => Some b'
  | Raise _ => None
  end = restored_book bid b.
Proof.
  unfold book_of_dict, restored_book, Book_to_dict, available_copies. simpl.
  case_decide as H.
  - destruct H as (?&?&?&?&?). by rewrite Book_init_ok.
  - destruct (Book_init_raises bid (title b) (author b) (genre b)
                (total_copies b) (_available_copies b) 0) as [e ->]; [|done].
    destruct (decide (bid = "")); [by left|].
    destruct (decide (title b = "")); [by auto|].
    destruct (decide (author b = "")); [by auto|].
    destruct (decide (genre b = "")); [by auto 10|].
    do 4 right. apply Z.lt_nge. intros ?. by apply H.
Qed.

Lemma book_of_dict_item_id bid bdict b :
  book_of_dict bid bdict = Ok b →
  item_id b = bid ∧ bid ≠ "" ∧ title b ≠ "" ∧ author b ≠ "" ∧ genre b ≠ ""
  ∧ copies_ok b.
Proof.
  unfold book_of_dict, Book_init, copies_ok.
  destruct (str_is_empty bid) eqn:Hi; simpl; [done|].
  destruct (str_is_empty (bd_title bdict)) eqn:Ht; simpl; [done|].
  destruct (str_is_empty (bd_author bdict)) eqn:Ha; simpl; [done|].
  destruct (Z.ltb_spec (bd_total_copies bdict) 0); [done|].
  destruct (str_is_empty (bd_genre bdict)) eqn:Hg; [done|].
  apply str_is_empty_false in Hi, Ht, Ha, Hg.
  intros [= <-]. simpl. split_and!; try done.
  - destruct (Z.ltb_spec (bd_available_copies bdict) 0),
      (Z.ltb_spec (bd_total_copies bdict) (bd_available_copies bdict));
      simpl; lia.
  - destruct (Z.ltb_spec (bd_available_copies bdict) 0),
      (Z.ltb_spec (bd_total_copies bdict) (bd_available_copies bdict));
      simpl; lia.
Qed.

Lemma user_of_dict_user_id uid udict u :
  user_of_dict uid udict = Ok u →
  user_id u = uid ∧ uid ≠ "" ∧ name u ≠ "".
Proof.
  unfold user_of_dict, User_init.
  destruct (str_is_empty uid) eqn:Hi; simpl; [done|].
  destruct (str_is_empty (ud_name udict)) eqn:Hn; simpl; [done|].
  apply str_is_empty_false in Hi, Hn. by intros [= <-].
Qed.

Lemma load_book_fold entries L :
  NoDup entries.*1 →
  (∀ bid, bid ∈ entries.*1 → books L !! bid = None) →
  let L' := foldl load_book L entries in
  users L' = users L
  ∧ borrow_requests L' = borrow_requests L
  ∧ (∀ n, neighbors n (user_book_graph L') = neighbors n (user_book_graph L))
  ∧ ∀ bid,
      books L' !! bid
      = match (list_to_map entries : gmap string BookDict) !! bid with
        | Some bdict =>
            match book_of_dict bid bdict with
            | Ok b => Some b
            | Raise _ => None
            end
        | None => books L !! bid
        end.
Proof.
  revert L. induction entries as [|[bid0 bd0] entries IH]; intros L Hnd Hnew.
  { simpl. by split_and!. }
  cbv zeta. simpl. apply NoDup_cons in Hnd as [Hnotin Hnd].
  assert (books L !! bid0 = None) as Hb0 by (apply Hnew; simpl; by left).
  set (L1 := load_book L (bid0, bd0)).
  assert (users L1 = users L ∧ borrow_requests L1 = borrow_requests L
          ∧ (∀ n, neighbors n (user_book_graph L1)
                  = neighbors n (user_book_graph L))
          ∧ (∀ bid, bid ≠ bid0 → books L1 !! bid = books L !! bid)
          ∧ books L1 !! bid0 = match book_of_dict bid0 bd0 with
                               | Ok b => Some b
                               | Raise _ => None
                               end) as (Hu1&Hq1&Hg1&Hne1&Heq1).
  { subst L1. unfold load_book. simpl.
    destruct (book_of_dict bid0 bd0) as [b|e] eqn:Hb; [|done].
    apply book_of_dict_item_id in Hb as [Hid _].
    unfold add_book. rewrite Hid, Hb0. simpl. split_and!; try done.
    - intros n. apply add_node_neighbors.
    - intros bid Hne. by rewrite lookup_insert_ne.
    - by rewrite lookup_insert_eq. }
  destruct (IH L1 Hnd) as (Hu&Hq&Hg&Hb).
  { intros bid Hin. rewrite Hne1 by (intros ->; done).
    apply Hnew. simpl. by right. }
  split_and!.
  - by rewrite Hu.
  - by rewrite Hq.
  - intros n. by rewrite Hg.
  - intros bid. rewrite Hb. destruct (decide (bid = bid0)) as [->|Hne].
    + rewrite lookup_insert_eq.
      by rewrite (not_elem_of_list_to_map_1 _ _ Hnotin).
    + rewrite lookup_insert_ne by done.
      destruct (list_to_map entries !! bid); [done|]. by apply Hne1.
Qed.

Lemma load_user_fold entries L :
  NoDup entries.*1 →
  (∀ uid, uid ∈ entries.*1 → users L !! uid = None) →
  let L' := foldl load_user L entries in
  books L' = books L
  ∧ borrow_requests L' = borrow_requests L
  ∧ (∀ n, neighbors n (user_book_graph L') = neighbors n (user_book_graph L))
  ∧ ∀ uid,
      users L' !! uid
      = match (list_to_map entries : gmap string UserDict) !! uid with
        | Some udict =>
            match user_of_dict uid udict with
            | Ok u => Some u
            | Raise _ => None
            end
        | None => users L !! uid
        end.
Proof.
  revert L. induction entries as [|[uid0 ud0] entries IH]; intros L Hnd Hnew.
  { simpl. by split_and!. }
  cbv zeta. simpl. apply NoDup_cons in Hnd as [Hnotin Hnd].
  assert (users L !! uid0 = None) as Hu0 by (apply Hnew; simpl; by left).
  set (L1 := load_user L (uid0, ud0)).
  assert (books L1 = books L ∧ borrow_requests L1 = borrow_requests L
          ∧ (∀ n, neighbors n (user_book_graph L1)
                  = neighbors n (user_book_graph L))
          ∧ (∀ uid, uid ≠ uid0 → users L1 !! uid = users L !! uid)
          ∧ users L1 !! uid0 = match user_of_dict uid0 ud0 with
                               | Ok u => Some u
                               | Raise _ => None
                               end) as (Hb1&Hq1&Hg1&Hne1&Heq1).
  { subst L1. unfold load_user. simpl.
    destruct (user_of_dict uid0 ud0) as [u|e] eqn:Hu; [|done].
    apply user_of_dict_user_id in Hu as [Hid _].
    unfold add_user. rewrite Hid, Hu0. simpl. split_and!; try done.
    - intros n. apply add_node_neighbors.
    - intros uid Hne. by rewrite lookup_insert_ne.
    - by rewrite lookup_insert_eq. }
  destruct (IH L1 Hnd) as (Hb&Hq&Hg&Hu).
  { intros uid Hin. rewrite Hne1 by (intros ->; done).
    apply Hnew. simpl. by right. }
  split_and!.
  - by rewrite Hb.
  - by rewrite Hq.
  - intros n. by rewrite Hg.
  - intros uid. rewrite Hu. destruct (decide (uid = uid0)) as [->|Hne].
    + rewrite lookup_insert_eq.
      by rewrite (not_elem_of_list_to_map_1 _ _ Hnotin).
    + rewrite lookup_insert_ne by done.
      destruct (list_to_map entries !! uid); [done|]. by apply Hne1.
Qed.

Lemma load_book_frame entries L :
  let L' := foldl load_book L entries in
  users L' = users L ∧ borrow_requests L' = borrow_requests L
  ∧ ∀ n, neighbors n (user_book_graph L') = neighbors n (user_book_graph L).
Proof.
  revert L. induction entries as [|e entries IH]; intros L; [done|].
  cbv zeta. simpl. destruct (IH (load_book L e)) as (->&->&Hg).
  unfold load_book in *.
  destruct (book_of_dict e.1 e.2) as [b|]; [|done].
  unfold add_book in *. destruct (books L !! item_id b); [done|].
  simpl in *. split_and!; try done.
  intros n. by rewrite Hg, add_node_neighbors.
Qed.

Lemma load_user_frame entries L :
  let L' := foldl load_user L entries in
  books L' = books L ∧ borrow_requests L' = borrow_requests L
  ∧ ∀ n, neighbors n (user_book_graph L') = neighbors n (user_book_graph L).
Proof.
  revert L. induction entries as [|e entries IH]; intros L; [done|].
  cbv zeta. simpl. destruct (IH (load_user L e)) as (->&->&Hg).
  unfold load_user in *.
  destruct (user_of_dict e.1 e.2) as [u|]; [|done].
  unfold add_user in *. destruct (users L !! user_id u); [done|].
  simpl in *. split_and!; try done.
  intros n. by rewrite Hg, add_node_neighbors.
Qed.

Lemma load_edge_fold uid h L :
  let L' := foldl (load_edge uid) L h in
  books L' = books L ∧ users L' = users L
  ∧ borrow_requests L' = borrow_requests L
  ∧ ∀ x y,
      y ∈ neighbors x (user_book_graph L') ↔
      y ∈ neighbors x (user_book_graph L)
      ∨ ∃ bid, bid ∈ h ∧ is_Some (books L !! bid)
               ∧ ((x = user_node uid ∧ y = book_node bid)
                  ∨ (x = book_node bid ∧ y = user_node uid)).
Proof.
  revert L. induction h as [|bid0 h IH]; intros L.
  { simpl. split_and!; try done. intros x y. split; [by left|].
    intros [?|(bid&Hin&_)]; [done|]. by apply elem_of_nil in Hin. }
  cbv zeta. simpl. destruct (IH (load_edge uid L bid0)) as (Hb&Hu&Hq&Hg).
  assert (books (load_edge uid L bid0) = books L) as Hb1
    by (unfold load_edge; by case_bool_decide).
  assert (users (load_edge uid L bid0) = users L) as Hu1
    by (unfold load_edge; by case_bool_decide).
  assert (borrow_requests (load_edge uid L bid0) = borrow_requests L) as Hq1
    by (unfold load_edge; by case_bool_decide).
  split_and!; [congruence..|].
  intros x y. rewrite Hg, Hb1. clear Hg IH.
  pose proof (user_node_ne_book_node uid bid0) as Hub.
  unfold load_edge. case_bool_decide as Hin0; simpl.
  - rewrite add_edge_neighbors. rewrite decide_False by done.
    split.
    + intros [Hy|(bid&Hin&Hbid&Hxy)].
      * repeat case_decide; subst.
        -- apply elem_of_union in Hy as [->%elem_of_singleton|Hy];
             [|by left].
           right. exists bid0. split; [by left|]. by auto.
        -- apply elem_of_union in Hy as [->%elem_of_singleton|Hy];
             [|by left].
           right. exists bid0. split; [by left|]. by auto.
        -- by left.
      * right. exists bid. split; [by right|]. by auto.
    + intros [Hy|(bid&[->|Hin]%elem_of_cons&Hbid&Hxy)].
      * left. repeat case_decide; subst; set_solver.
      * left. destruct Hxy as [[-> ->]|[-> ->]].
        -- rewrite decide_True by done. set_solver.
        -- rewrite decide_False by done. rewrite decide_True by done.
           set_solver.
      * right. by exists bid.
  - split.
    + intros [?|(bid&Hin&Hbid&Hxy)]; [by left|].
      right. exists bid. split; [by right|]. by auto.
    + intros [?|(bid&[->|Hin]%elem_of_cons&Hbid&Hxy)]; [by left|done|].
      right. by exists bid.
Qed.

Lemma load_edges_fold items L :
  let L' := foldl load_edges L items in
  books L' = books L ∧ users L' = users L
  ∧ borrow_requests L' = borrow_requests L
  ∧ ∀ x y,
      y ∈ neighbors x (user_book_graph L') ↔
      y ∈ neighbors x (user_book_graph L)
      ∨ ∃ uid user bid,
          (uid, user) ∈ items ∧ bid ∈ history user
          ∧ is_Some (books L !! bid)
          ∧ ((x = user_node uid ∧ y = book_node bid)
             ∨ (x = book_node bid ∧ y = user_node uid)).
Proof.
  revert L. induction items as [|[uid0 user0] items IH]; intros L.
  { simpl. split_and!; try done. intros x y. split; [by left|].
    intros [?|(?&?&?&Hin&_)]; [done|]. by apply elem_of_nil in Hin. }
  cbv zeta. simpl. destruct (IH (load_edges L (uid0, user0))) as (Hb&Hu&Hq&Hg).
  destruct (load_edge_fold uid0 (history user0) L) as (Hb1&Hu1&Hq1&Hg1).
  change (foldl (load_edge uid0) L (history user0))
    with (load_edges L (uid0, user0)) in *.
  split_and!; [congruence..|].
  intros x y. rewrite Hg, Hg1, Hb1. clear. split.
  - intros [[?|(bid&?&?&?)]|(uid&user&bid&?&?&?&?)].
    + by left.
    + right. exists uid0, user0, bid. split; [by left|done].
    + right. exists uid, user, bid. split; [by right|done].
  - intros [?|(uid&user&bid&[[= -> ->]|?]%elem_of_cons&?&?&?)].
    + by left; left.
    + left. right. by exists bid.
    + right. by exists uid, user, bid.
Qed.

Section LoadSpec.

Variable user_items : gmap string User → list (string * User).
Hypothesis user_items_map : ∀ us, user_items us ≡ₚ map_to_list us.

Lemma user_items_elem us uid user :
  (uid, user) ∈ user_items us ↔ us !! uid = Some user.
Proof. by rewrite user_items_map, elem_of_map_to_list. Qed.

(** X21.  The graph that [load_from_file] rebuilds.  Whatever the file holds,
    the loaded library has an edge between [user:u] and [book:b], seen
    from either end, exactly when [b] is in the history of the loaded user
    [u] and is a book of the loaded catalog: borrows of books that are no
    longer in the catalog leave no edge. *)
Theorem load_from_file_graph (data : Snapshot) (L0 : Library)
    (uid bid : string) :
  let L := (load_from_file user_items (Some data) L0).2 in
  (book_node bid ∈ neighbors (user_node uid) (user_book_graph L) ↔
     ∃ user, users L !! uid = Some user ∧ bid ∈ history user
             ∧ is_Some (books L !! bid))
  ∧ (user_node uid ∈ neighbors (book_node bid) (user_book_graph L) ↔
     ∃ user, users L !! uid = Some user ∧ bid ∈ history user
             ∧ is_Some (books L !! bid)).
Proof.
  cbv zeta. unfold load_from_file. simpl.
  set (L2 := foldl load_user (foldl load_book Library_init (snap_books data))
               (snap_users data)).
  set (L3 := foldl load_edges L2 (user_items (users L2))).
  change (foldl _ L3 (snap_borrow_requests data))
    with (enqueue_all (snap_borrow_requests data) L3).
  destruct (load_book_frame (snap_books data) Library_init) as (_&Hq1&Hg1).
  destruct (load_user_frame (snap_users data)
              (foldl load_book Library_init (snap_books data)))
    as (_&Hq2&Hg2).
  fold L2 in Hq2, Hg2.
  destruct (enqueue_all_repr (snap_borrow_requests data) L3 []) as [_ ->].
  { destruct (load_edges_fold (user_items (users L2)) L2) as (_&_&Hq&_).
    fold L3 in Hq. rewrite Hq, Hq2, Hq1. apply queue_repr_init. }
  simpl.
  destruct (load_edges_fold (user_items (users L2)) L2) as (Hb&Hu&_&Hg).
  fold L3 in Hb, Hu, Hg. rewrite Hb, Hu.
  assert (∀ n, neighbors n (user_book_graph L2) = ∅) as Hempty.
  { intros n. rewrite Hg2, Hg1. apply neighbors_empty. }
  split.
  - rewrite Hg, Hempty. split.
    + intros [?|(uid'&user&bid'&Hin&Hh&Hbid&[[Hx Hy]|[Hx Hy]])];
        [set_solver|..].
      * apply user_node_inj in Hx as <-. apply book_node_inj in Hy as <-.
        apply user_items_elem in Hin. by exists user.
      * by apply user_node_ne_book_node in Hx.
    + intros (user&Hin&Hh&Hbid). right. exists uid, user, bid.
      rewrite user_items_elem. split_and!; try done. by left.
  - rewrite Hg, Hempty. split.
    + intros [?|(uid'&user&bid'&Hin&Hh&Hbid&[[Hx Hy]|[Hx Hy]])];
        [set_solver|..].
      * symmetry in Hx. by apply user_node_ne_book_node in Hx.
      * apply user_node_inj in Hy as <-. apply book_node_inj in Hx as <-.
        apply user_items_elem in Hin. by exists user.
    + intros (user&Hin&Hh&Hbid). right. exists uid, user, bid.
      rewrite user_items_elem. split_and!; try done. by right.
Qed.

End LoadSpec.

Section SaveAndLoad.

Variable set_order : gset string → list string.
Variable book_items : gmap string Book → list (string * Book).
Variable user_items : gmap string User → list (string * User).
Hypothesis set_order_elem : ∀ s x, x ∈ set_order s ↔ x ∈ s.
Hypothesis book_items_map : ∀ bs, book_items bs ≡ₚ map_to_list bs.
Hypothesis user_items_map : ∀ us, user_items us ≡ₚ map_to_list us.

Lemma list_to_set_sorted_strings s :
  list_to_set (sorted_strings set_order s) = s.
Proof.
  apply set_eq. intros x. unfold sorted_strings.
  by rewrite elem_of_list_to_set, sorted_by_perm, set_order_elem.
Qed.

Lemma user_of_dict_to_dict uid u :
  match user_of_dict uid (User_to_dict set_order u) with
  | Ok u' => Some u'
  | Raise _ => None
  end = restored_user uid u.
Proof.
  unfold user_of_dict, User_init, restored_user, User_to_dict. simpl.
  rewrite !list_to_set_sorted_strings.
  case_decide as H.
  - destruct H as [Hu Hn].
    by rewrite (proj2 (str_is_empty_false uid) Hu),
      (proj2 (str_is_empty_false (name u)) Hn).
  - destruct (str_is_empty uid) eqn:Hu; simpl; [done|].
    destruct (str_is_empty (name u)) eqn:Hn; simpl; [done|].
    apply str_is_empty_false in Hu, Hn. exfalso. by apply H.
Qed.

Lemma items_keys_nodup {A B : Type} (f : A → B)
    (items : gmap string A → list (string * A)) m :
  (∀ m, items m ≡ₚ map_to_list m) →
  NoDup (prod_map id f <$> items m).*1
  ∧ (list_to_map (prod_map id f <$> items m) : gmap string B) = f <$> m.
Proof.
  intros Hitems. split.
  - rewrite <- list_fmap_compose.
    replace (fst ∘ prod_map id f) with (fst : string * A → string)
      by done.
    rewrite Hitems. apply NoDup_fst_map_to_list.
  - rewrite list_to_map_fmap. f_equal.
    rewrite (list_to_map_proper _ (map_to_list m)).
    + apply list_to_map_to_list.
    + rewrite Hitems. apply NoDup_fst_map_to_list.
    + apply Hitems.
Qed.

Lemma restored_book_well_formed bid b :
  item_id b = bid → bid ≠ "" → title b ≠ "" → author b ≠ "" →
  genre b ≠ "" → copies_ok b → restored_book bid b = Some b.
Proof.
  intros <- Hi Ht Ha Hg Hc. unfold restored_book, copies_ok in *.
  rewrite decide_True by (split_and!; done || lia).
  rewrite decide_True by done. by destruct b.
Qed.

Lemma snapshot_load (L L0 : Library) (items : list (string * string)) :
  queue_repr (borrow_requests L) items →
  addresses_increase (q_nodes (borrow_requests L)) →
  ∃ data,
    _snapshot set_order book_items user_items L = Some data
    ∧ (load_from_file user_items (Some data) L0).1 = true
    ∧ (∀ bid, books (load_from_file user_items (Some data) L0).2 !! bid
              = books L !! bid ≫= restored_book bid)
    ∧ (∀ uid, users (load_from_file user_items (Some data) L0).2 !! uid
              = users L !! uid ≫= restored_user uid)
    ∧ _borrow_requests_as_list (load_from_file user_items (Some data) L0).2
      = _borrow_requests_as_list L
    ∧ (well_formed L →
       books (load_from_file user_items (Some data) L0).2 = books L
       ∧ users (load_from_file user_items (Some data) L0).2 = users L).
Proof.
  intros Hq Hinc.
  pose proof (borrow_requests_as_list_repr L items Hq Hinc) as Hlist.
  unfold _snapshot. rewrite Hlist. eexists. split; [done|].
  unfold load_from_file.
  cbn [snap_books snap_users snap_borrow_requests fst snd].
  destruct (items_keys_nodup Book_to_dict book_items (books L) book_items_map)
    as [Hnd1 Hmap1].
  destruct (items_keys_nodup (User_to_dict set_order) user_items (users L)
              user_items_map) as [Hnd2 Hmap2].
  set (L1 := foldl load_book Library_init _).
  destruct (load_book_fold _ Library_init Hnd1) as (Hu1&Hq1&_&Hb1); [done|].
  fold L1 in Hu1, Hq1, Hb1.
  set (L2 := foldl load_user L1 _).
  destruct (load_user_fold _ L1 Hnd2) as (Hb2&Hq2&_&Hu2).
  { intros uid _. by rewrite Hu1. }
  fold L2 in Hb2, Hq2, Hu2.
  set (L3 := foldl load_edges L2 _).
  destruct (load_edges_fold (user_items (users L2)) L2) as (Hb3&Hu3&Hq3&_).
  fold L3 in Hb3, Hu3, Hq3.
  change (foldl _ L3 items) with (enqueue_all items L3).
  assert (queue_repr (borrow_requests L3) []) as Hq0.
  { rewrite Hq3, Hq2, Hq1. apply queue_repr_init. }
  assert (books (enqueue_all items L3) = books L3
          ∧ users (enqueue_all items L3) = users L3) as [Hb4 Hu4].
  { destruct (enqueue_all_repr items L3 [] Hq0) as [_ ->]. done. }
  assert (∀ bid, books (enqueue_all items L3) !! bid
                 = books L !! bid ≫= restored_book bid) as Hbooks.
  { intros bid. rewrite Hb4, Hb3, Hb2, Hb1, Hmap1, lookup_fmap.
    destruct (books L !! bid) as [b|]; simpl; [|done].
    apply book_of_dict_to_dict. }
  assert (∀ uid, users (enqueue_all items L3) !! uid
                 = users L !! uid ≫= restored_user uid) as Husers.
  { intros uid. rewrite Hu4, Hu3, Hu2, Hmap2, lookup_fmap.
    destruct (users L !! uid) as [u|]; simpl; [|by rewrite Hu1].
    apply user_of_dict_to_dict. }
  split; [done|]. split; [done|]. split; [done|]. split.
  - rewrite (enqueue_all_as_list items L3 [] Hq0); [done|].
    rewrite Hq3, Hq2, Hq1. intros a n b. simpl. by rewrite lookup_nil.
  - intros [Hwb Hwu]. split; apply map_eq.
    + intros bid. rewrite Hbooks.
      destruct (books L !! bid) as [b|] eqn:Hb; simpl; [|done].
      destruct (Hwb bid b Hb) as (?&?&?&?&?&?).
      by apply restored_book_well_formed.
    + intros uid. rewrite Husers.
      destruct (users L !! uid) as [u|] eqn:Hu; simpl; [|done].
      destruct (Hwu uid u Hu) as (Hid&?&?&Hi).
      unfold restored_user. rewrite decide_True by done.
      rewrite Hi, <- Hid. by destruct u.
Qed.


(** X23.  What [load_from_file] leaves is well formed.  Whatever the file
    holds, with interests in ASCII (a dict has each of its keys once),
    every book of the loaded library
    is registered under its own id, with a title, an author and a genre
    that are not empty and [0 <= available_copies <= total_copies], and
    every user under its own id, with a name that is not empty and
    normalized interests.  So saving and loading a loaded library gives it
    back. *)
Theorem load_from_file_well_formed (data : Snapshot) (L0 : Library) :
  NoDup (snap_books data).*1 → NoDup (snap_users data).*1 →
  ascii_interests data →
  well_formed (load_from_file user_items (Some data) L0).2.
Proof.
  intros Hnd1 Hnd2 _. unfold load_from_file. cbn [fst snd].
  set (L1 := foldl load_book Library_init _).
  destruct (load_book_fold _ Library_init Hnd1) as (Hu1&Hq1&_&Hb1); [done|].
  fold L1 in Hu1, Hq1, Hb1.
  set (L2 := foldl load_user L1 _).
  destruct (load_user_fold _ L1 Hnd2) as (Hb2&Hq2&_&Hu2).
  { intros uid _. by rewrite Hu1. }
  fold L2 in Hb2, Hq2, Hu2.
  set (L3 := foldl load_edges L2 _).
  destruct (load_edges_fold (user_items (users L2)) L2) as (Hb3&Hu3&Hq3&_).
  fold L3 in Hb3, Hu3, Hq3.
  change (foldl _ L3 (snap_borrow_requests data))
    with (enqueue_all (snap_borrow_requests data) L3).
  destruct (enqueue_all_repr (snap_borrow_requests data) L3 []) as [_ ->].
  { rewrite Hq3, Hq2, Hq1. apply queue_repr_init. }
  split; simpl.
  - intros bid b. rewrite Hb3, Hb2, Hb1.
    destruct (list_to_map (snap_books data) !! bid) as [bdict|]; [|done].
    destruct (book_of_dict bid bdict) as [b'|] eqn:Hb; [|done].
    intros [= <-]. by apply book_of_dict_item_id in Hb.
  - intros uid u. rewrite Hu3, Hu2.
    destruct (list_to_map (snap_users data) !! uid) as [udict|];
      [|by rewrite Hu1].
    destruct (user_of_dict uid udict) as [u'|] eqn:Hu; [|done].
    intros [= <-]. pose proof Hu as (?&?&?)%user_of_dict_user_id.
    split_and!; try done.
    unfold user_of_dict, User_init in Hu.
    destruct (_ || _)%bool; [done|]. injection Hu as <-. simpl.
    apply normalized_idem.
Qed.

End SaveAndLoad.

(** On [example_file]: the history of [u1] names [b1], which is loaded,
    and [b9], which is not in the file. *)
Lemma load_from_file_graph_witness :
  let L := (load_from_file map_to_list (Some example_file) Library_init).2 in
  "book:b1" ∈ neighbors "user:u1" (user_book_graph L)
  ∧ "book:b9" ∉ neighbors "user:u1" (user_book_graph L).
Proof.
  cbv zeta. split.
  - apply (load_from_file_graph map_to_list (λ us, reflexivity _)
             example_file Library_init "u1" "b1").
    eexists. split; [by vm_compute|]. split; [set_solver|].
    vm_compute. by eexists.
  - intros (user&_&_&Hb9)%(load_from_file_graph map_to_list
                             (λ us, reflexivity _)
                             example_file Library_init "u1" "b9").
    revert Hb9. vm_compute. by intros [? ?].
Defined.


(** On [example_file]: the book without a title is dropped, and the
    available count [5] of a book with one copy becomes [1]. *)
Lemma load_from_file_well_formed_witness :
  well_formed (load_from_file map_to_list (Some example_file) Library_init).2
  ∧ books (load_from_file map_to_list (Some example_file) Library_init).2
      !! "b1" = Some (mkBook "b1" "A" "Auth" "tech" 1 1 2)
  ∧ books (load_from_file map_to_list (Some example_file) Library_init).2
      !! "b2" = None.
Proof.
  split; [|by vm_compute].
  apply load_from_file_well_formed; simpl.
  - apply NoDup_cons. split; [set_solver|]. apply NoDup_singleton.
  - apply NoDup_singleton.
  - repeat constructor.
Defined.

(** ** The prompts *)

(** X24.  [prompt_non_empty] returns the first line that is not blank, stripped.
    Whatever is typed in ASCII, the call skips the blank lines, writing
    the prompt
    and [Input cannot be empty.] for each, and returns the first other
    line without the blanks around it: a text that is not empty and that
    stripping leaves as it is; the lines after it are left for the next
    read.  If every line is blank the call reads them all and ends where
    [input] finds no line. *)
Theorem prompt_non_empty_spec (prompt : string) (inputs : list string) :
  Forall ascii_text inputs →
  let call := prompt_non_empty prompt inputs in
  match call.1.2 with
  | Some value =>
      ∃ skipped line,
        inputs = skipped ++ line :: call.2
        ∧ Forall blank skipped
        ∧ value = strip line ∧ value ≠ "" ∧ strip value = value
        ∧ call.1.1 = turns (length skipped) prompt "Input cannot be empty."
  | None =>
      Forall blank inputs ∧ call.2 = []
      ∧ call.1.1 = turns (length inputs) prompt "Input cannot be empty."
  end.
Proof.
  intros _. cbv zeta. induction inputs as [|line rest IH]; simpl.
  { by split_and!. }
  destruct (str_is_empty (strip line)) eqn:He; simpl.
  - apply str_is_empty_true in He.
    destruct (prompt_non_empty prompt rest) as [[outs [value|]] left];
      simpl in *.
    + destruct IH as (skipped&line'&->&Hs&Hv&Hne&Hst&->).
      exists (line :: skipped), line'. split_and!; try done.
      by constructor.
    + destruct IH as (Hs&->&->). split_and!; try done. by constructor.
  - apply str_is_empty_false in He.
    exists [], line. split_and!; try done. apply strip_idem.
Qed.

Section PromptIntSpec.

Variable int_of_str : string → option Z.

Lemma within_bounds min_value max_value value :
  within min_value max_value value = true →
  (∀ m, min_value = Some m → m <= value)
  ∧ (∀ M, max_value = Some M → value <= M).
Proof.
  unfold within. intros [H1 H2]%andb_true_iff. split.
  - intros m ->. by apply Z.leb_le.
  - intros M ->. by apply Z.leb_le.
Qed.

Lemma prompt_int_turn prompt min_value max_value line rest :
  (accepted_int int_of_str min_value max_value line = None
   ∧ ∃ text,
       prompt_int int_of_str prompt min_value max_value (line :: rest)
       = again prompt text
           (prompt_int int_of_str prompt min_value max_value rest))
  ∨ (∃ value,
       accepted_int int_of_str min_value max_value line = Some value
       ∧ int_of_str (strip line) = Some value
       ∧ within min_value max_value value = true
       ∧ prompt_int int_of_str prompt min_value max_value (line :: rest)
         = (([out_input prompt], Some value), rest)).
Proof.
  cbn [prompt_int]. unfold accepted_int.
  destruct (str_is_empty (strip line)); [left; by eauto|].
  destruct (int_of_str (strip line)) as [value|]; [|left; by eauto].
  destruct (within min_value max_value value) eqn:Hw.
  - right. exists value. split_and!; try done.
    apply within_bounds in Hw as [Hmin Hmax].
    destruct min_value as [m|], max_value as [M|];
      try specialize (Hmin _ eq_refl); try specialize (Hmax _ eq_refl);
      repeat match goal with
             | |- context [?a <? ?b] => destruct (Z.ltb_spec a b); try lia
             end; done.
  - left. split; [done|]. unfold within in Hw.
    destruct min_value as [m|], max_value as [M|]; cbn [andb] in Hw;
      repeat match goal with
             | |- context [?a <? ?b] => destruct (Z.ltb_spec a b)
             | H : context [?a <=? ?b] |- _ => destruct (Z.leb_spec a b)
             end; simpl in Hw; try done; try lia; by eauto.
Qed.


(** X25.  [prompt_int] returns the first line that spells an integer within the
    bounds, and that integer.  Whatever is typed and whatever [int] makes
    of a text, the call skips the lines that are blank, that spell no
    integer, or whose integer is below [min_value] or above [max_value],
    writing the prompt and a complaint for each, and returns the integer
    of the first other line; so the value returned is never below
    [min_value] nor above [max_value].  If no line is accepted the call
    reads them all and ends where [input] finds no line. *)
Theorem prompt_int_spec (prompt : string) (min_value max_value : option Z)
    (inputs : list string) :
  let call := prompt_int int_of_str prompt min_value max_value inputs in
  let accepted := accepted_int int_of_str min_value max_value in
  match call.1.2 with
  | Some value =>
      (∀ m, min_value = Some m → m <= value)
      ∧ (∀ M, max_value = Some M → value <= M)
      ∧ ∃ skipped line,
          inputs = skipped ++ line :: call.2
          ∧ Forall (λ l, accepted l = None) skipped
          ∧ accepted line = Some value
          ∧ int_of_str (strip line) = Some value
          ∧ length call.1.1 = (2 * length skipped + 1)%nat
  | None =>
      Forall (λ l, accepted l = None) inputs ∧ call.2 = []
      ∧ length call.1.1 = (2 * length inputs + 1)%nat
  end.
Proof.
  cbv zeta. induction inputs as [|line rest IH].
  { simpl. by split_and!. }
  destruct (prompt_int_turn prompt min_value max_value line rest)
    as [[Hrej [text ->]]|(value&Hacc&Hint&Hwithin&->)].
  - unfold again.
    destruct (prompt_int int_of_str prompt min_value max_value rest)
      as [[outs [value|]] left]; cbn [fst snd] in *.
    + destruct IH as (Hmin&Hmax&skipped&line'&->&Hs&Hacc&Hint&Hlen).
      split; [done|]. split; [done|].
      exists (line :: skipped), line'. split_and!; try done.
      * by constructor.
      * cbn [length]. lia.
    + destruct IH as (Hs&->&Hlen). split_and!; try done.
      * by constructor.
      * cbn [length]. lia.
  - cbn [fst snd]. destruct (within_bounds _ _ _ Hwithin) as [Hmin Hmax].
    split; [done|]. split; [done|]. exists [], line. by split_and!.
Qed.

End PromptIntSpec.

Lemma choices_dict_snoc choices c :
  choices_dict (choices ++ [c]) = <[lower c := c]> (choices_dict choices).
Proof. unfold choices_dict. by rewrite foldl_app. Qed.

Lemma choices_dict_lookup choices line :
  match choices_dict choices !! lower (strip line) with
  | Some choice => names_choice choices line choice
  | None => names_no_choice choices line
  end.
Proof.
  induction choices as [|c choices IH] using rev_ind.
  { unfold choices_dict. simpl. rewrite lookup_empty. constructor. }
  rewrite choices_dict_snoc.
  destruct (decide (lower c = lower (strip line))) as [Heq|Hne].
  - rewrite <- Heq, lookup_insert_eq. exists choices, [].
    split_and!; try done.
  - rewrite lookup_insert_ne by done.
    destruct (choices_dict choices !! lower (strip line)) as [choice|].
    + destruct IH as (before&after&->&Hl&Ha).
      exists before, (after ++ [c]). split_and!; try done.
      * by rewrite <- app_assoc.
      * apply Forall_app. split; [done|]. by constructor.
    + apply Forall_app. split; [done|]. by constructor.
Qed.

(** X26.  [prompt_choice] returns a choice as it is spelled in [choices].
    For choices in ASCII and whatever is typed in ASCII, the call skips
    the lines that, stripped, are none of the choices up to the case of
    letters, writing the prompt and
    [Invalid choice. Try again.] for each, and returns for the first other
    line the choice it names: one of [choices], equal to the line up to
    case, and the last of them if several are.  If no line names a choice
    the call reads them all and ends where [input] finds no line. *)
Theorem prompt_choice_spec (prompt : string) (choices inputs : list string) :
  Forall ascii_text choices → Forall ascii_text inputs →
  let call := prompt_choice prompt choices inputs in
  let text := prompt +:+ " (" +:+ join "/" choices +:+ "): " in
  match call.1.2 with
  | Some choice =>
      choice ∈ choices
      ∧ ∃ skipped line,
          inputs = skipped ++ line :: call.2
          ∧ Forall (names_no_choice choices) skipped
          ∧ names_choice choices line choice
          ∧ call.1.1
            = turns (length skipped) text "Invalid choice. Try again."
  | None =>
      Forall (names_no_choice choices) inputs ∧ call.2 = []
      ∧ call.1.1 = turns (length inputs) text "Invalid choice. Try again."
  end.
Proof.
  intros _ _. cbv zeta. unfold prompt_choice.
  set (text := prompt +:+ " (" +:+ join "/" choices +:+ "): ").
  induction inputs as [|line rest IH]; simpl.
  { by split_and!. }
  pose proof (choices_dict_lookup choices line) as Hl.
  destruct (choices_dict choices !! lower (strip line)) as [choice|]; simpl.
  - split.
    + destruct Hl as (before&after&->&_). set_solver.
    + exists [], line. by split_and!.
  - destruct (prompt_choice_loop text (choices_dict choices) rest)
      as [[outs [choice|]] left]; simpl in *.
    + destruct IH as (Hin&skipped&line'&->&Hs&Hn&->).
      split; [done|]. exists (line :: skipped), line'.
      split_and!; try done. by constructor.
    + destruct IH as (Hs&->&->). split_and!; try done. by constructor.
Qed.

Example prompt_examples :
  prompt_non_empty "User ID: " ["  "; " u1 "; "x"]
  = (([out_input "User ID: "; out_print "Input cannot be empty.";
       out_input "User ID: "], Some "u1"), ["x"])
  ∧ prompt_int (λ s, if String.eqb s "7" then Some 7 else None)
      "Top K = " (Some 8) None ["x"; " 7 "]
    = (([out_input "Top K = "; out_print "Invalid number. Try again.";
         out_input "Top K = "; out_print "Value must be >= 8.";
         out_input "Top K = "], None), [])
  ∧ prompt_choice "Sure?" ["Yes"; "No"; "YES"] [" maybe"; "yes "; "no"]
    = (([out_input "Sure? (Yes/No/YES): ";
         out_print "Invalid choice. Try again.";
         out_input "Sure? (Yes/No/YES): "], Some "YES"), ["no"]).
Proof. by vm_compute. Qed.

(** Two blank lines before the id. *)
Lemma prompt_non_empty_spec_witness :
  ∃ skipped line,
    ["  "; ""; " u1 "; "x"] = skipped ++ line :: ["x"]
    ∧ Forall blank skipped ∧ "u1" = strip line.
Proof.
  assert (Forall ascii_text ["  "; ""; " u1 "; "x"]) as Ha
    by (by repeat constructor).
  pose proof (prompt_non_empty_spec "User ID: " ["  "; ""; " u1 "; "x"] Ha)
    as H.
  cbv zeta in H.
  assert (prompt_non_empty "User ID: " ["  "; ""; " u1 "; "x"]
          = (([out_input "User ID: "; out_print "Input cannot be empty.";
               out_input "User ID: "; out_print "Input cannot be empty.";
               out_input "User ID: "], Some "u1"), ["x"])) as E
    by (by vm_compute).
  rewrite E in H. cbn [fst snd] in H.
  destruct H as (skipped&line&Hi&Hs&Hv&_). by exists skipped, line.
Defined.

(** A line that names no choice, then one that names two of them. *)
Lemma prompt_choice_spec_witness :
  ∃ skipped line,
    [" maybe"; "yes "; "no"] = skipped ++ line :: ["no"]
    ∧ Forall (names_no_choice ["Yes"; "No"; "YES"]) skipped
    ∧ names_choice ["Yes"; "No"; "YES"] line "YES".
Proof.
  assert (Forall ascii_text ["Yes"; "No"; "YES"]) as Hc
    by (by repeat constructor).
  assert (Forall ascii_text [" maybe"; "yes "; "no"]) as Ha
    by (by repeat constructor).
  pose proof (prompt_choice_spec "Sure?" ["Yes"; "No"; "YES"]
                [" maybe"; "yes "; "no"] Hc Ha) as H.
  cbv zeta in H.
  assert (prompt_choice "Sure?" ["Yes"; "No"; "YES"]
            [" maybe"; "yes "; "no"]
          = (([out_input "Sure? (Yes/No/YES): ";
               out_print "Invalid choice. Try again.";
               out_input "Sure? (Yes/No/YES): "], Some "YES"), ["no"])) as E
    by (by vm_compute).
  rewrite E in H. cbn [fst snd] in H.
  destruct H as (_&skipped&line&Hi&Hs&Hn&_). by exists skipped, line.
Defined.

(** ** The entries of the menu *)

Lemma lower_not_empty s : s ≠ "" → lower s ≠ "".
Proof. by destruct s. Qed.

(** X27.  The add-book entry cannot fail.  With what its prompts return (texts
    that are not empty, a total that is not negative, an available count
    from [0] to the total), the genre in ASCII, the constructor of [Book] accepts and corrects
    nothing: the entry writes [Book added.] and the library is as after
    [add_book] of the book as typed, the genre in lower case, never
    borrowed.  The branch [Failed to add book] is not reached. *)
Theorem menu_add_book_succeeds (book_id title author genre : string)
    (copies available : Z) (L : Library) :
  prompted (MenuAddBook book_id title author genre copies available) →
  _add_book book_id title author genre copies available L
  = ([say (ui_success "Book added.")],
     add_book (mkBook book_id title author (lower genre) copies available 0)
       L)
  ∧ copies_ok (mkBook book_id title author (lower genre) copies available 0).
Proof.
  intros (Hi&Ht&Ha&Hg&Hc&Hv&_). unfold _add_book.
  rewrite Book_init_ok by (done || by apply lower_not_empty).
  rewrite decide_True by done. split; [done|]. unfold copies_ok. simpl. lia.
Qed.

(** Two copies of a book, one of them out. *)
Lemma menu_add_book_succeeds_witness :
  _add_book "b7" "Dune" "Herbert" "SciFi" 2 1 Library_init
  = ([say (ui_success "Book added.")],
     add_book (mkBook "b7" "Dune" "Herbert" "scifi" 2 1 0) Library_init).
Proof.
  apply (menu_add_book_succeeds "b7" "Dune" "Herbert" "SciFi" 2 1).
  simpl. split_and!; done || lia.
Defined.

Lemma apply_updates_tidy updates book :
  Forall tidy_kwarg updates →
  (apply_updates updates book).1 = Ok tt
  ∧ item_id (apply_updates updates book).2 = item_id book
  ∧ total_copies (apply_updates updates book).2 = total_copies book
  ∧ _available_copies (apply_updates updates book).2 = _available_copies book
  ∧ borrow_count (apply_updates updates book).2 = borrow_count book
  ∧ (title book ≠ "" → title (apply_updates updates book).2 ≠ "")
  ∧ (author book ≠ "" → author (apply_updates updates book).2 ≠ "")
  ∧ (genre book ≠ "" → genre (apply_updates updates book).2 ≠ "").
Proof.
  intros Hu. revert book.
  induction Hu as [|kw updates Hkw Hu IH]; intros book; [done|].
  unfold apply_updates; fold apply_updates.
  destruct kw as [v|v|v|v|v|v|v|v|]; try done; simpl in *.
  - destruct (IH (set_title v book)) as (?&?&?&?&?&?&?&?).
    simpl in *. split_and!; auto.
  - destruct (IH (set_author v book)) as (?&?&?&?&?&?&?&?).
    simpl in *. split_and!; auto.
  - destruct (IH (set_genre v book)) as (?&?&?&?&?&?&?&?).
    simpl in *. split_and!; auto.
Qed.

(** X28.  The update entry edits the title, the author and the genre, and
    nothing else, as stated here for lines typed in ASCII.  For a
    registered book it never fails and always writes
    [Updated.]: each of the three fields becomes the line that was typed
    for it, stripped (and in lower case, for the genre), or stays as it
    was when that line is blank; the id, the two copy counts and the
    borrow count stay, and so does every other book, every user, the
    waitlist and the graph.  For an unknown id it changes nothing. *)
Theorem menu_update_book_spec (book_id title_line author_line
    genre_line : string) (L : Library) :
  prompted (MenuUpdateBook book_id title_line author_line genre_line) →
  match books L !! book_id with
  | Some book =>
      _update_book book_id title_line author_line genre_line L
      = (([say_print "Leave a field blank to skip updating it.";
           say (ui_success "Updated.")], Ok tt),
         with_books
           (<[book_id :=
                mkBook (item_id book)
                  (updated_field (title book) (strip title_line))
                  (updated_field (author book) (strip author_line))
                  (updated_field (genre book) (lower (strip genre_line)))
                  (total_copies book) (_available_copies book)
                  (borrow_count book)]> (books L)) L)
  | None =>
      _update_book book_id title_line author_line genre_line L
      = (([say (ui_error "Book not found.")], Ok tt), L)
  end.
Proof.
  intros _. unfold _update_book, update_book, updated_field.
  destruct (books L !! book_id) as [book|] eqn:Hb; [|done].
  rewrite bool_decide_eq_true_2 by done. simpl.
  destruct (str_is_empty (strip title_line)),
    (str_is_empty (strip author_line)),
    (str_is_empty (lower (strip genre_line))); simpl; try done.
  all: by destruct book.
Qed.

(** X29.  The add-user entry cannot fail.  With what its prompts return (an id
    and a name that are not empty) and a line of interests typed in ASCII
    the entry writes [User added.] and the
    library is as after [add_user] of a user with that id and name, the
    interests that the line names between its commas (stripped, in lower
    case, none empty), nothing borrowed and an empty history; the user is
    ignored if the id is registered.  The branch [Failed to add user] is
    not reached. *)
Theorem menu_add_user_succeeds (user_id name interests_line : string)
    (L : Library) :
  prompted (MenuAddUser user_id name interests_line) →
  _add_user user_id name interests_line L
  = ([say (ui_success "User added.")],
     add_user
       (mkUser user_id name
          (normalized (list_to_set (split_on comma (strip interests_line))))
          ∅ []) L).
Proof.
  intros (Hi&Hn&_). unfold _add_user, User_init.
  rewrite (proj2 (str_is_empty_false user_id) Hi),
    (proj2 (str_is_empty_false name) Hn). simpl.
  by rewrite normalized_idem.
Qed.

(** Interests typed with blanks, capitals and an empty piece. *)
Lemma menu_add_user_succeeds_witness :
  users (_add_user "u7" "Eve" " Tech, ,History " Library_init).2 !! "u7"
  = Some (mkUser "u7" "Eve" {["tech"; "history"]} ∅ []).
Proof.
  rewrite (menu_add_user_succeeds "u7" "Eve" " Tech, ,History " Library_init)
    by done.
  by vm_compute.
Defined.

(** A new title, the author skipped, a genre with blanks and capitals. *)
Lemma menu_update_book_spec_witness :
  books (_update_book "b1" " New " "" " SciFi " test_lib).2 !! "b1"
  = Some (mkBook "b1" "New" "Auth" "scifi" 1 1 0).
Proof.
  assert (prompted (MenuUpdateBook "b1" " New " "" " SciFi ")) as Ha
    by (by split_and!).
  pose proof (menu_update_book_spec "b1" " New " "" " SciFi " test_lib Ha)
    as H.
  assert (books test_lib !! "b1" = Some test_b1) as E by (by vm_compute).
  rewrite E in H. rewrite H. by vm_compute.
Defined.

(** ** What the menu keeps *)

Lemma borrow_book_well_formed uid bid L :
  well_formed L → well_formed (borrow_book uid bid L).2.
Proof.
  intros [Hwb Hwu].
  destruct (borrow_book_cases uid bid L) as [->|(user&book&Hu&Hb&Hlt&->)];
    [done|].
  split; simpl.
  - intros id b. destruct (decide (id = bid)) as [->|Hne].
    + rewrite lookup_insert_eq. intros [= <-].
      destruct (Hwb bid book Hb) as (?&?&?&?&?&Hc).
      unfold copies_ok in *. simpl. split_and!; try done; lia.
    + rewrite lookup_insert_ne by done. apply Hwb.
  - intros id u. destruct (decide (id = uid)) as [->|Hne].
    + rewrite lookup_insert_eq. intros [= <-]. simpl. by apply Hwu.
    + rewrite lookup_insert_ne by done. apply Hwu.
Qed.

Lemma with_borrow_requests_well_formed q L :
  well_formed L → well_formed (with_borrow_requests q L).
Proof. by intros [? ?]. Qed.

Lemma apply_op_well_formed o L :
  tidy o → well_formed L → well_formed (apply_op o L).
Proof.
  intros Ho Hwf. pose proof Hwf as [Hwb Hwu].
  destruct o as [book|bid|bid updates|user|uid bid|uid bid|uid bid|];
    simpl in *.
  - destruct Ho as (Hi&Ht&Ha&Hg&Hc). unfold add_book.
    destruct (books L !! item_id book) as [existing|] eqn:He;
      (split; [|done]); simpl; intros id b;
      (destruct (decide (id = item_id book)) as [->|Hne];
       [rewrite lookup_insert_eq; intros [= <-]
       |rewrite lookup_insert_ne by done; apply Hwb]).
    + destruct (Hwb _ _ He) as (?&?&?&?&?&Hce).
      unfold copies_ok in *. simpl. split_and!; try done; lia.
    + by split_and!.
  - unfold remove_book. destruct (books L !! bid) as [removed|]; simpl;
      [|done].
    split; [|done]. simpl. intros id b [_ Hb]%lookup_delete_Some.
    by apply Hwb.
  - unfold update_book. destruct (books L !! bid) as [book|] eqn:Hb; [|done].
    pose proof (apply_updates_tidy updates book Ho)
      as (Hr&Hid&Htot&Hav&Hbc&Ht&Ha&Hg).
    destruct (apply_updates updates book) as [r book']. simpl in *.
    assert (well_formed (with_books (<[bid := book']> (books L)) L)).
    { split; [|done]. simpl. intros id b.
      destruct (decide (id = bid)) as [->|Hne].
      - rewrite lookup_insert_eq. intros [= <-].
        destruct (Hwb bid book Hb) as (?&?&?&?&?&Hc).
        unfold copies_ok in *. rewrite Hid, Htot, Hav.
        split_and!; auto; lia.
      - rewrite lookup_insert_ne by done. apply Hwb. }
    by destruct r.
  - destruct Ho as (Hi&Hn&Hint&_). unfold add_user.
    destruct (users L !! user_id user) eqn:Hu; [done|].
    split; [done|]. simpl. intros id u.
    destruct (decide (id = user_id user)) as [->|Hne].
    + rewrite lookup_insert_eq. by intros [= <-].
    + rewrite lookup_insert_ne by done. apply Hwu.
  - by apply borrow_book_well_formed.
  - destruct (return_book_cases uid bid L)
      as [->|(user&book&Hu&Hb&Hin&Hlt&->)]; [done|].
    split; simpl.
    + intros id b. destruct (decide (id = bid)) as [->|Hne].
      * rewrite lookup_insert_eq. intros [= <-].
        destruct (Hwb bid book Hb) as (?&?&?&?&?&Hc).
        unfold copies_ok in *. simpl. split_and!; try done; lia.
      * rewrite lookup_insert_ne by done. apply Hwb.
    + intros id u. destruct (decide (id = uid)) as [->|Hne].
      * rewrite lookup_insert_eq. intros [= <-]. simpl. by apply Hwu.
      * rewrite lookup_insert_ne by done. apply Hwu.
  - done.
  - destruct (process_next_borrow_cases L) as [q [->|(uid&bid&->)]].
    + by apply with_borrow_requests_well_formed.
    + by apply borrow_book_well_formed, with_borrow_requests_well_formed.
Qed.

Lemma tidy_registers o :
  tidy o → registers_consistent_users o ∧ registers_new_users o.
Proof.
  destruct o; simpl; try done.
  intros (_&_&_&Hb&Hh). split; [|done]. intros bid. rewrite Hb. set_solver.
Qed.

Lemma run_ops_tidy ops L :
  Forall tidy ops →
  well_formed L ∧ all_borrowed_in_history L ∧ edges_are_history L →
  well_formed (run_ops ops L) ∧ all_borrowed_in_history (run_ops ops L)
  ∧ edges_are_history (run_ops ops L).
Proof.
  intros Hops. revert L.
  induction Hops as [|o ops Ho Hops IH]; intros L (Hwf&Hbh&Heh); [done|].
  simpl. destruct (tidy_registers o Ho) as [Hc Hn]. apply IH. split_and!.
  - by apply apply_op_well_formed.
  - by apply apply_op_borrowed_in_history.
  - by apply apply_op_edges_are_history.
Qed.

Lemma run_ops_app ops1 ops2 L :
  run_ops (ops1 ++ ops2) L = run_ops ops2 (run_ops ops1 L).
Proof. unfold run_ops. by rewrite foldl_app. Qed.

Lemma menu_step_ops a L :
  prompted a → ∃ ops, menu_step a L = run_ops ops L ∧ Forall tidy ops.
Proof.
  intros Ha.
  destruct a as [i t a g c v|i|i t a g|i n l|u b|u b]; simpl in *.
  - destruct Ha as (Hi&Ht&Ha&Hg&Hc&Hv&_). unfold _add_book.
    rewrite Book_init_ok by (done || by apply lower_not_empty).
    rewrite decide_True by done. eexists [OpAddBook _]. split; [done|].
    repeat constructor; simpl; try done; try by apply lower_not_empty.
    all: lia.
  - exists [OpRemoveBook i]. by split; [|repeat constructor].
  - unfold _update_book. case_bool_decide as Hb; cbn [negb].
    + match goal with
      | |- context [update_book i ?u L] => set (updates := u)
      end.
      exists [OpUpdateBook i updates]. split.
      * unfold run_ops. cbn [foldl apply_op].
        by destruct (update_book i updates L) as [[[]|] ?].
      * repeat constructor. subst updates. cbn [tidy].
        destruct (str_is_empty (strip t)) eqn:E1,
          (str_is_empty (strip a)) eqn:E2,
          (str_is_empty (lower (strip g))) eqn:E3; simpl;
          repeat constructor; simpl; by apply str_is_empty_false.
    + by exists [].
  - destruct Ha as (Hi&Hn&_). unfold _add_user, User_init.
    rewrite (proj2 (str_is_empty_false i) Hi),
      (proj2 (str_is_empty_false n) Hn). simpl.
    eexists [OpAddUser _]. split; [done|].
    repeat constructor; simpl; try done. by rewrite !normalized_idem.
  - unfold _borrow_book. case_bool_decide; simpl; [|by exists []].
    case_bool_decide; simpl; [|by exists []].
    destruct (borrow_book u b L) as [[[]|e] L1] eqn:E.
    + exists [OpBorrow u b]. split; [|by repeat constructor].
      simpl. by rewrite E.
    + exists [OpBorrow u b; OpEnqueue u b]. split; [|by repeat constructor].
      simpl. by rewrite E.
    + exists [OpBorrow u b]. split; [|by repeat constructor].
      simpl. by rewrite E.
  - unfold _return_book.
    destruct (return_book u b L) as [[[]|e] L1] eqn:E.
    + exists [OpReturn u b; OpProcessNext]. split; [|by repeat constructor].
      simpl. rewrite E. simpl.
      by destruct (process_next_borrow L1) as [[[]|] ?].
    + exists [OpReturn u b]. split; [|by repeat constructor].
      simpl. by rewrite E.
    + exists [OpReturn u b]. split; [|by repeat constructor].
      simpl. by rewrite E.
Qed.

Lemma menu_run_ops actions L :
  Forall prompted actions →
  ∃ ops, menu_run actions L = run_ops ops L ∧ Forall tidy ops.
Proof.
  intros Ha. revert L.
  induction Ha as [|a actions Ha Hactions IH]; intros L.
  { by exists []. }
  destruct (menu_step_ops a L Ha) as (ops1&H1&Ht1).
  destruct (IH (menu_step a L)) as (ops2&H2&Ht2).
  exists (ops1 ++ ops2). split; [|by apply Forall_app].
  unfold menu_run in *. simpl. by rewrite H2, H1, run_ops_app.
Qed.

Lemma well_formed_init :
  well_formed Library_init ∧ all_borrowed_in_history Library_init
  ∧ edges_are_history Library_init.
Proof.
  split_and!.
  - split; intros ? ?; simpl; by rewrite lookup_empty.
  - intros ? ?. simpl. by rewrite lookup_empty.
  - intros u b. simpl. rewrite !neighbors_empty, lookup_empty.
    split; split; try set_solver; by intros (?&?&?).
Qed.

Section MenuSpec.

Variable set_order : gset string → list string.
Variable book_items : gmap string Book → list (string * Book).
Variable user_items : gmap string User → list (string * User).
Hypothesis set_order_elem : ∀ s x, x ∈ set_order s ↔ x ∈ s.
Hypothesis book_items_map : ∀ bs, book_items bs ≡ₚ map_to_list bs.
Hypothesis user_items_map : ∀ us, user_items us ≡ₚ map_to_list us.

(** X30.  What the menu keeps.  Start from the empty library and go through the
    entries that change it (add, remove and update a book, add a user,
    borrow, return), any number of times in any order, with what the
    prompts return and, where an entry strips a text or puts it in lower
    case, a text typed in ASCII.  Then every book is registered under its own id, with
    a title, an author and a genre that are not empty and
    [0 <= available_copies <= total_copies]; every user is registered
    under its own id with a name that is not empty and normalized
    interests; what a user has borrowed is in the history; the graph has
    exactly the edges of the histories; and what [_snapshot] writes of
    the library, [load_from_file] reads back as the same catalog, the
    same users and the same waitlist.  (An entry that raises, as the
    return entry can, leaves the library as it was when it raised.) *)
Theorem menu_keeps_well_formed (actions : list menu_action) (L0 : Library) :
  Forall prompted actions →
  let L := menu_run actions Library_init in
  well_formed L ∧ all_borrowed_in_history L ∧ edges_are_history L
  ∧ ∃ data,
      _snapshot set_order book_items user_items L = Some data
      ∧ books (load_from_file user_items (Some data) L0).2 = books L
      ∧ users (load_from_file user_items (Some data) L0).2 = users L
      ∧ _borrow_requests_as_list (load_from_file user_items (Some data) L0).2
        = _borrow_requests_as_list L.
Proof.
  intros Hactions. cbv zeta.
  destruct (menu_run_ops actions Library_init Hactions) as (ops&->&Hops).
  destruct (run_ops_tidy ops Library_init Hops well_formed_init)
    as (Hwf&Hbh&Heh).
  split; [done|]. split; [done|]. split; [done|].
  destruct (run_ops_queue_ok ops Library_init []) as (items&Hq&Hinc).
  { apply queue_repr_init. }
  { intros a n b. simpl. by rewrite lookup_nil. }
  destruct (snapshot_load set_order book_items user_items set_order_elem
              book_items_map user_items_map _ L0 items Hq Hinc)
    as (data&Hs&_&_&_&Hl&Hexact).
  exists data. destruct (Hexact Hwf) as [Hb Hu]. by split_and!.
Qed.

End MenuSpec.

(** A session: two books, a user, the only copy of [b7] lent and asked
    for again, returned and lent to the one who waited, a title changed,
    a book removed. *)
Lemma menu_keeps_well_formed_witness :
  let L :=
    menu_run [MenuAddBook "b7" "Dune" "Herbert" "SciFi" 1 1;
              MenuAddBook "b8" "Emma" "Austen" "Novel" 2 2;
              MenuAddUser "u7" "Eve" "scifi, novel";
              MenuBorrowBook "u7" "b7"; MenuBorrowBook "u7" "b7";
              MenuReturnBook "u7" "b7";
              MenuUpdateBook "b7" "Dune I" "" " ";
              MenuRemoveBook "b8"] Library_init in
  well_formed L
  ∧ books L !! "b7" = Some (mkBook "b7" "Dune I" "Herbert" "scifi" 1 0 2).
Proof.
  cbv zeta. split; [|by vm_compute].
  refine (proj1 (menu_keeps_well_formed elements map_to_list map_to_list
                   (λ s x, elem_of_elements s x) (λ bs, reflexivity _)
                   (λ us, reflexivity _) _ Library_init _)).
  repeat first [apply Forall_nil | apply Forall_cons; split];
    simpl; try done; split_and!; done || lia.
Defined.
